(** * Salience of a graph: a shallow embedding of [salience.py] and
    [salience_unw.py]

    The two Python modules compute, for a NetworkX graph, the average of the
    shortest-path trees of all its nodes.  Each module has a private builder
    [_SPT] and a public entry point [salience].

    Conventions of the embedding.
    - Python objects that are mutated in place (the attribute dictionary of an
      edge) live in an explicit [store]; a graph refers to them by location,
      so that aliasing between the caller's graph and its relabelled copy is
      visible.
    - A call is a function from the store to an [outcome] and the store it
      leaves behind; the store is kept when an exception is raised.
    - An edge attribute is a [value]: a Python int, a Python float, a NumPy
      float or an object that is no number, since [1./w] treats them
      differently.
    - A float is the rational number ([Q]) it denotes, and the arithmetic on
      floats is exact: the rounding of a quotient or of a sum to the nearest
      float is not followed.  The entries of the trees and of their sum are
      small integers, which floats hold exactly; rounding enters in the
      reciprocals [1./w], in the distances Dijkstra's search adds up and in
      the last division [1.*S/N].  The statements below are about what no
      rounding changes: which exception is raised, the shape of the result,
      where its entries can be nonzero, that the reported paths form a tree
      which spans what the reference node reaches, and of which whole
      numbers [c] and [N] an entry is the quotient [1.*c/N] (the entry of
      the program being the float nearest to that quotient).  None says
      which of two routes of nearly equal cost the weighted search prefers,
      and none adds up entries of the result.
    - Where a float becomes inf or nan (the reciprocal of a NumPy zero, an
      entry divided by zero) the program goes on with it; the rationals do
      not hold it, and the embedding stops there with [Stop NonFinite].
    - The NetworkX routines the code calls ([convert_node_labels_to_integers],
      [not_implemented_for], [shortest_path] with and without a weight) are
      collaborators: they are modelled here after the library's behaviour,
      with the loops of the library bounded by an explicit fuel. *)

From Stdlib Require Import QArith Lqa.
From stdpp Require Import gmap strings list fin_maps.

Local Open Scope Q_scope.
Local Open Scope nat_scope.

(** ** Outcomes, exceptions and the store *)

Inductive exn : Type :=
  | NetworkXNotImplemented
  | NodeNotFound
  | KeyError
  | ZeroDivisionError
  | OverflowError
  | TypeError
  | IndexError
  | ValueError.

(** Where the embedding stops following a run: a loop of a collaborator has
    used up the fuel it is given here, or a float has become inf or nan. *)
Inductive limit : Type :=
  | Fuel
  | NonFinite.

Inductive outcome (A : Type) : Type :=
  | Ok (a : A)
  | Raise (e : exn)
  | Stop (w : limit).

Arguments Ok {A} a.
Arguments Raise {A} e.
Arguments Stop {A} w.

Abbreviation OutOfFuel := (Stop Fuel).

Definition obind {A B : Type} (o : outcome A) (k : A → outcome B) : outcome B :=
  match o with
  | Ok a => k a
  | Raise e => Raise e
  | Stop w => Stop w
  end.

(** ** Edge attribute values

    [1./w] is the one operation the modules apply to an attribute of the
    caller.  The values followed are the Python ints (the bools among them),
    the finite Python floats and the finite NumPy floats, a float being
    given by the rational it denotes; [Other] stands for an object on which
    float division raises [TypeError]: [None], a string, a list. *)
Inductive value : Type :=
  | PyInt (z : Z)
  | PyFloat (x : Q)
  | NpFloat (x : Q)
  | Other.

(** The least magnitude of a Python int that does not convert to a float:
    halfway between the largest float, [2^1024 - 2^971], and [2^1024]. *)
Definition float_overflow : Z := (2 ^ 1024 - 2 ^ 970)%Z.

(** [1./w].  An int is converted to a float first, which raises
    [OverflowError] when it is too large; Python raises on a zero divisor;
    NumPy gives inf for it, with a warning.  The result is a float of the
    kind of [w].  The quotient is exact: neither its rounding nor its
    overflow to inf, for a float of magnitude below [2^-1024], is
    followed. *)
Definition reciprocal (w : value) : outcome value :=
  match w with
  | PyInt z =>
      if (float_overflow <=? Z.abs z)%Z then Raise OverflowError
      else if (z =? 0)%Z then Raise ZeroDivisionError
      else Ok (PyFloat (1 / inject_Z z))
  | PyFloat x =>
      if Qeq_bool x 0 then Raise ZeroDivisionError else Ok (PyFloat (1 / x))
  | NpFloat x =>
      if Qeq_bool x 0 then Stop NonFinite else Ok (NpFloat (1 / x))
  | Other => Raise TypeError
  end.

(** The number a value denotes.  [Other] denotes none; the modules never
    ask for it: the only attribute they have read as a number is
    ['proximity'], which the builder has set to a float on every edge. *)
Definition number (v : value) : Q :=
  match v with
  | PyInt z => inject_Z z
  | PyFloat x | NpFloat x => x
  | Other => 0
  end.

(** An attribute dictionary maps attribute names to values. *)
Abbreviation attrs := (gmap string value).

(** Locations are positions in the store; allocation appends. *)
Abbreviation loc := nat.
Abbreviation store := (list attrs).

Definition M (A : Type) : Type := store → outcome A * store.

Definition ret {A : Type} (a : A) : M A := λ h, (Ok a, h).

Definition bind {A B : Type} (m : M A) (k : A → M B) : M B :=
  λ h, match m h with
       | (Ok a, h') => k a h'
       | (Raise e, h') => (Raise e, h')
       | (Stop w, h') => (Stop w, h')
       end.

Definition raise {A : Type} (e : exn) : M A := λ h, (Raise e, h).

(** A computation that does not touch the store. *)
Definition lift {A : Type} (o : outcome A) : M A := λ h, (o, h).

(** A computation that reads the store. *)
Definition reading {A : Type} (f : store → outcome A) : M A := λ h, (f h, h).

Notation "x <- c1 ;; c2" := (bind c1 (λ x, c2))
  (at level 100, c1 at next level, right associativity).
Notation "c1 ;;; c2" := (bind c1 (λ _, c2))
  (at level 100, right associativity).

(** [d = dict(h[l])]: a dangling location cannot arise in Python; it reads as
    the empty dictionary. *)
Definition read (l : loc) : M attrs := λ h, (Ok (default ∅ (h !! l)), h).

(** In-place update of the dictionary at [l]. *)
Definition write (l : loc) (d : attrs) : M unit := λ h, (Ok tt, <[l := d]> h).

(** A fresh dictionary object with contents [d]. *)
Definition alloc (d : attrs) : M loc := λ h, (Ok (length h), h ++ [d]).

(** [for x in xs: body x] *)
Fixpoint for_each {A : Type} (xs : list A) (body : A → M unit) : M unit :=
  match xs with
  | [] => ret tt
  | x :: xs' => body x ;;; for_each xs' body
  end.

(** [for x in xs: acc = body acc x] *)
Fixpoint for_acc {A S : Type} (xs : list A) (body : S → A → M S) (acc : S) : M S :=
  match xs with
  | [] => ret acc
  | x :: xs' => acc' <- body acc x ;; for_acc xs' body acc'
  end.

(** [[f(x) for x in xs]] *)
Fixpoint map_M {A B : Type} (f : A → M B) (xs : list A) : M (list B) :=
  match xs with
  | [] => ret []
  | x :: xs' => y <- f x ;; ys <- map_M f xs' ;; ret (y :: ys)
  end.

(** ** Graphs

    A NetworkX graph as the code observes it: its class ([is_directed],
    [is_multigraph]), the enumeration [G.nodes()] and the enumeration
    [G.edges(data=True)], each edge carrying a reference to its attribute
    dictionary. *)

Record Graph (L : Type) : Type := mkGraph {
  is_directed : bool;
  is_multigraph : bool;
  nodes : list L;
  edges : list (L * L * loc)
}.

Arguments mkGraph {L} _ _ _ _.
Arguments is_directed {L} _.
Arguments is_multigraph {L} _.
Arguments nodes {L} _.
Arguments edges {L} _.

(** [G.order()] *)
Definition order {L : Type} (G : Graph L) : nat := length (nodes G).

(** ** Matrices ([numpy.ndarray] of floats, two-dimensional) *)

Abbreviation matrix := (list (list Q)).

(** [np.zeros((n, m))] *)
Definition zeros (n m : nat) : matrix := replicate n (replicate m 0%Q).

(** [T[i][j]], for reading results. *)
Definition entry (T : matrix) (i j : nat) : option Q :=
  row ← T !! i; row !! j.

(** [T[i][j] = x]; NumPy raises [IndexError] out of range. *)
Definition set_entry (T : matrix) (i j : nat) (x : Q) : outcome matrix :=
  match T !! i with
  | Some row =>
      match row !! j with
      | Some _ => Ok (<[i := <[j := x]> row]> T)
      | None => Raise IndexError
      end
  | None => Raise IndexError
  end.

(** [S + T] on arrays of the same shape. *)
Definition madd (S T : matrix) : matrix :=
  zip_with (zip_with Qplus) S T.

(** Every entry of [S] as [1.*x/N]. *)
Definition quotients (S : matrix) (N : nat) : matrix :=
  map (map (λ x, (1 * x / inject_Z (Z.of_nat N))%Q)) S.

(** The array has at least one entry. *)
Definition has_entry (S : matrix) : bool :=
  existsb (λ row, negb (length row =? 0)) S.

(** [1.*S/N]: NumPy multiplies and divides entry by entry and tests nothing.
    A zero divisor turns every entry into inf or nan (with a warning, not an
    exception); an array without entries comes back as it is. *)
Definition scale_div (S : matrix) (N : nat) : outcome matrix :=
  if (N =? 0) && has_entry S then Stop NonFinite else Ok (quotients S N).

(** ** Insertion-ordered dictionaries keyed by node index *)

Section Dict.
Context {V : Type}.

Fixpoint dict_get (k : nat) (d : list (nat * V)) : option V :=
  match d with
  | [] => None
  | (k', v) :: d' => if decide (k = k') then Some v else dict_get k d'
  end.

(** [d[k] = v]: an existing key keeps its position. *)
Fixpoint dict_set (k : nat) (v : V) (d : list (nat * V)) : list (nat * V) :=
  match d with
  | [] => [(k, v)]
  | (k', v') :: d' =>
      if decide (k = k') then (k, v) :: d' else (k', v') :: dict_set k v d'
  end.

Definition dict_mem (k : nat) (d : list (nat * V)) : bool :=
  match dict_get k d with Some _ => true | None => false end.
End Dict.

(** ** NetworkX collaborators *)

Section Relabel.
Context {L : Type} `{EqDecision L}.

(** [dict(zip(G.nodes(), range(0, N)))] *)
Definition node_mapping (G : Graph L) : list (L * nat) :=
  zip (nodes G) (seq 0 (order G)).

(** [mapping[x]]; the first binding of a key is the only one, since
    [G.nodes()] lists every node once.  An endpoint that is not a node
    cannot occur in a NetworkX graph; it is sent out of range. *)
Fixpoint mapping_get (x : L) (m : list (L * nat)) (dflt : nat) : nat :=
  match m with
  | [] => dflt
  | (y, i) :: m' => if decide (x = y) then i else mapping_get x m' dflt
  end.

Definition relabel (G : Graph L) (x : L) : nat :=
  mapping_get x (node_mapping G) (order G).

(** [(mapping[n1], mapping[n2], d.copy())] *)
Definition copy_edge (G : Graph L) (e : L * L * loc) : M (nat * nat * loc) :=
  let '(u, v, l) := e in
  d <- read l ;;
  l' <- alloc d ;;
  ret (relabel G u, relabel G v, l').

(** [nx.convert_node_labels_to_integers(G)]: a new graph of the same class
    whose nodes are [0..N-1] in the order of [G.nodes()], and whose edges
    are those of [G] in the order of [G.edges()], each with a shallow copy
    of its attribute dictionary. *)
Definition convert_node_labels_to_integers (G : Graph L) : M (Graph nat) :=
  new_edges <- map_M (copy_edge G) (edges G) ;;
  ret (mkGraph (is_directed G) (is_multigraph G)
               (map (relabel G) (nodes G)) new_edges).

(** The decorators [@not_implemented_for('directed')] and
    [@not_implemented_for('multigraph')] of [_SPT]; the outer one is
    checked first. *)
Definition not_implemented_for (G : Graph L) : M unit :=
  if is_directed G then raise NetworkXNotImplemented
  else if is_multigraph G then raise NetworkXNotImplemented
  else ret tt.
End Relabel.

(** Neighbours of [v] in the relabelled graph, with the dictionary of the
    connecting edge, in the order in which the edges were inserted: this is
    the iteration order of [Gn.adj[v]]. *)
Fixpoint adj_items (es : list (nat * nat * loc)) (v : nat) : list (nat * loc) :=
  match es with
  | [] => []
  | (a, b, l) :: es' =>
      if decide (a = v) then (b, l) :: adj_items es' v
      else if decide (b = v) then (a, l) :: adj_items es' v
      else adj_items es' v
  end.

Definition adj (Gn : Graph nat) (v : nat) : list nat :=
  (adj_items (edges Gn) v).*1.

Abbreviation paths_dict := (list (nat * list nat)).

(** *** Breadth-first search: [nx.single_source_shortest_path] *)

(** [for w in adj[v]: if w not in paths: paths[w] = paths[v] + [w];
    nextlevel[w] = 1] *)
Fixpoint bfs_visit (pv : list nat) (ws : list nat)
    (st : paths_dict * list nat) : paths_dict * list nat :=
  match ws with
  | [] => st
  | w :: ws' =>
      let '(paths, nextlevel) := st in
      if dict_mem w paths then bfs_visit pv ws' st
      else bfs_visit pv ws' (dict_set w (pv ++ [w]) paths, nextlevel ++ [w])
  end.

(** [for v in thislevel: ...]; [paths[v]] raises [KeyError] when absent. *)
Fixpoint bfs_level (Gn : Graph nat) (thislevel : list nat)
    (st : paths_dict * list nat) : outcome (paths_dict * list nat) :=
  match thislevel with
  | [] => Ok st
  | v :: vs =>
      match dict_get v st.1 with
      | Some pv => bfs_level Gn vs (bfs_visit pv (adj Gn v) st)
      | None => Raise KeyError
      end
  end.

(** [while nextlevel: ...] *)
Fixpoint _single_shortest_path (fuel : nat) (Gn : Graph nat)
    (nextlevel : list nat) (paths : paths_dict) : outcome paths_dict :=
  match nextlevel with
  | [] => Ok paths
  | _ :: _ =>
      match fuel with
      | 0 => OutOfFuel
      | S fuel' =>
          obind (bfs_level Gn nextlevel (paths, []))
                (λ st, _single_shortest_path fuel' Gn st.2 st.1)
      end
  end.

(** Every round of the loop but the last adds a node to [paths], so the
    number of nodes bounds the number of rounds. *)
Definition single_source_shortest_path (Gn : Graph nat) (source : nat)
    : outcome paths_dict :=
  if decide (source ∈ nodes Gn) then
    _single_shortest_path (S (order Gn)) Gn [source] [(source, [source])]
  else Raise NodeNotFound.

(** *** Dijkstra: [nx.single_source_dijkstra_path]

    [_dijkstra_multisource] keeps the final distances [dist], the best
    tentative distances [seen], a [heapq] of triples (distance, counter,
    node) and the dictionary [paths]. *)

Record dijkstra_state : Type := mkDijkstra {
  dist : list (nat * Q);
  seen : list (nat * Q);
  fringe : list (Q * nat * nat);
  counter : nat;
  paths : paths_dict
}.

(** Python's [<] on floats. *)
Definition Qltb (x y : Q) : bool := negb (Qle_bool y x).

(** Tuple comparison of two heap items; counters are pairwise distinct, so
    the node is never compared. *)
Definition item_ltb (a b : Q * nat * nat) : bool :=
  let '(da, ca, _) := a in
  let '(db, cb, _) := b in
  Qltb da db || (Qeq_bool da db && (ca <? cb)).

Fixpoint heap_min (x : Q * nat * nat) (xs : list (Q * nat * nat)) : Q * nat * nat :=
  match xs with
  | [] => x
  | y :: ys => heap_min (if item_ltb y x then y else x) ys
  end.

Fixpoint heap_remove (c : nat) (xs : list (Q * nat * nat)) : list (Q * nat * nat) :=
  match xs with
  | [] => []
  | x :: xs' => if decide (x.1.2 = c) then xs' else x :: heap_remove c xs'
  end.

(** [heappop(fringe)] *)
Definition heappop (fr : list (Q * nat * nat))
    : option ((Q * nat * nat) * list (Q * nat * nat)) :=
  match fr with
  | [] => None
  | x :: xs => let m := heap_min x xs in Some (m, heap_remove m.1.2 fr)
  end.

(** The weight function NetworkX derives from a key: [data.get(key, 1)],
    read as a number. *)
Definition weight_function (key : string) (data : attrs) : Q :=
  number (default (PyInt 1) (data !! key)).

(** One iteration of [for u, e in G_succ[v].items()], with [d = dist[v]].
    The sum [dist[v] + cost] and the two comparisons are those of the
    rationals.  The sum of the program is rounded; where no cost is
    negative it is still no less than [dist[v]], so that the search of the
    program, like this one, does not raise [ValueError] and reaches the
    same nodes; which of two routes a comparison prefers can differ. *)
Definition relax (h : store) (key : string) (v : nat) (d : Q)
    (st : dijkstra_state) (ue : nat * loc) : outcome dijkstra_state :=
  let '(u, l) := ue in
  let cost := weight_function key (default ∅ (h !! l)) in
  let vu_dist := (d + cost)%Q in
  let push :=
    match dict_get v (paths st) with
    | Some pv =>
        Ok (mkDijkstra (dist st) (dict_set u vu_dist (seen st))
              (fringe st ++ [(vu_dist, counter st, u)]) (S (counter st))
              (dict_set u (pv ++ [u]) (paths st)))
    | None => Raise KeyError
    end in
  match dict_get u (dist st) with
  | Some u_dist => if Qltb vu_dist u_dist then Raise ValueError else Ok st
  | None =>
      match dict_get u (seen st) with
      | None => push
      | Some su => if Qltb vu_dist su then push else Ok st
      end
  end.

Fixpoint relax_all (h : store) (key : string) (v : nat) (d : Q)
    (ues : list (nat * loc)) (st : dijkstra_state) : outcome dijkstra_state :=
  match ues with
  | [] => Ok st
  | ue :: ues' => obind (relax h key v d st ue) (relax_all h key v d ues')
  end.

(** [while fringe: ...] *)
Fixpoint _dijkstra_multisource (fuel : nat) (Gn : Graph nat) (h : store)
    (key : string) (st : dijkstra_state) : outcome paths_dict :=
  match heappop (fringe st) with
  | None => Ok (paths st)
  | Some ((d, _, v), fr) =>
      match fuel with
      | 0 => OutOfFuel
      | S fuel' =>
          let st := mkDijkstra (dist st) (seen st) fr (counter st) (paths st) in
          if dict_mem v (dist st) then _dijkstra_multisource fuel' Gn h key st
          else
            let st := mkDijkstra (dict_set v d (dist st)) (seen st) (fringe st)
                                 (counter st) (paths st) in
            obind (relax_all h key v d (adj_items (edges Gn) v) st)
                  (_dijkstra_multisource fuel' Gn h key)
      end
  end.

(** Every push but the first happens while a node is finalised, once per
    incident edge end, so twice the number of edges bounds the pops. *)
Definition single_source_dijkstra_path (Gn : Graph nat) (h : store)
    (source : nat) (key : string) : outcome paths_dict :=
  if decide (source ∈ nodes Gn) then
    _dijkstra_multisource (S (2 * length (edges Gn))) Gn h key
      (mkDijkstra [] [(source, 0%Q)] [(0%Q, 0, source)] 1 [(source, [source])])
  else Raise NodeNotFound.

(** ** The builder: filling [T] from the paths (both modules) *)

(** [for i in range(len(path)-1): T[path[i]][path[i+1]] = 1] *)
Fixpoint mark_path (T : matrix) (path : list nat) : outcome matrix :=
  match path with
  | u :: (v :: _) as rest => obind (set_entry T u v 1%Q) (λ T', mark_path T' rest)
  | _ => Ok T
  end.

(** [for k, path in paths.items(): ...] *)
Fixpoint mark_paths (T : matrix) (paths : paths_dict) : outcome matrix :=
  match paths with
  | [] => Ok T
  | (_, path) :: paths' => obind (mark_path T path) (λ T', mark_paths T' paths')
  end.

(** ** [salience.py] *)

Module Weighted.
Section Weighted.
Context {L : Type} `{EqDecision L}.

(** [w = Gn[i][j][weight]; Gn[i][j]['proximity'] = 1./w] *)
Definition add_proximity (weight : string) (e : nat * nat * loc) : M unit :=
let '(_, _, l) := e in
d <- read l ;;
match d !! weight with
| None => raise KeyError
| Some w => p <- lift (reciprocal w) ;; write l (<["proximity"%string := p]> d)
end.

Definition _SPT (G : Graph L) (r : nat) (weight : string) : M matrix :=
not_implemented_for G ;;;
Gn <- convert_node_labels_to_integers G ;;
let N := order Gn in
let T := zeros N N in
for_each (edges Gn) (add_proximity weight) ;;;
paths <- reading (λ h, single_source_dijkstra_path Gn h r "proximity") ;;
lift (mark_paths T paths).

(** The statements of [salience], with the array division of the last one
    as a parameter, so that what is handed to it can be told. *)
Definition salience_by (divide : matrix → nat → outcome matrix)
  (G : Graph L) (weight : string) : M matrix :=
let N := order G in
let S := zeros N N in
Gn <- convert_node_labels_to_integers G ;;
S <- for_acc (nodes Gn) (λ S n, T <- _SPT G n weight ;; ret (madd S T)) S ;;
lift (divide S N).

(** [salience]: the division is NumPy's. *)
Definition salience (G : Graph L) (weight : string) : M matrix :=
salience_by scale_div G weight.
End Weighted.
End Weighted.

(** ** [salience_unw.py] *)

Module Unweighted.
Section Unweighted.
Context {L : Type} `{EqDecision L}.

Definition _SPT (G : Graph L) (r : nat) : M matrix :=
not_implemented_for G ;;;
Gn <- convert_node_labels_to_integers G ;;
let N := order Gn in
let T := zeros N N in
paths <- lift (single_source_shortest_path Gn r) ;;
lift (mark_paths T paths).

Definition salience_by (divide : matrix → nat → outcome matrix)
  (G : Graph L) : M matrix :=
let N := order G in
let S := zeros N N in
Gn <- convert_node_labels_to_integers G ;;
S <- for_acc (nodes Gn) (λ S n, T <- _SPT G n ;; ret (madd S T)) S ;;
lift (divide S N).

Definition salience (G : Graph L) : M matrix :=
salience_by scale_div G.
End Unweighted.
End Unweighted.

(** ** Well-formedness of the caller's graph *)

Section Shape.
Context {L : Type} `{EqDecision L}.

(** What NetworkX guarantees of any graph object. *)
Definition well_formed (G : Graph L) : Prop :=
  NoDup (nodes G) ∧
  ∀ u v l, (u, v, l) ∈ edges G → u ∈ nodes G ∧ v ∈ nodes G.

(** The graphs the specification is about: undirected, no parallel
    edges, no self-loops. *)
Definition simple (G : Graph L) : Prop :=
  is_directed G = false ∧ is_multigraph G = false ∧ well_formed G ∧
  ∀ u v l, (u, v, l) ∈ edges G → u ≠ v.

(** [(i, j)] is an edge of [G] after relabelling to dense indices. *)
Definition is_edge (G : Graph L) (i j : nat) : Prop :=
  ∃ u v l, (u, v, l) ∈ edges G ∧
    ((relabel G u = i ∧ relabel G v = j) ∨ (relabel G u = j ∧ relabel G v = i)).
(** The edges of the relabelled copy: relabelled endpoints, and fresh
    dictionaries allocated from [base] on. *)
Definition copied_edges (G : Graph L) (base : nat) (es : list (L * L * loc))
    : list (nat * nat * loc) :=
  imap (λ i e, (relabel G e.1.1, relabel G e.1.2, base + i)) es.
End Shape.

(** ** Test graphs *)

(** The path graph 0 - 1 - 2 with unit weights. *)
Definition path3 : Graph nat :=
  mkGraph false false [0; 1; 2] [(0, 1, 0); (1, 2, 1)].

Definition unit_weights : store :=
  [ {[ "weight"%string := PyInt 1 ]}; {[ "weight"%string := PyInt 1 ]} ].

(** What both variants return on it (see [salience_path3_not_symmetric]). *)
Definition salience_path3 : matrix :=
  [[0 # 3; 1 # 3; 0 # 3]; [2 # 3; 0 # 3; 2 # 3]; [0 # 3; 1 # 3; 0 # 3]]%Q.

(** The graph without nodes. *)
Definition null_graph : Graph nat := mkGraph false false [] [].

(** The single node 7. *)
Definition lone_node : Graph nat := mkGraph false false [7] [].

(** A directed graph without nodes, and one with the arc 0 -> 1. *)
Definition empty_digraph : Graph nat := mkGraph true false [] [].

Definition arc : Graph nat := mkGraph true false [0; 1] [(0, 1, 0)].

(** The path 0 - 1 - 2 whose first edge has no weight and whose second edge
    has weight zero. *)
Definition unweighted_then_zero : store :=
  [ ∅; {[ "weight"%string := PyInt 0 ]} ].

(** The path 0 - 1 - 2 whose second edge has weight zero. *)
Definition one_then_zero : store :=
  [ {[ "weight"%string := PyInt 1 ]}; {[ "weight"%string := PyFloat 0 ]} ].

(** The path 0 - 1 - 2 whose first edge has the int weight [2^1024]. *)
Definition huge_then_one : store :=
  [ {[ "weight"%string := PyInt (2 ^ 1024) ]}; {[ "weight"%string := PyInt 1 ]} ].

(** A division that refuses the divisor zero, as the division of two Python
    numbers does. *)
Definition strict_div (S : matrix) (N : nat) : outcome matrix :=
  if N =? 0 then Raise ZeroDivisionError else scale_div S N.

(** ** The builder as its docstring describes it

    The docstring of [_SPT] promises a symmetric matrix.  This variant of the
    fill loop marks both orientations of a link; it is used only to compare
    the code with its documentation. *)

Module Documented.
Fixpoint mark_path (T : matrix) (path : list nat) : outcome matrix :=
  match path with
  | u :: (v :: _) as rest =>
      obind (set_entry T u v 1%Q) (λ T1,
      obind (set_entry T1 v u 1%Q) (λ T2, mark_path T2 rest))
  | _ => Ok T
  end.

Fixpoint mark_paths (T : matrix) (paths : paths_dict) : outcome matrix :=
  match paths with
  | [] => Ok T
  | (_, path) :: paths' => obind (mark_path T path) (λ T', mark_paths T' paths')
  end.

Definition _SPT {L : Type} `{EqDecision L} (G : Graph L) (r : nat) : M matrix :=
  not_implemented_for G ;;;
  Gn <- convert_node_labels_to_integers G ;;
  let N := order Gn in
  let T := zeros N N in
  paths <- lift (single_source_shortest_path Gn r) ;;
  lift (mark_paths T paths).

Definition salience {L : Type} `{EqDecision L} (G : Graph L) : M matrix :=
  let N := order G in
  let S := zeros N N in
  Gn <- convert_node_labels_to_integers G ;;
  S <- for_acc (nodes Gn) (λ S n, T <- _SPT G n ;; ret (madd S T)) S ;;
  lift (scale_div S N).
End Documented.

(** ** Vocabulary of the statements *)

(** [returns m h S]: the call [m], started in store [h], returns [S]. *)
Definition returns (m : M matrix) (h : store) (S : matrix) : Prop :=
  ∃ h', m h = (Ok S, h').

(** [o] is not the exception [e]. *)
Definition avoids {A : Type} (e : exn) (o : outcome A) : Prop := o ≠ Raise e.

(** The store only grows at fresh locations: a post-condition on the final
    store that holds however the computation ends. *)
Definition preserves {A : Type} (m : M A) : Prop :=
  ∀ h, h `prefix_of` (m h).2.

(** [keeps n m]: the first [n] cells of the store are left as they are. *)
Definition keeps {A : Type} (n : nat) (m : M A) : Prop :=
  ∀ h, n ≤ length h → n ≤ length (m h).2 ∧ take n (m h).2 = take n h.

(** [a] is immediately followed by [b] somewhere in [p]. *)
Definition consecutive (p : list nat) (a b : nat) : Prop :=
  ∃ p1 p2, p = p1 ++ a :: b :: p2.

(** [a] and [b] are joined by an edge, in either orientation. *)
Definition adjacent (es : list (nat * nat * loc)) (a b : nat) : Prop :=
  ∃ l, (a, b, l) ∈ es ∨ (b, a, l) ∈ es.

(** A sequence of nodes in which each step follows an edge. *)
Definition walk (es : list (nat * nat * loc)) (p : list nat) : Prop :=
  ∀ a b, consecutive p a b → adjacent es a b.

(** Every reported path is a walk that ends at its key. *)
Definition good_paths (es : list (nat * nat * loc)) (ps : paths_dict) : Prop :=
  ∀ k p, (k, p) ∈ ps → walk es p ∧ last p = Some k.

(** A node count as a float. *)
Definition Qnat (n : nat) : Q := inject_Z (Z.of_nat n).

(** The dictionaries of the edges [es], read in store [h]. *)
Definition dicts_of {A : Type} (h : store) (es : list (A * A * loc)) : list attrs :=
  map (λ e, default ∅ (h !! e.2)) es.

(** How the proximity loop ends on dictionaries [ds], taken in the order of
    the edges: at the first weight that is missing or has no reciprocal. *)
Fixpoint weights_outcome (weight : string) (ds : list attrs) : outcome unit :=
  match ds with
  | [] => Ok tt
  | d :: ds' =>
      match d !! weight with
      | None => Raise KeyError
      | Some w => obind (reciprocal w) (λ _, weights_outcome weight ds')
      end
  end.

(** A weight whose reciprocal [1./w] is computed. *)
Definition has_reciprocal (w : value) : Prop := ∃ p, reciprocal w = Ok p.

(** A Python number equal to zero: an int or a float. *)
Definition python_zero (w : value) : Prop :=
  w = PyInt 0 ∨ ∃ x, w = PyFloat x ∧ (x == 0)%Q.

(** A positive number: an int that converts to a float, or a float. *)
Definition positive (w : value) : Prop :=
  match w with
  | PyInt z => (0 < z < float_overflow)%Z
  | PyFloat x | NpFloat x => (0 < x)%Q
  | Other => False
  end.

(** All nodes of all reported paths are indices below [N]. *)
Definition in_range (N : nat) (ps : paths_dict) : Prop :=
  ∀ k p, (k, p) ∈ ps → k < N ∧ ∀ x, x ∈ p → x < N.

(** Both endpoints of every edge are indices below [N]. *)
Definition edges_in_range (N : nat) (es : list (nat * nat * loc)) : Prop :=
  ∀ a b l, (a, b, l) ∈ es → a < N ∧ b < N.

(** An [N] by [N] array. *)
Definition shape (N : nat) (T : matrix) : Prop :=
  length T = N ∧ ∀ row, row ∈ T → length row = N.

(** The state of the breadth-first search between two neighbours: keys are
    distinct, paths stay in range, the next level has been given a path. *)
Definition bfs_inv (N : nat) (st : paths_dict * list nat) : Prop :=
  NoDup st.1.*1 ∧ in_range N st.1 ∧ ∀ v, v ∈ st.2 → v ∈ st.1.*1.

(** Every edge of [es] has, in store [h], a dictionary whose [weight]
    attribute satisfies [P]. *)
Definition weighted_by {A : Type} (weight : string) (h : store)
    (es : list (A * A * loc)) (P : value → Prop) : Prop :=
  ∀ x, x ∈ es → ∃ d w, h !! x.2 = Some d ∧ d !! weight = Some w ∧ P w.

(** The tree of the path graph rooted at node 0. *)
Definition tree_path3_0 : matrix :=
  [[0; 1; 0]; [0; 0; 1]; [0; 0; 0]]%Q.

(** The reported paths form a tree rooted at [r]: one path per key, the
    trivial path for [r], and every other path extends the path of another
    key by its own key. *)
Definition tree_paths (r : nat) (ps : paths_dict) : Prop :=
  NoDup ps.*1 ∧ (r, [r]) ∈ ps ∧
  ∀ k p, (k, p) ∈ ps →
    last p = Some k ∧ (p = [r] ∨ ∃ k' p', (k', p') ∈ ps ∧ p = p' ++ [k]).

(** The same, with the parents among the keys of [fin]. *)
Definition tree_paths_in (fin : list (nat * Q)) (r : nat) (ps : paths_dict) : Prop :=
  NoDup ps.*1 ∧ (r, [r]) ∈ ps ∧
  ∀ k p, (k, p) ∈ ps →
    last p = Some k ∧
    (p = [r] ∨ ∃ k' p', (k', p') ∈ ps ∧ dict_mem k' fin = true ∧ p = p' ++ [k]).

(** An entry that holds a one. *)
Definition is_one (o : option Q) : bool :=
  match o with Some x => Qeq_bool x 1 | None => false end.

(** The rows that have a one in column [b]. *)
Definition column_ones (T : matrix) (b : nat) : list nat :=
  filter (λ a, is_one (entry T a b) = true) (seq 0 (length T)).

(** The number of the matrices of [trees] that have a one at [(i, j)]. *)
Definition marks (trees : list matrix) (i j : nat) : nat :=
  length (filter (λ T, is_one (entry T i j) = true) trees).

(** The number of ones of a square matrix, counted column by column. *)
Definition count_ones (T : matrix) : nat :=
  sum_list (map (λ b, length (column_ones T b)) (seq 0 (length T))).

(** The edges still to be relaxed: the degrees of the indices below [N] that
    are not final yet. *)
Definition pending (N : nat) (es : list (nat * nat * loc)) (fin : list (nat * Q)) : nat :=
  sum_list (map (λ v, if dict_mem v fin then 0 else length (adj_items es v)) (seq 0 N)).

(** Every edge has a nonnegative cost under [key] in store [h]. *)
Definition nonneg_costs (h : store) (key : string) (es : list (nat * nat * loc)) : Prop :=
  ∀ a b l, (a, b, l) ∈ es → (0 <= weight_function key (default ∅ (h !! l)))%Q.

(** The state of Dijkstra's loop between two pops. *)
Definition dijkstra_inv (N : nat) (st : dijkstra_state) : Prop :=
  in_range N (paths st) ∧
  (∀ x, x ∈ fringe st → x.2 < N ∧ dict_mem x.2 (paths st) = true) ∧
  (∀ u du x, (u, du) ∈ dist st → x ∈ fringe st → (du <= x.1.1)%Q).

(** The edges with their costs under [key] in store [h]: what Dijkstra's
    search can see of the copy. *)
Definition costs_of (h : store) (key : string) (es : list (nat * nat * loc))
    : list (nat * nat * Q) :=
  map (λ e, (e.1.1, e.1.2, weight_function key (default ∅ (h !! e.2)))) es.

(** The same graph under other node labels. *)
Definition rename {L L' : Type} (f : L → L') (G : Graph L) : Graph L' :=
  mkGraph (is_directed G) (is_multigraph G) (map f (nodes G))
          (map (λ e, (f e.1.1, f e.1.2, e.2)) (edges G)).

(** The proximity the loop gives to a caller's edge: the number of [1./w]
    for its weight [w] in store [h]. *)
Definition proximity_of {A : Type} (weight : string) (h : store) (e : A * A * loc) : Q :=
  match default ∅ (h !! e.2) !! weight with
  | Some w => match reciprocal w with Ok p => number p | _ => 0 end
  | None => 0
  end.

(** Unit weights, with other attributes beside them. *)
Definition unit_weights_and_more : store :=
  [ {[ "weight"%string := PyInt 1; "proximity"%string := PyFloat 5 ]};
    {[ "weight"%string := PyInt 1; "capacity"%string := PyInt 7 ]} ].

(** The state of Dijkstra's loop, for what it reaches: a key is final or
    waits in the heap; final and seen nodes and the nodes of the heap are
    keys; the counters of the heap are distinct and below the next one; and
    the neighbours of a final node other than [cur] are keys. *)
Definition dijkstra_span (es : list (nat * nat * loc)) (cur : option nat)
    (st : dijkstra_state) : Prop :=
  (∀ k, k ∈ (paths st).*1 →
        dict_mem k (dist st) = true ∨ ∃ x, x ∈ fringe st ∧ x.2 = k) ∧
  (∀ v, dict_mem v (dist st) = true → v ∈ (paths st).*1) ∧
  (∀ u, dict_mem u (seen st) = true → u ∈ (paths st).*1) ∧
  (∀ x, x ∈ fringe st → x.2 ∈ (paths st).*1 ∧ x.1.2 < counter st) ∧
  NoDup ((λ x, x.1.2) <$> fringe st) ∧
  (∀ v, dict_mem v (dist st) = true → cur ≠ Some v →
        ∀ w, w ∈ (adj_items es v).*1 → w ∈ (paths st).*1).

(** Some sequence of edges of [G] leads from index [r] to index [b]. *)
Definition reaches {L : Type} `{EqDecision L} (G : Graph L) (r b : nat) : Prop :=
  ∃ p, head p = Some r ∧ last p = Some b ∧
       ∀ a c, consecutive p a c → is_edge G a c.

(** [q] is a walk from [r] to [b]. *)
Definition connects (es : list (nat * nat * loc)) (r b : nat) (q : list nat) : Prop :=
  walk es q ∧ head q = Some r ∧ last q = Some b.

(** The state of the breadth-first search, for path lengths: no path has
    more than [n] nodes, the next level holds the keys whose path has [n],
    no walk from [r] is shorter than the path reported for its end, and the
    end of every walk of fewer than [n] nodes is a key. *)
Definition bfs_opt (es : list (nat * nat * loc)) (r n : nat)
    (st : paths_dict * list nat) : Prop :=
  NoDup st.1.*1 ∧
  (∀ k p, (k, p) ∈ st.1 → length p ≤ n) ∧
  (∀ k, k ∈ st.2 → ∃ p, (k, p) ∈ st.1 ∧ length p = n) ∧
  (∀ k p, (k, p) ∈ st.1 → length p = n → k ∈ st.2) ∧
  (∀ k p q, (k, p) ∈ st.1 → connects es r k q → length p ≤ length q) ∧
  (∀ b q, connects es r b q → length q < n → b ∈ st.1.*1).

(** ** Reasoning about computations *)

Lemma bind_Ok {A B : Type} (m : M A) (k : A → M B) h b h' :
  bind m k h = (Ok b, h') →
  ∃ a h1, m h = (Ok a, h1) ∧ k a h1 = (Ok b, h').
Proof.
  unfold bind. destruct (m h) as [[a| |] h1]; intros Hk; try discriminate.
  eauto.
Qed.

Lemma bind_step {A B : Type} (m : M A) (k : A → M B) h a h1 :
  m h = (Ok a, h1) → bind m k h = k a h1.
Proof. unfold bind. by intros ->. Qed.

Lemma bind_raise {A B : Type} (m : M A) (k : A → M B) h e h1 :
  m h = (Raise e, h1) → bind m k h = (Raise e, h1).
Proof. unfold bind. by intros ->. Qed.

Lemma returns_fst (m : M matrix) h S : (m h).1 = Ok S → returns m h S.
Proof. unfold returns. destruct (m h) as [o h']. simpl. intros ->. by eexists. Qed.

Lemma raises_fst {A : Type} (m : M A) h e :
  (m h).1 = Raise e → ∃ h', m h = (Raise e, h').
Proof. destruct (m h) as [o h']. simpl. intros ->. by eexists. Qed.

Lemma preserves_ret {A : Type} (a : A) : preserves (ret a).
Proof. intros h. done. Qed.

Lemma preserves_lift {A : Type} (o : outcome A) : preserves (lift o).
Proof. intros h. done. Qed.

Lemma preserves_reading {A : Type} (f : store → outcome A) : preserves (reading f).
Proof. intros h. done. Qed.

Lemma preserves_raise {A : Type} (e : exn) : preserves (@raise A e).
Proof. intros h. done. Qed.

Lemma preserves_bind {A B : Type} (m : M A) (k : A → M B) :
  preserves m → (∀ a, preserves (k a)) → preserves (bind m k).
Proof.
  intros Hm Hk h. unfold bind. specialize (Hm h).
  destruct (m h) as [[a| |] h1]; simpl in *; try done.
  etrans; [exact Hm | apply Hk].
Qed.

Lemma preserves_for_acc {A S : Type} (xs : list A) (body : S → A → M S) acc :
  (∀ s x, preserves (body s x)) → preserves (for_acc xs body acc).
Proof.
  intros Hb. revert acc. induction xs as [|x xs IH]; intros acc; simpl.
  - apply preserves_ret.
  - apply preserves_bind; auto.
Qed.

(** ** The relabelled copy *)

Section RelabelFacts.
Context {L : Type} `{EqDecision L}.
Implicit Types (G : Graph L) (h : store).

Lemma map_M_copy_edge G es h :
  ∃ k, map_M (copy_edge G) es h = (Ok (copied_edges G (length h) es), h ++ k)
       ∧ length k = length es
       ∧ ∀ i e, es !! i = Some e → e.2 < length h →
                k !! i = Some (default ∅ (h !! e.2)).
Proof.
  revert h. induction es as [|[[u v] l] es IH]; intros h.
  - exists []. simpl. rewrite app_nil_r. split_and!; [done..|].
    intros i e Hi. by rewrite lookup_nil in Hi.
  - destruct (IH (h ++ [default ∅ (h !! l)])) as (k & Hk & Hlen & Hcont).
    exists (default ∅ (h !! l) :: k). split_and!.
    + cbn [map_M]. unfold copy_edge at 1, read, alloc, ret, bind. simpl.
      rewrite Hk. unfold ret. simpl.
      rewrite <- app_assoc. simpl. f_equal. unfold copied_edges. simpl.
      rewrite Nat.add_0_r. do 2 f_equal.
      apply imap_ext. intros i e _. simpl. rewrite length_app. simpl.
      f_equal. lia.
    + simpl. by rewrite Hlen.
    + intros [|i] e Hi Hl; simpl in *.
      * by inversion Hi.
      * rewrite (Hcont i e Hi).
        -- by rewrite lookup_app_l.
        -- rewrite length_app. simpl. lia.
Qed.

Lemma convert_spec G h :
  ∃ k, convert_node_labels_to_integers G h =
         (Ok (mkGraph (is_directed G) (is_multigraph G)
                      (map (relabel G) (nodes G))
                      (copied_edges G (length h) (edges G))), h ++ k)
       ∧ length k = length (edges G)
       ∧ ∀ i e, edges G !! i = Some e → e.2 < length h →
                k !! i = Some (default ∅ (h !! e.2)).
Proof.
  destruct (map_M_copy_edge G (edges G) h) as (k & Hk & Hlen & Hcont).
  exists k. split_and!; [|done..].
  unfold convert_node_labels_to_integers. by rewrite (bind_step _ _ _ _ _ Hk).
Qed.

Lemma preserves_convert G : preserves (convert_node_labels_to_integers G).
Proof.
  intros h. destruct (convert_spec G h) as (k & -> & _). simpl.
  by apply prefix_app_r.
Qed.

Lemma preserves_not_implemented_for G : preserves (not_implemented_for G).
Proof.
  intros h. unfold not_implemented_for.
  destruct (is_directed G), (is_multigraph G); done.
Qed.

(** Locations of the copy are fresh. *)
Lemma copied_edges_fresh G base es a b l :
  (a, b, l) ∈ copied_edges G base es → base ≤ l < base + length es.
Proof.
  unfold copied_edges. intros Hin.
  apply list_elem_of_lookup in Hin as [i Hi].
  rewrite list_lookup_imap in Hi.
  destruct (es !! i) as [e|] eqn:He; simpl in Hi; [|done].
  inversion Hi; subst. apply lookup_lt_Some in He. lia.
Qed.

Lemma copied_edges_is_edge G base a b l :
  (a, b, l) ∈ copied_edges G base (edges G) → is_edge G a b.
Proof.
  unfold copied_edges. intros Hin.
  apply list_elem_of_lookup in Hin as [i Hi].
  rewrite list_lookup_imap in Hi.
  destruct (edges G !! i) as [[[u v] l']|] eqn:He; simpl in Hi; [|done].
  inversion Hi; subst. exists u, v, l'. split; [|by left].
  apply list_elem_of_lookup. eauto.
Qed.

(** Under [NoDup], the mapping sends the [i]-th node to [i]. *)
Lemma mapping_get_zip (x : L) (xs : list L) (start dflt : nat) i :
  NoDup xs → xs !! i = Some x →
  mapping_get x (zip xs (seq start (length xs))) dflt = start + i.
Proof.
  intros Hnd. revert start i. induction Hnd as [|y ys Hy Hnd IH]; intros start i Hi.
  - by rewrite lookup_nil in Hi.
  - simpl. destruct i as [|i]; simpl in Hi.
    + inversion Hi; subst. rewrite decide_True by done. lia.
    + rewrite decide_False.
      * rewrite (IH (S start) i Hi). lia.
      * intros ->. apply Hy. apply list_elem_of_lookup. eauto.
Qed.

Lemma relabel_lookup G i x :
  NoDup (nodes G) → nodes G !! i = Some x → relabel G x = i.
Proof.
  intros Hnd Hi. unfold relabel, node_mapping, order.
  by rewrite (mapping_get_zip x (nodes G) 0 _ i Hnd Hi).
Qed.

Lemma relabel_nodes G :
  NoDup (nodes G) → map (relabel G) (nodes G) = seq 0 (order G).
Proof.
  intros Hnd. apply list_eq. intros i. rewrite list_lookup_fmap.
  destruct (nodes G !! i) as [x|] eqn:Hi; simpl.
  - rewrite (relabel_lookup G i x Hnd Hi).
    symmetry. apply lookup_seq. split; [done|]. by apply lookup_lt_Some in Hi.
  - symmetry. apply lookup_ge_None. rewrite length_seq.
    by apply lookup_ge_None in Hi.
Qed.
End RelabelFacts.

(** ** The caller's dictionaries are not written *)

Lemma keeps_pure {A : Type} n (m : M A) :
  (∀ h, (m h).2 = h) → keeps n m.
Proof. intros Hm h Hn. by rewrite Hm. Qed.

Lemma keeps_bind {A B : Type} n (m : M A) (k : A → M B) :
  keeps n m → (∀ a, keeps n (k a)) → keeps n (bind m k).
Proof.
  intros Hm Hk h Hn. unfold bind. destruct (Hm h Hn) as [Hlen Htake].
  destruct (m h) as [[a| |] h1]; simpl in *; try done.
  destruct (Hk a h1 Hlen) as [Hlen' Htake']. split; [done|congruence].
Qed.

Lemma keeps_for_each {A : Type} n (xs : list A) (body : A → M unit) :
  (∀ x, x ∈ xs → keeps n (body x)) → keeps n (for_each xs body).
Proof.
  induction xs as [|x xs IH]; intros Hb; simpl.
  - by apply keeps_pure.
  - apply keeps_bind; [apply Hb; left|].
    intros _. apply IH. intros y Hy. apply Hb. by right.
Qed.

Lemma keeps_write n l d : n ≤ l → keeps n (write l d).
Proof.
  intros Hl h Hn. unfold write. simpl. rewrite length_insert. split; [done|].
  by rewrite take_insert_ge.
Qed.

Lemma keeps_add_proximity n weight a b l :
  n ≤ l → keeps n (Weighted.add_proximity weight (a, b, l)).
Proof.
  intros Hl. unfold Weighted.add_proximity. apply keeps_bind.
  - by apply keeps_pure.
  - intros d. destruct (d !! weight) as [w|]; [|by apply keeps_pure].
    apply keeps_bind; [by apply keeps_pure|]. intros p. by apply keeps_write.
Qed.

Lemma keeps_prefix {A : Type} (m : M A) h k :
  keeps (length h) m → h `prefix_of` (m (h ++ k)).2.
Proof.
  intros Hm. destruct (Hm (h ++ k)) as [Hlen Htake].
  { rewrite length_app. lia. }
  rewrite take_app_length in Htake. rewrite <- Htake at 1. apply prefix_take.
Qed.

Section Frame.
Context {L : Type} `{EqDecision L}.
Implicit Types (G : Graph L) (h : store).

Lemma preserves_SPT_weighted G r weight :
  preserves (Weighted._SPT G r weight).
Proof.
  intros h. unfold Weighted._SPT.
  unfold bind at 1. pose proof (preserves_not_implemented_for G h) as Hn.
  destruct (not_implemented_for G h) as [[[]| |] h0] eqn:Hni; simpl in *; try done.
  assert (h0 = h) as ->.
  { unfold not_implemented_for in Hni.
    destruct (is_directed G), (is_multigraph G); by inversion Hni. }
  destruct (convert_spec G h) as (k & Hc & Hlen & _).
  rewrite (bind_step _ _ _ _ _ Hc). simpl.
  apply (keeps_prefix (A := matrix)).
  apply keeps_bind.
  - apply keeps_for_each. intros [[a b] l] Hin.
    apply keeps_add_proximity. by apply copied_edges_fresh in Hin as [? _].
  - intros _. apply keeps_bind; [by apply keeps_pure|].
    intros ps. by apply keeps_pure.
Qed.

Lemma preserves_SPT_unweighted G r : preserves (Unweighted._SPT G r).
Proof.
  unfold Unweighted._SPT.
  apply preserves_bind; [apply preserves_not_implemented_for|]. intros _.
  apply preserves_bind; [apply preserves_convert|]. intros Gn.
  apply preserves_bind; [apply preserves_lift|]. intros ps.
  apply preserves_lift.
Qed.

Lemma preserves_salience_weighted G weight :
  preserves (Weighted.salience G weight).
Proof.
  unfold Weighted.salience, Weighted.salience_by.
  apply preserves_bind; [apply preserves_convert|]. intros Gn.
  apply preserves_bind; [|intros; apply preserves_lift].
  apply preserves_for_acc. intros S n.
  apply preserves_bind; [apply preserves_SPT_weighted|].
  intros; apply preserves_ret.
Qed.

Lemma preserves_salience_unweighted G : preserves (Unweighted.salience G).
Proof.
  unfold Unweighted.salience, Unweighted.salience_by.
  apply preserves_bind; [apply preserves_convert|]. intros Gn.
  apply preserves_bind; [|intros; apply preserves_lift].
  apply preserves_for_acc. intros S n.
  apply preserves_bind; [apply preserves_SPT_unweighted|].
  intros; apply preserves_ret.
Qed.
End Frame.

(** ** Matrices *)

Lemma entry_zeros n m i j x : entry (zeros n m) i j = Some x → x = 0%Q.
Proof.
  unfold entry, zeros. intros Hx.
  destruct (replicate n (replicate m 0%Q) !! i) as [row|] eqn:Hrow; simpl in Hx; [|done].
  apply lookup_replicate in Hrow as [-> _].
  by apply lookup_replicate in Hx as [-> _].
Qed.

Lemma entry_set_entry T i j x T' a b :
  set_entry T i j x = Ok T' →
  entry T' a b = if decide (a = i ∧ b = j) then Some x else entry T a b.
Proof.
  unfold set_entry, entry.
  destruct (T !! i) as [row|] eqn:Hrow; [|done].
  destruct (row !! j) as [y|] eqn:Hy; [|done].
  intros [= <-].
  destruct (decide (a = i)) as [->|Hai].
  - rewrite list_lookup_insert_eq by (by eapply lookup_lt_Some). simpl.
    rewrite Hrow. simpl.
    destruct (decide (b = j)) as [->|Hbj].
    + rewrite decide_True by done.
      rewrite list_lookup_insert_eq by (by eapply lookup_lt_Some). done.
    + rewrite decide_False by tauto. by rewrite list_lookup_insert_ne.
  - rewrite decide_False by tauto. by rewrite list_lookup_insert_ne.
Qed.

Lemma entry_madd S T i j :
  entry (madd S T) i j =
    match entry S i j, entry T i j with
    | Some s, Some t => Some (s + t)%Q
    | _, _ => None
    end.
Proof.
  unfold entry, madd. rewrite lookup_zip_with.
  destruct (S !! i) as [rs|]; simpl; [|done].
  destruct (T !! i) as [rt|]; simpl.
  - rewrite lookup_zip_with.
    destruct (rs !! j), (rt !! j); done.
  - by destruct (rs !! j).
Qed.

Lemma scale_div_Ok S N S' : scale_div S N = Ok S' → S' = quotients S N.
Proof.
  unfold scale_div. destruct ((N =? 0) && has_entry S); [done|]. by intros [= <-].
Qed.

Lemma scale_div_nonzero S N : N ≠ 0 → scale_div S N = Ok (quotients S N).
Proof.
  intros HN. unfold scale_div. apply Nat.eqb_neq in HN. by rewrite HN.
Qed.

Lemma entry_quotients S N i j :
  entry (quotients S N) i j =
    (λ x, (1 * x / inject_Z (Z.of_nat N))%Q) <$> entry S i j.
Proof.
  unfold entry, quotients. rewrite list_lookup_fmap.
  destruct (S !! i) as [row|]; simpl; [|done].
  by rewrite list_lookup_fmap.
Qed.

(** ** What the fill loop writes *)

Lemma consecutive_cons p u a b : consecutive p a b → consecutive (u :: p) a b.
Proof. intros (p1 & p2 & ->). by exists (u :: p1), p2. Qed.

Lemma consecutive_head u v p : consecutive (u :: v :: p) u v.
Proof. by exists [], p. Qed.

Lemma mark_path_entry T p T' a b :
  mark_path T p = Ok T' →
  entry T' a b = entry T a b ∨ (entry T' a b = Some 1%Q ∧ consecutive p a b).
Proof.
  revert T. induction p as [|u p IH]; intros T; [by intros [= <-]; left|].
  destruct p as [|v p]; [by intros [= <-]; left|].
  cbn [mark_path].
  destruct (set_entry T u v 1%Q) as [T1| |] eqn:Hset; simpl; try done.
  intros Hrest. destruct (IH T1 Hrest) as [Heq|[H1 Hc]].
  - rewrite Heq, (entry_set_entry _ _ _ _ _ a b Hset).
    case_decide as Hab; [|by left].
    destruct Hab as [-> ->]. right. split; [done|apply consecutive_head].
  - right. split; [done|by apply consecutive_cons].
Qed.

Lemma mark_paths_entry T ps T' a b :
  mark_paths T ps = Ok T' →
  entry T' a b = entry T a b ∨
  (entry T' a b = Some 1%Q ∧ ∃ k p, (k, p) ∈ ps ∧ consecutive p a b).
Proof.
  revert T. induction ps as [|[k p] ps IH]; intros T; [by intros [= <-]; left|].
  cbn [mark_paths].
  destruct (mark_path T p) as [T1| |] eqn:Hp; simpl; try done.
  intros Hrest. destruct (IH T1 Hrest) as [Heq|[H1 (k' & p' & Hin & Hc)]].
  - rewrite Heq. destruct (mark_path_entry _ _ _ a b Hp) as [Heq'|[H1 Hc]].
    + by left.
    + right. split; [done|]. exists k, p. split; [left|done].
  - right. split; [done|]. exists k', p'. split; [by right|done].
Qed.

(** The matrix the fill loop returns is binary, and a one stands between two
    consecutive nodes of a reported path. *)
Lemma fill_entry n ps T a b x :
  mark_paths (zeros n n) ps = Ok T → entry T a b = Some x →
  x = 0%Q ∨ (x = 1%Q ∧ ∃ k p, (k, p) ∈ ps ∧ consecutive p a b).
Proof.
  intros Hfill Hx. destruct (mark_paths_entry _ _ _ a b Hfill) as [Heq|[H1 Hc]].
  - left. rewrite Heq in Hx. by apply entry_zeros in Hx.
  - right. split; [congruence|done].
Qed.

(** ** Reported paths walk along edges *)

Lemma adj_items_elem es v u l :
  (u, l) ∈ adj_items es v → (v, u, l) ∈ es ∨ (u, v, l) ∈ es.
Proof.
  induction es as [|[[a b] l'] es IH]; simpl; [by intros ?%elem_of_nil|].
  repeat case_decide; subst.
  - intros [[= -> ->]|Hin]%elem_of_cons; [left; left|].
    destruct (IH Hin); [left|right]; by right.
  - intros [[= -> ->]|Hin]%elem_of_cons; [right; left|].
    destruct (IH Hin); [left|right]; by right.
  - intros Hin. destruct (IH Hin); [left|right]; by right.
Qed.

Lemma adj_items_adjacent es v u l : (u, l) ∈ adj_items es v → adjacent es v u.
Proof. intros Hin. exists l. by apply adj_items_elem. Qed.

Lemma adj_adjacent Gn v u : u ∈ adj Gn v → adjacent (edges Gn) v u.
Proof.
  unfold adj. intros ([u' l] & -> & Hin)%list_elem_of_fmap.
  by eapply adj_items_adjacent.
Qed.

Lemma consecutive_snoc p u a b :
  consecutive (p ++ [u]) a b → consecutive p a b ∨ (last p = Some a ∧ b = u).
Proof.
  intros (p1 & p2 & Heq).
  destruct p2 as [|z p2 _] using rev_ind.
  - right. change (p1 ++ [a; b]) with (p1 ++ [a] ++ [b]) in Heq.
    rewrite app_assoc in Heq. apply app_inj_tail in Heq as [-> ->].
    split; [apply last_snoc|done].
  - left. change (p1 ++ a :: b :: p2 ++ [z]) with (p1 ++ (a :: b :: p2) ++ [z]) in Heq.
    rewrite app_assoc in Heq. apply app_inj_tail in Heq as [-> _].
    by exists p1, p2.
Qed.

Lemma walk_snoc es p v u :
  walk es p → last p = Some v → adjacent es v u → walk es (p ++ [u]).
Proof.
  intros Hw Hlast Hadj a b [Hc|[Ha ->]]%consecutive_snoc; [by apply Hw|].
  rewrite Hlast in Ha. by inversion Ha; subst.
Qed.

Lemma walk_singleton es s : walk es [s].
Proof.
  intros a b (p1 & p2 & Heq). apply (f_equal length) in Heq.
  rewrite length_app in Heq. simpl in Heq. lia.
Qed.

Lemma dict_get_elem {V : Type} k (v : V) d : dict_get k d = Some v → (k, v) ∈ d.
Proof.
  induction d as [|[k' v'] d IH]; simpl; [done|].
  case_decide; subst.
  - intros [= ->]. left.
  - intros Hin. right. by apply IH.
Qed.

Lemma dict_set_elem {V : Type} k (v : V) d k' v' :
  (k', v') ∈ dict_set k v d → (k', v') = (k, v) ∨ (k', v') ∈ d.
Proof.
  induction d as [|[k1 v1] d IH]; simpl.
  - intros ->%list_elem_of_singleton. by left.
  - case_decide; subst.
    + intros [->|Hin]%elem_of_cons; [by left|right; by right].
    + intros [->|Hin]%elem_of_cons; [right; left|].
      destruct (IH Hin); [by left|right; by right].
Qed.

Lemma good_paths_set es ps pv v u :
  good_paths es ps → walk es pv → last pv = Some v → adjacent es v u →
  good_paths es (dict_set u (pv ++ [u]) ps).
Proof.
  intros Hg Hw Hlast Hadj k p [[= -> ->]|Hin]%dict_set_elem; [|by apply Hg].
  split; [by eapply walk_snoc|apply last_snoc].
Qed.

Lemma good_paths_init es s : good_paths es [(s, [s])].
Proof.
  intros k p [= -> ->]%list_elem_of_singleton. split; [apply walk_singleton|done].
Qed.

(** *** Breadth-first search *)

Lemma bfs_visit_good es pv v ws st :
  good_paths es st.1 → walk es pv → last pv = Some v →
  (∀ w, w ∈ ws → adjacent es v w) →
  good_paths es (bfs_visit pv ws st).1.
Proof.
  intros Hg Hw Hlast. revert st Hg.
  induction ws as [|w ws IH]; intros [ps nl] Hg Hadj; simpl; [done|].
  destruct (dict_mem w ps).
  - apply IH; [done|]. intros w' Hw'. apply Hadj. by right.
  - apply IH.
    + simpl. eapply good_paths_set; eauto. apply Hadj. left.
    + intros w' Hw'. apply Hadj. by right.
Qed.

Lemma bfs_level_good Gn level st st' :
  bfs_level Gn level st = Ok st' →
  good_paths (edges Gn) st.1 → good_paths (edges Gn) st'.1.
Proof.
  revert st. induction level as [|v vs IH]; intros st; simpl.
  - by intros [= <-].
  - destruct (dict_get v st.1) as [pv|] eqn:Hpv; [|done].
    intros Hrest Hg. apply (IH _ Hrest).
    apply dict_get_elem, Hg in Hpv as [Hw Hlast].
    eapply bfs_visit_good; eauto. intros w. apply adj_adjacent.
Qed.

Lemma _single_shortest_path_good fuel Gn nextlevel ps ps' :
  _single_shortest_path fuel Gn nextlevel ps = Ok ps' →
  good_paths (edges Gn) ps → good_paths (edges Gn) ps'.
Proof.
  revert nextlevel ps. induction fuel as [|fuel IH]; intros nextlevel ps.
  - destruct nextlevel; simpl; [by intros [= <-]|done].
  - destruct nextlevel as [|v vs]; simpl; [by intros [= <-]|].
    destruct (dict_get v ps) as [pv|] eqn:Hpv; simpl; [|done].
    destruct (bfs_level Gn vs (bfs_visit pv (adj Gn v) (ps, []))) as [st| |] eqn:Hl;
      simpl; try done.
    intros Hrest Hg. apply (IH _ _ Hrest).
    apply (bfs_level_good _ _ _ _ Hl).
    apply dict_get_elem, Hg in Hpv as [Hw Hlast].
    eapply bfs_visit_good; eauto. intros w. apply adj_adjacent.
Qed.

Lemma single_source_shortest_path_good Gn s ps :
  single_source_shortest_path Gn s = Ok ps → good_paths (edges Gn) ps.
Proof.
  unfold single_source_shortest_path. case_decide; [|done].
  intros Hbfs. apply (_single_shortest_path_good _ _ _ _ _ Hbfs), good_paths_init.
Qed.

(** *** Dijkstra *)

Lemma relax_good es h key v d st ue st' :
  relax h key v d st ue = Ok st' → adjacent es v ue.1 →
  good_paths es (paths st) → good_paths es (paths st').
Proof.
  destruct ue as [u l]. unfold relax. simpl. intros Hr Hadj Hg.
  assert (∀ st'', match dict_get v (paths st) with
          | Some pv =>
              Ok (mkDijkstra (dist st) (dict_set u (d + weight_function key (default ∅ (h !! l)))%Q (seen st))
                    (fringe st ++ [((d + weight_function key (default ∅ (h !! l)))%Q, counter st, u)])
                    (S (counter st)) (dict_set u (pv ++ [u]) (paths st)))
          | None => Raise KeyError
          end = Ok st'' → good_paths es (paths st'')) as Hpush.
  { intros st''. destruct (dict_get v (paths st)) as [pv|] eqn:Hpv; [|done].
    intros [= <-]. simpl. apply dict_get_elem, Hg in Hpv as [Hw Hlast].
    by eapply good_paths_set. }
  destruct (dict_get u (dist st)) as [ud|].
  { destruct (Qltb _ ud); [done|]. by inversion Hr; subst. }
  destruct (dict_get u (seen st)) as [su|]; [|by apply Hpush].
  destruct (Qltb _ su); [by apply Hpush|]. by inversion Hr; subst.
Qed.

Lemma relax_all_good es h key v d ues st st' :
  relax_all h key v d ues st = Ok st' →
  (∀ ue, ue ∈ ues → adjacent es v ue.1) →
  good_paths es (paths st) → good_paths es (paths st').
Proof.
  revert st. induction ues as [|ue ues IH]; intros st; simpl.
  - by intros [= <-].
  - destruct (relax h key v d st ue) as [st1| |] eqn:Hr; simpl; try done.
    intros Hrest Hadj Hg. apply (IH _ Hrest).
    + intros ue' Hin. apply Hadj. by right.
    + eapply relax_good; eauto. apply Hadj. left.
Qed.

Lemma _dijkstra_multisource_good fuel Gn h key st ps :
  _dijkstra_multisource fuel Gn h key st = Ok ps →
  good_paths (edges Gn) (paths st) → good_paths (edges Gn) ps.
Proof.
  revert st. induction fuel as [|fuel IH]; intros st; simpl.
  - destruct (heappop (fringe st)) as [[[[d c] v] fr]|]; [done|by intros [= <-]].
  - destruct (heappop (fringe st)) as [[[[d c] v] fr]|]; [|by intros [= <-]].
    simpl. destruct (dict_mem v (dist st)).
    + intros Hrest Hg. by apply (IH _ Hrest).
    + destruct (relax_all _ _ _ _ _ _) as [st1| |] eqn:Hr; simpl; try done.
      intros Hrest Hg. apply (IH _ Hrest).
      eapply relax_all_good; eauto.
      intros [u l] Hin. by eapply adj_items_adjacent.
Qed.

Lemma single_source_dijkstra_path_good Gn h s key ps :
  single_source_dijkstra_path Gn h s key = Ok ps → good_paths (edges Gn) ps.
Proof.
  unfold single_source_dijkstra_path. case_decide; [|done].
  intros Hd. apply (_dijkstra_multisource_good _ _ _ _ _ _ Hd). simpl.
  apply good_paths_init.
Qed.

(** ** The builder returns a binary matrix supported on edges *)

Lemma for_acc_inv {A S : Type} (I : nat → S → Prop) (xs : list A)
    (body : S → A → M S) acc h r h' :
  for_acc xs body acc h = (Ok r, h') →
  I 0 acc →
  (∀ i s x h1 s' h2, I i s → body s x h1 = (Ok s', h2) → I (Datatypes.S i) s') →
  I (length xs) r.
Proof.
  revert I acc h. induction xs as [|x xs IH]; intros I acc h; simpl.
  - by intros [= <- <-].
  - intros (acc' & h1 & Hb & Hrest)%bind_Ok H0 Hstep.
    apply (IH (λ i, I (Datatypes.S i)) acc' h1 Hrest); eauto.
Qed.

Section Builder.
Context {L : Type} `{EqDecision L}.
Implicit Types (G : Graph L) (h : store).

Lemma is_edge_sym G a b : is_edge G a b → is_edge G b a.
Proof. intros (u & v & l & Hin & Hor). exists u, v, l. tauto. Qed.

Lemma adjacent_copied_is_edge G base a b :
  adjacent (copied_edges G base (edges G)) a b → is_edge G a b.
Proof.
  intros [l [Hin|Hin]].
  - by eapply copied_edges_is_edge.
  - apply is_edge_sym. by eapply copied_edges_is_edge.
Qed.

Lemma not_implemented_for_Ok G h u h' :
  not_implemented_for G h = (Ok u, h') →
  is_directed G = false ∧ is_multigraph G = false ∧ h' = h.
Proof.
  unfold not_implemented_for.
  destruct (is_directed G), (is_multigraph G); try done.
  by intros [= <- <-].
Qed.

(** A successful weighted call went through the fill loop with the paths
    Dijkstra reported on the relabelled copy. *)
Lemma SPT_weighted_Ok G r weight h T h' :
  Weighted._SPT G r weight h = (Ok T, h') →
  ∃ Gn h1 ps,
    nodes Gn = map (relabel G) (nodes G) ∧
    edges Gn = copied_edges G (length h) (edges G) ∧
    single_source_dijkstra_path Gn h1 r "proximity" = Ok ps ∧
    mark_paths (zeros (order G) (order G)) ps = Ok T.
Proof.
  unfold Weighted._SPT.
  intros ([] & h0 & (_ & _ & ->)%not_implemented_for_Ok & Hrest)%bind_Ok.
  destruct (convert_spec G h) as (k & Hc & _).
  rewrite (bind_step _ _ _ _ _ Hc) in Hrest.
  apply bind_Ok in Hrest as ([] & h1 & _ & Hrest).
  apply bind_Ok in Hrest as (ps & h2 & Hps & Hfill).
  unfold reading in Hps. unfold lift in Hfill.
  injection Hps as Hps <-. injection Hfill as Hfill _.
  eexists _, h1, ps. split_and!; [..|exact Hps|]; [done..|].
  unfold order in *. simpl in Hfill. by rewrite length_map in Hfill.
Qed.

Lemma SPT_unweighted_Ok G r h T h' :
  Unweighted._SPT G r h = (Ok T, h') →
  ∃ Gn ps,
    nodes Gn = map (relabel G) (nodes G) ∧
    edges Gn = copied_edges G (length h) (edges G) ∧
    single_source_shortest_path Gn r = Ok ps ∧
    mark_paths (zeros (order G) (order G)) ps = Ok T.
Proof.
  unfold Unweighted._SPT.
  intros ([] & h0 & (_ & _ & ->)%not_implemented_for_Ok & Hrest)%bind_Ok.
  destruct (convert_spec G h) as (k & Hc & _).
  rewrite (bind_step _ _ _ _ _ Hc) in Hrest.
  apply bind_Ok in Hrest as (ps & h2 & Hps & Hfill).
  unfold lift in Hps, Hfill.
  injection Hps as Hps <-. injection Hfill as Hfill _.
  eexists _, ps. split_and!; [..|exact Hps|]; [done..|].
  unfold order in *. simpl in Hfill. by rewrite length_map in Hfill.
Qed.

Lemma good_paths_is_edge G base ps a b :
  good_paths (copied_edges G base (edges G)) ps →
  (∃ k p, (k, p) ∈ ps ∧ consecutive p a b) → is_edge G a b.
Proof.
  intros Hg (k & p & Hin & Hc). eapply adjacent_copied_is_edge.
  by apply (Hg k p Hin).
Qed.

(** Every entry of a shortest-path tree is 0 or 1, and a 1 sits on an edge
    of the graph. *)
Lemma SPT_weighted_entry G r weight h T h' a b x :
  Weighted._SPT G r weight h = (Ok T, h') → entry T a b = Some x →
  x = 0%Q ∨ (x = 1%Q ∧ is_edge G a b).
Proof.
  intros (Gn & h1 & ps & _ & Hes & Hps & Hfill)%SPT_weighted_Ok Hx.
  destruct (fill_entry _ _ _ _ _ _ Hfill Hx) as [->|[-> Hc]]; [by left|right].
  split; [done|]. apply single_source_dijkstra_path_good in Hps.
  rewrite Hes in Hps. by eapply good_paths_is_edge.
Qed.

Lemma SPT_unweighted_entry G r h T h' a b x :
  Unweighted._SPT G r h = (Ok T, h') → entry T a b = Some x →
  x = 0%Q ∨ (x = 1%Q ∧ is_edge G a b).
Proof.
  intros (Gn & ps & _ & Hes & Hps & Hfill)%SPT_unweighted_Ok Hx.
  destruct (fill_entry _ _ _ _ _ _ Hfill Hx) as [->|[-> Hc]]; [by left|right].
  split; [done|]. apply single_source_shortest_path_good in Hps.
  rewrite Hes in Hps. by eapply good_paths_is_edge.
Qed.
End Builder.

(** ** The aggregator *)

Lemma Qnat_S n : (Qnat (S n) == Qnat n + 1)%Q.
Proof.
  unfold Qnat. rewrite Nat2Z.inj_succ. unfold Z.succ.
  by rewrite inject_Z_plus.
Qed.

Lemma Qnat_pos n : 0 < n → (0 < Qnat n)%Q.
Proof.
  intros Hn. unfold Qnat. change 0%Q with (inject_Z 0).
  rewrite <- Zlt_Qlt. lia.
Qed.

Lemma count_step (s t : Q) k :
  (0 <= s <= Qnat k)%Q → t = 0%Q ∨ t = 1%Q → (0 <= s + t <= Qnat (S k))%Q.
Proof.
  intros [Hlo Hhi] Ht. rewrite Qnat_S. destruct Ht as [-> | ->]; lra.
Qed.

Lemma average_range (s : Q) N :
  (0 <= s <= Qnat N)%Q → (0 <= 1 * s / Qnat N <= 1)%Q.
Proof.
  intros [Hlo Hhi]. destruct N as [|N].
  - assert (s == 0)%Q as -> by (apply Qle_antisym; [exact Hhi|exact Hlo]).
    split; by vm_compute.
  - pose proof (Qnat_pos (S N) ltac:(lia)) as Hpos. split.
    + apply Qle_shift_div_l; [done|]. lra.
    + apply Qle_shift_div_r; [done|]. lra.
Qed.

Lemma average_zero (s : Q) N : (s == 0)%Q → (1 * s / Qnat N == 0)%Q.
Proof. intros ->. unfold Qdiv. ring. Qed.

(** The loop [for n in Gn.nodes(): S = S + _SPT(G, n)], for any builder whose
    matrices are binary and supported on [P]. *)
Lemma accumulate_entries (spt : nat → M matrix) (P : nat → nat → Prop)
    (ns : list nat) (S0 S : matrix) h h' :
  (∀ n h1 T h2 a b x, spt n h1 = (Ok T, h2) → entry T a b = Some x →
                      x = 0%Q ∨ (x = 1%Q ∧ P a b)) →
  (∀ a b x, entry S0 a b = Some x → x = 0%Q) →
  for_acc ns (λ S n, T <- spt n ;; ret (madd S T)) S0 h = (Ok S, h') →
  ∀ a b x, entry S a b = Some x →
    (0 <= x <= Qnat (length ns))%Q ∧ (¬ P a b → (x == 0)%Q).
Proof.
  intros Hspt H0 Hloop.
  apply (for_acc_inv
    (λ k S, ∀ a b x, entry S a b = Some x →
              (0 <= x <= Qnat k)%Q ∧ (¬ P a b → (x == 0)%Q)) _ _ _ _ _ _ Hloop).
  - intros a b x ->%H0. split; [by vm_compute|done].
  - intros k S1 n h1 S2 h2 IH (T & h3 & HT & Hret)%bind_Ok a b x Hx.
    injection Hret as <- _. rewrite entry_madd in Hx.
    destruct (entry S1 a b) as [s|] eqn:Hs; [|done].
    destruct (entry T a b) as [t|] eqn:Ht; [|done].
    injection Hx as <-.
    destruct (IH a b s Hs) as [Hrange Hzero].
    pose proof (Hspt _ _ _ _ _ _ _ HT Ht) as Hbin. split.
    + apply count_step; [done|tauto].
    + intros HnP. rewrite (Hzero HnP). destruct Hbin as [->|[_ ?]]; [done|tauto].
Qed.

Section Aggregator.
Context {L : Type} `{EqDecision L}.
Implicit Types (G : Graph L) (h : store).

Lemma salience_weighted_Ok G weight h S h' :
  Weighted.salience G weight h = (Ok S, h') →
  ∃ ns S1 h1, length ns = order G ∧
    for_acc ns (λ S n, T <- Weighted._SPT G n weight ;; ret (madd S T))
            (zeros (order G) (order G)) h1 = (Ok S1, h') ∧
    S = quotients S1 (order G).
Proof.
  unfold Weighted.salience, Weighted.salience_by.
  destruct (convert_spec G h) as (k & Hc & _).
  rewrite (bind_step _ _ _ _ _ Hc).
  intros (S1 & h2 & Hloop & Hret)%bind_Ok. unfold lift in Hret.
  injection Hret as Hdiv <-. apply scale_div_Ok in Hdiv as ->.
  eexists _, S1, _. split; [|split; [exact Hloop|done]].
  simpl. unfold order. by rewrite length_map.
Qed.

Lemma salience_unweighted_Ok G h S h' :
  Unweighted.salience G h = (Ok S, h') →
  ∃ ns S1 h1, length ns = order G ∧
    for_acc ns (λ S n, T <- Unweighted._SPT G n ;; ret (madd S T))
            (zeros (order G) (order G)) h1 = (Ok S1, h') ∧
    S = quotients S1 (order G).
Proof.
  unfold Unweighted.salience, Unweighted.salience_by.
  destruct (convert_spec G h) as (k & Hc & _).
  rewrite (bind_step _ _ _ _ _ Hc).
  intros (S1 & h2 & Hloop & Hret)%bind_Ok. unfold lift in Hret.
  injection Hret as Hdiv <-. apply scale_div_Ok in Hdiv as ->.
  eexists _, S1, _. split; [|split; [exact Hloop|done]].
  simpl. unfold order. by rewrite length_map.
Qed.

(** Every entry of a returned salience matrix is an average of zeros and
    ones, and is zero off the edges. *)
Lemma salience_entries G weight h S a b x :
  returns (Weighted.salience G weight) h S ∨ returns (Unweighted.salience G) h S →
  entry S a b = Some x →
  (0 <= x <= 1)%Q ∧ (¬ is_edge G a b → (x == 0)%Q).
Proof.
  intros Hret Hx.
  assert (∃ S1 y, entry S1 a b = Some y ∧ x = (1 * y / Qnat (order G))%Q ∧
            (0 <= y <= Qnat (order G))%Q ∧ (¬ is_edge G a b → (y == 0)%Q))
    as (S1 & y & Hy & -> & Hrange & Hzero).
  { destruct Hret as [[h' Hs]|[h' Hs]].
    - apply salience_weighted_Ok in Hs as (ns & S1 & h1 & Hlen & Hloop & ->).
      rewrite entry_quotients in Hx.
      destruct (entry S1 a b) as [y|] eqn:Hy; [|done]. injection Hx as <-.
      exists S1, y. split; [done|]. split; [reflexivity|].
      rewrite <- Hlen.
      eapply (accumulate_entries _ (is_edge G)); [| |exact Hloop|exact Hy].
      + intros n h2 T h3 a' b' x' HT Hx'.
        exact (SPT_weighted_entry _ _ _ _ _ _ _ _ _ HT Hx').
      + apply entry_zeros.
    - apply salience_unweighted_Ok in Hs as (ns & S1 & h1 & Hlen & Hloop & ->).
      rewrite entry_quotients in Hx.
      destruct (entry S1 a b) as [y|] eqn:Hy; [|done]. injection Hx as <-.
      exists S1, y. split; [done|]. split; [reflexivity|].
      rewrite <- Hlen.
      eapply (accumulate_entries _ (is_edge G)); [| |exact Hloop|exact Hy].
      + intros n h2 T h3 a' b' x' HT Hx'.
        exact (SPT_unweighted_entry _ _ _ _ _ _ _ _ HT Hx').
      + apply entry_zeros. }
  split; [by apply average_range|]. intros Hne. by apply average_zero, Hzero.
Qed.
End Aggregator.

(** ** Graphs of order 0 and 1 *)

Section Small.
Context {L : Type} `{EqDecision L}.
Implicit Types (G : Graph L) (h : store).

(** On a graph without nodes the call is the division of the empty array
    by zero, whatever the division does with it. *)
Lemma salience_by_order_0 divide G weight h :
  order G = 0 →
  (∃ h', Weighted.salience_by divide G weight h = (divide [] 0, h')) ∧
  (∃ h', Unweighted.salience_by divide G h = (divide [] 0, h')).
Proof.
  intros HN. unfold Weighted.salience_by, Unweighted.salience_by.
  destruct (convert_spec G h) as (k & Hc & _).
  rewrite !(bind_step _ _ _ _ _ Hc). rewrite HN.
  apply length_zero_iff_nil in HN. rewrite HN. simpl. eauto.
Qed.

Lemma salience_order_0 G weight h :
  order G = 0 →
  returns (Weighted.salience G weight) h [] ∧ returns (Unweighted.salience G) h [].
Proof.
  intros HN. unfold returns, Weighted.salience, Unweighted.salience.
  destruct (salience_by_order_0 scale_div G weight h HN) as [[h1 ->] [h2 ->]].
  split; by eexists.
Qed.

Lemma simple_order_1 G :
  simple G → order G = 1 → ∃ x, nodes G = [x] ∧ edges G = [].
Proof.
  intros (_ & _ & [_ Hends] & Hloop) HN. unfold order in HN.
  destruct (nodes G) as [|x [|y ns]] eqn:Hns; simpl in HN; try lia.
  exists x. split; [done|].
  destruct (edges G) as [|[[u v] l] es] eqn:Hes; [done|].
  destruct (Hends u v l) as [Hu Hv]; [left|].
  apply list_elem_of_singleton in Hu, Hv. subst.
  by destruct (Hloop x x l); [left|].
Qed.

Lemma salience_order_1 G weight h :
  simple G → order G = 1 →
  returns (Weighted.salience G weight) h [[0%Q]] ∧
  returns (Unweighted.salience G) h [[0%Q]].
Proof.
  intros Hs HN. pose proof Hs as (Hd & Hm & _).
  destruct (simple_order_1 G Hs HN) as (x & Hns & Hes).
  assert (relabel G x = 0) as Hx.
  { unfold relabel, node_mapping, order. rewrite Hns. simpl.
    by rewrite decide_True. }
  unfold returns, Weighted.salience, Unweighted.salience,
    Weighted.salience_by, Unweighted.salience_by,
    Weighted._SPT, Unweighted._SPT, convert_node_labels_to_integers,
    not_implemented_for, order.
  rewrite Hd, Hm, Hns, Hes. simpl. rewrite Hx. split; by eexists.
Qed.
End Small.

(** ** Failure while the proximity weights are computed *)

Lemma reciprocal_python_zero w :
  python_zero w → reciprocal w = Raise ZeroDivisionError.
Proof.
  intros [->|(x & -> & Hx)]; [done|]. simpl.
  apply Qeq_bool_iff in Hx. by rewrite Hx.
Qed.

(** The loop ends at the first weight that is missing or has no reciprocal. *)
Lemma weights_outcome_first weight ds i d :
  ds !! i = Some d →
  (∀ j d', j < i → ds !! j = Some d' →
     ∃ w, d' !! weight = Some w ∧ has_reciprocal w) →
  weights_outcome weight ds =
    match d !! weight with
    | None => Raise KeyError
    | Some w => obind (reciprocal w) (λ _, weights_outcome weight (drop (S i) ds))
    end.
Proof.
  revert i. induction ds as [|d0 ds IH]; intros i Hi Hprev; [done|].
  destruct i as [|i]; simpl in Hi.
  - injection Hi as ->. simpl. by rewrite drop_0.
  - simpl. destruct (Hprev 0 d0) as (w & -> & p & ->); [lia|done|]. simpl.
    apply IH; [done|]. intros j d' Hj Hd'. apply (Hprev (S j) d'); [lia|done].
Qed.

Lemma weights_outcome_Ok weight ds :
  weights_outcome weight ds = Ok tt ↔
  ∀ d, d ∈ ds → ∃ w, d !! weight = Some w ∧ has_reciprocal w.
Proof.
  induction ds as [|d ds IH]; simpl.
  { split; [by intros _ d ?%elem_of_nil|done]. }
  destruct (d !! weight) as [w|] eqn:Hw.
  - destruct (reciprocal w) as [p| |] eqn:Hp; simpl.
    + rewrite IH. split.
      * intros Hall d' [->|Hd']%elem_of_cons; [|by apply Hall].
        exists w. split; [done|by exists p].
      * intros Hall d' Hd'. apply Hall. by right.
    + split; [done|]. intros Hall.
      destruct (Hall d ltac:(left)) as (w' & Hw' & p & Hp'). congruence.
    + split; [done|]. intros Hall.
      destruct (Hall d ltac:(left)) as (w' & Hw' & p & Hp'). congruence.
  - split; [done|]. intros Hall.
    destruct (Hall d ltac:(left)) as (w' & Hw' & _). congruence.
Qed.

Lemma add_proximity_step weight a b l hs :
  Weighted.add_proximity weight (a, b, l) hs =
    match default ∅ (hs !! l) !! weight with
    | None => (Raise KeyError, hs)
    | Some w =>
        match reciprocal w with
        | Ok p => (Ok tt, <[l := <["proximity"%string := p]> (default ∅ (hs !! l))]> hs)
        | Raise e => (Raise e, hs)
        | Stop s => (Stop s, hs)
        end
    end.
Proof.
  unfold Weighted.add_proximity, read, write, lift, raise, bind. simpl.
  destruct (default ∅ (hs !! l) !! weight) as [w|]; [|done].
  by destruct (reciprocal w).
Qed.

(** The proximity loop on fresh dictionaries ends as [weights_outcome] says. *)
Lemma for_each_add_proximity_outcome weight (es : list (nat * nat * loc)) hs :
  NoDup es.*2 → (∀ x, x ∈ es → x.2 < length hs) →
  ∃ hs', for_each es (Weighted.add_proximity weight) hs =
           (weights_outcome weight (dicts_of hs es), hs').
Proof.
  revert hs. induction es as [|[[a b] l] es IH]; intros hs Hnd Hlen.
  { by eexists. }
  rewrite fmap_cons in Hnd. apply NoDup_cons in Hnd as [Hl Hnd].
  cbn [for_each]. unfold bind at 1. rewrite add_proximity_step.
  unfold dicts_of. rewrite map_cons. cbn [weights_outcome snd].
  destruct (default ∅ (hs !! l) !! weight) as [w|] eqn:Hw; [|by eexists].
  destruct (reciprocal w) as [p| |]; cbn [obind]; [|by eexists..].
  destruct (IH (<[l := <["proximity"%string := p]> (default ∅ (hs !! l))]> hs))
    as [hs' Hrun]; [done| |].
  { intros x Hx. rewrite length_insert. apply Hlen. by right. }
  exists hs'. rewrite Hrun. f_equal. f_equal. unfold dicts_of. apply map_ext_in.
  intros [[a' b'] l'] Hin. simpl. rewrite list_lookup_insert_ne; [done|].
  intros ->. apply Hl. apply list_elem_of_In in Hin.
  apply list_elem_of_fmap. by exists (a', b', l').
Qed.

Lemma for_each_add_proximity_raises weight (es : list (nat * nat * loc)) hs e :
  NoDup es.*2 → (∀ x, x ∈ es → x.2 < length hs) →
  weights_outcome weight (dicts_of hs es) = Raise e →
  ∃ hs', for_each es (Weighted.add_proximity weight) hs = (Raise e, hs').
Proof.
  intros Hnd Hlen Herr.
  destruct (for_each_add_proximity_outcome weight es hs Hnd Hlen) as [hs' Hrun].
  exists hs'. by rewrite Hrun, Herr.
Qed.

Section ZeroWeight.
Context {L : Type} `{EqDecision L}.
Implicit Types (G : Graph L) (h : store).

Lemma copied_edges_locs G base es :
  (copied_edges G base es).*2 = seq base (length es).
Proof.
  unfold copied_edges. apply list_eq. intros i.
  rewrite list_lookup_fmap, list_lookup_imap.
  destruct (es !! i) as [e|] eqn:He; simpl.
  - symmetry. apply lookup_seq. split; [done|]. by apply lookup_lt_Some in He.
  - symmetry. apply lookup_ge_None. rewrite length_seq.
    by apply lookup_ge_None in He.
Qed.

(** The copy reads the dictionaries the caller's edges have. *)
Lemma dicts_of_copy G h (k : store) :
  length k = length (edges G) →
  dicts_of (h ++ k) (copied_edges G (length h) (edges G)) = k.
Proof.
  intros Hlen. unfold dicts_of, copied_edges. apply list_eq. intros i.
  rewrite list_lookup_fmap, list_lookup_imap.
  destruct (edges G !! i) as [e|] eqn:He; simpl.
  - rewrite lookup_app_r by lia.
    replace (length h + i - length h) with i by lia.
    apply lookup_lt_Some in He. rewrite <- Hlen in He.
    apply lookup_lt_is_Some in He as [d Hd]. by rewrite Hd.
  - symmetry. apply lookup_ge_None. rewrite Hlen. by apply lookup_ge_None in He.
Qed.

Lemma SPT_weighted_raises G r weight h hs e :
  is_directed G = false → is_multigraph G = false →
  (∀ x, x ∈ edges G → x.2 < length h) → h `prefix_of` hs →
  weights_outcome weight (dicts_of h (edges G)) = Raise e →
  ∃ hs', Weighted._SPT G r weight hs = (Raise e, hs').
Proof.
  intros Hd Hm Halloc [k0 ->] Herr. unfold Weighted._SPT, not_implemented_for.
  rewrite Hd, Hm. unfold ret at 1, bind at 1.
  destruct (convert_spec G (h ++ k0)) as (k & Hc & Hlen & Hcont).
  rewrite (bind_step _ _ _ _ _ Hc). simpl.
  assert (k = dicts_of h (edges G)) as Hk.
  { apply list_eq. intros i. unfold dicts_of. rewrite list_lookup_fmap.
    destruct (edges G !! i) as [x|] eqn:Hx; simpl.
    - assert (x.2 < length h) as Hlt.
      { apply Halloc. apply list_elem_of_lookup. eauto. }
      rewrite (Hcont i x Hx) by (rewrite length_app; lia).
      by rewrite lookup_app_l.
    - apply lookup_ge_None. rewrite Hlen. by apply lookup_ge_None in Hx. }
  destruct (for_each_add_proximity_raises weight
              (copied_edges G (length (h ++ k0)) (edges G)) ((h ++ k0) ++ k) e)
    as [hs' Hraise].
  - rewrite copied_edges_locs. apply NoDup_seq.
  - intros [[a b] l] Hin. apply copied_edges_fresh in Hin.
    rewrite length_app, Hlen. simpl. lia.
  - rewrite dicts_of_copy by done. by rewrite Hk.
  - exists hs'. by rewrite (bind_raise _ _ _ _ _ Hraise).
Qed.

Lemma salience_weighted_raises G weight h e :
  is_directed G = false → is_multigraph G = false → nodes G ≠ [] →
  (∀ x, x ∈ edges G → x.2 < length h) →
  weights_outcome weight (dicts_of h (edges G)) = Raise e →
  ∃ h', Weighted.salience G weight h = (Raise e, h').
Proof.
  intros Hd Hm Hns Halloc Herr. unfold Weighted.salience, Weighted.salience_by.
  destruct (convert_spec G h) as (k & Hc & _).
  rewrite (bind_step _ _ _ _ _ Hc). simpl.
  destruct (nodes G) as [|x ns]; [done|]. simpl.
  destruct (SPT_weighted_raises G (relabel G x) weight h (h ++ k) e)
    as [hs' Hraise]; [done..|by apply prefix_app_r|done|].
  exists hs'. apply bind_raise, bind_raise.
  by rewrite (bind_raise _ _ _ _ _ Hraise).
Qed.
End ZeroWeight.

(** ** The reference node is always found *)

Lemma avoids_obind {A B : Type} e (o : outcome A) (k : A → outcome B) :
  avoids e o → (∀ a, avoids e (k a)) → avoids e (obind o k).
Proof.
  destruct o; simpl; intros Ho Hk; [apply Hk| |done].
  intros [= ->]. by apply Ho.
Qed.

Lemma avoids_bind {A B : Type} e (m : M A) (k : A → M B) h :
  avoids e (m h).1 → (∀ a h1, avoids e (k a h1).1) → avoids e (bind m k h).1.
Proof.
  unfold bind. destruct (m h) as [[a| |] h1]; simpl; intros Hm Hk;
    [apply Hk| |done].
  intros [= ->]. by apply Hm.
Qed.

Lemma avoids_set_entry T i j x : avoids NodeNotFound (set_entry T i j x).
Proof. unfold set_entry. destruct (T !! i) as [row|]; [destruct (row !! j)|]; done. Qed.

Lemma avoids_mark_path T p : avoids NodeNotFound (mark_path T p).
Proof.
  revert T. induction p as [|u p IH]; intros T; [done|].
  destruct p as [|v p]; [done|]. cbn [mark_path].
  apply avoids_obind; [apply avoids_set_entry|auto].
Qed.

Lemma avoids_mark_paths T ps : avoids NodeNotFound (mark_paths T ps).
Proof.
  revert T. induction ps as [|[k p] ps IH]; intros T; [done|]. cbn [mark_paths].
  apply avoids_obind; [apply avoids_mark_path|auto].
Qed.

Lemma avoids_bfs_level Gn level st : avoids NodeNotFound (bfs_level Gn level st).
Proof.
  revert st. induction level as [|v vs IH]; intros st; simpl; [done|].
  destruct (dict_get v st.1); [apply IH|done].
Qed.

Lemma avoids_single_shortest_path fuel Gn nextlevel ps :
  avoids NodeNotFound (_single_shortest_path fuel Gn nextlevel ps).
Proof.
  revert nextlevel ps. induction fuel as [|fuel IH]; intros [|v vs] ps; try done.
  cbn [_single_shortest_path].
  apply avoids_obind; [apply avoids_bfs_level|auto].
Qed.

Lemma avoids_relax h key v d st ue : avoids NodeNotFound (relax h key v d st ue).
Proof.
  destruct ue as [u l]. unfold relax.
  repeat (case_match; try done).
Qed.

Lemma avoids_relax_all h key v d ues st :
  avoids NodeNotFound (relax_all h key v d ues st).
Proof.
  revert st. induction ues as [|ue ues IH]; intros st; simpl; [done|].
  apply avoids_obind; [apply avoids_relax|auto].
Qed.

Lemma avoids_dijkstra_multisource fuel Gn h key st :
  avoids NodeNotFound (_dijkstra_multisource fuel Gn h key st).
Proof.
  revert st. induction fuel as [|fuel IH]; intros st; simpl.
  - by destruct (heappop (fringe st)) as [[[[d c] v] fr]|].
  - destruct (heappop (fringe st)) as [[[[d c] v] fr]|]; [|done].
    simpl. destruct (dict_mem v (dist st)); [apply IH|].
    apply avoids_obind; [apply avoids_relax_all|auto].
Qed.

Lemma avoids_add_proximity weight x h :
  avoids NodeNotFound (Weighted.add_proximity weight x h).1.
Proof.
  destruct x as [[a b] l]. rewrite add_proximity_step.
  destruct (default ∅ (h !! l) !! weight) as [w|]; [|done].
  unfold reciprocal. destruct w as [z|x|x|]; repeat case_match;
    simplify_eq; by intros [=].
Qed.

Lemma avoids_for_each_add_proximity weight xs h :
  avoids NodeNotFound (for_each xs (Weighted.add_proximity weight) h).1.
Proof.
  revert h. induction xs as [|x xs IH]; intros h; simpl; [done|].
  apply avoids_bind; [apply avoids_add_proximity|auto].
Qed.

Section Reference.
Context {L : Type} `{EqDecision L}.
Implicit Types (G : Graph L) (h : store).

Lemma avoids_not_implemented_for G h :
  avoids NodeNotFound (not_implemented_for G h).1.
Proof.
  unfold not_implemented_for. by destruct (is_directed G), (is_multigraph G).
Qed.

Lemma SPT_weighted_finds_source G n weight h :
  NoDup (nodes G) → n < order G →
  avoids NodeNotFound (Weighted._SPT G n weight h).1.
Proof.
  intros Hnd Hn. unfold Weighted._SPT.
  apply avoids_bind; [apply avoids_not_implemented_for|]. intros _ h0.
  destruct (convert_spec G h0) as (k & Hc & _).
  rewrite (bind_step _ _ _ _ _ Hc).
  apply avoids_bind; [apply avoids_for_each_add_proximity|]. intros _ h1.
  apply avoids_bind; [|intros; apply avoids_mark_paths].
  unfold reading, single_source_dijkstra_path. cbn [fst nodes].
  rewrite relabel_nodes by done. rewrite decide_True.
  - apply avoids_dijkstra_multisource.
  - apply elem_of_seq. lia.
Qed.

Lemma SPT_unweighted_finds_source G n h :
  NoDup (nodes G) → n < order G →
  avoids NodeNotFound (Unweighted._SPT G n h).1.
Proof.
  intros Hnd Hn. unfold Unweighted._SPT.
  apply avoids_bind; [apply avoids_not_implemented_for|]. intros _ h0.
  destruct (convert_spec G h0) as (k & Hc & _).
  rewrite (bind_step _ _ _ _ _ Hc).
  apply avoids_bind; [|intros; apply avoids_mark_paths].
  unfold lift, single_source_shortest_path. cbn [fst nodes].
  rewrite relabel_nodes by done. rewrite decide_True.
  - apply avoids_single_shortest_path.
  - apply elem_of_seq. lia.
Qed.
End Reference.

(** ** The unweighted variant returns

    The fuel given to the breadth-first search is enough, and the fill loop
    stays within the matrix. *)

Lemma dict_set_absent {V : Type} k (v : V) d :
  dict_mem k d = false → dict_set k v d = d ++ [(k, v)].
Proof.
  unfold dict_mem. induction d as [|[k' v'] d IH]; simpl; [done|].
  case_decide; [done|]. intros Hm. by rewrite IH.
Qed.

Lemma dict_mem_keys {V : Type} k (d : list (nat * V)) :
  dict_mem k d = true ↔ k ∈ d.*1.
Proof.
  unfold dict_mem. induction d as [|[k' v'] d IH]; simpl.
  - split; [done|]. by intros ?%elem_of_nil.
  - case_decide; subst.
    + split; [intros _; left|done].
    + rewrite IH. split; [by right|].
      intros [?|?]%elem_of_cons; done.
Qed.

Lemma dict_get_is_Some {V : Type} k (d : list (nat * V)) :
  k ∈ d.*1 → is_Some (dict_get k d).
Proof.
  intros Hk%dict_mem_keys. unfold dict_mem in Hk.
  destruct (dict_get k d); [by eexists|done].
Qed.

Lemma adj_items_in_range N es v u l :
  edges_in_range N es → (u, l) ∈ adj_items es v → u < N.
Proof.
  intros Hr [Hin|Hin]%adj_items_elem; by destruct (Hr _ _ _ Hin).
Qed.

Lemma adj_in_range N Gn v u :
  edges_in_range N (edges Gn) → u ∈ adj Gn v → u < N.
Proof.
  unfold adj. intros Hr ([u' l] & -> & Hin)%list_elem_of_fmap.
  by eapply adj_items_in_range.
Qed.

Lemma in_range_snoc N ps k p :
  in_range N ps → k < N → (∀ x, x ∈ p → x < N) → in_range N (ps ++ [(k, p)]).
Proof.
  intros Hr Hk Hp k' p' [Hin|Hin]%elem_of_app; [by apply Hr|].
  apply list_elem_of_singleton in Hin as [= -> ->]. done.
Qed.

Lemma bfs_visit_inv N pv ws st :
  bfs_inv N st → (∀ x, x ∈ pv → x < N) → (∀ w, w ∈ ws → w < N) →
  bfs_inv N (bfs_visit pv ws st) ∧
  (∀ k, k ∈ st.1.*1 → k ∈ (bfs_visit pv ws st).1.*1) ∧
  length (bfs_visit pv ws st).1 + length st.2 =
    length st.1 + length (bfs_visit pv ws st).2.
Proof.
  intros Hinv Hpv. revert st Hinv.
  induction ws as [|w ws IH]; intros [ps nl] (Hnd & Hr & Hnl) Hws; simpl.
  - done.
  - destruct (dict_mem w ps) eqn:Hmem.
    + apply IH; [done|]. intros w' Hw'. apply Hws. by right.
    + rewrite dict_set_absent by done.
      destruct (IH (ps ++ [(w, pv ++ [w])], nl ++ [w])) as (Hinv' & Hkeys & Hlen).
      * split_and!; simpl.
        -- rewrite fmap_app. simpl. apply NoDup_app. split_and!; [done| |apply NoDup_singleton].
           intros k Hk Hk'. apply list_elem_of_singleton in Hk' as ->.
           apply dict_mem_keys in Hk. congruence.
        -- apply in_range_snoc; [done|apply Hws; left|].
           intros x [Hx|Hx]%elem_of_app; [by apply Hpv|].
           apply list_elem_of_singleton in Hx as ->. apply Hws. left.
        -- intros v [Hv|Hv]%elem_of_app; rewrite fmap_app;
             apply elem_of_app; [left; by apply Hnl|right].
           apply list_elem_of_singleton in Hv as ->. simpl. left.
      * intros w' Hw'. apply Hws. by right.
      * split_and!; [done| |].
        -- intros k Hk. apply Hkeys. simpl. rewrite fmap_app. apply elem_of_app. by left.
        -- simpl in *. rewrite !length_app in Hlen. simpl in Hlen. lia.
Qed.

Lemma bfs_level_inv N Gn level st :
  edges_in_range N (edges Gn) → bfs_inv N st → (∀ v, v ∈ level → v ∈ st.1.*1) →
  ∃ st', bfs_level Gn level st = Ok st' ∧ bfs_inv N st' ∧
         length st'.1 + length st.2 = length st.1 + length st'.2.
Proof.
  intros Hes. revert st. induction level as [|v vs IH]; intros st Hinv Hlevel; simpl.
  - by exists st.
  - destruct (dict_get_is_Some v st.1) as [pv Hpv]; [apply Hlevel; left|].
    rewrite Hpv.
    destruct (bfs_visit_inv N pv (adj Gn v) st) as (Hinv' & Hkeys & Hlen); [done| | |].
    + destruct Hinv as (_ & Hr & _). apply dict_get_elem in Hpv. by apply (Hr v pv).
    + intros w. by apply adj_in_range.
    + destruct (IH (bfs_visit pv (adj Gn v) st)) as (st' & Hst' & Hinv'' & Hlen'); [done| |].
      * intros v' Hv'. apply Hkeys, Hlevel. by right.
      * exists st'. split_and!; [done..|lia].
Qed.

Lemma keys_bounded N (ps : paths_dict) :
  NoDup ps.*1 → in_range N ps → length ps ≤ N.
Proof.
  intros Hnd Hr. rewrite <- (length_fmap fst ps).
  replace N with (length (seq 0 N)) at 1 by apply length_seq.
  apply submseteq_length, NoDup_submseteq; [done|].
  intros k ([k' p] & -> & Hin)%list_elem_of_fmap. simpl.
  apply elem_of_seq. destruct (Hr _ _ Hin). lia.
Qed.

Lemma _single_shortest_path_total N fuel Gn nextlevel ps :
  edges_in_range N (edges Gn) → bfs_inv N (ps, nextlevel) →
  nextlevel = [] ∨ N - length ps < fuel →
  ∃ ps', _single_shortest_path fuel Gn nextlevel ps = Ok ps' ∧
         NoDup ps'.*1 ∧ in_range N ps'.
Proof.
  intros Hes. revert nextlevel ps.
  induction fuel as [|fuel IH]; intros nextlevel ps Hinv Hfuel.
  - destruct Hfuel as [->|?]; [|lia]. exists ps. by destruct Hinv as (? & ? & _).
  - destruct nextlevel as [|v vs].
    { exists ps. by destruct Hinv as (? & ? & _). }
    destruct Hfuel as [?|Hfuel]; [done|].
    cbn [_single_shortest_path].
    destruct (bfs_level_inv N Gn (v :: vs) (ps, [])) as (st' & Hst' & Hinv' & Hlen);
      [done| |by destruct Hinv as (_ & _ & ?)|].
    { destruct Hinv as (? & ? & _). split_and!; [done..|]. by intros ? ?%elem_of_nil. }
    rewrite Hst'. simpl. destruct st' as [ps1 nl1]. simpl in *.
    apply IH; [done|].
    destruct nl1 as [|w nl1]; [by left|right].
    destruct Hinv' as (Hnd1 & Hr1 & _).
    pose proof (keys_bounded N ps1 Hnd1 Hr1). simpl in Hlen. lia.
Qed.

Lemma shape_zeros N : shape N (zeros N N).
Proof.
  unfold shape, zeros. split; [apply length_replicate|].
  intros row [-> _]%elem_of_replicate. apply length_replicate.
Qed.

Lemma set_entry_total N T u v x :
  shape N T → u < N → v < N →
  ∃ T', set_entry T u v x = Ok T' ∧ shape N T'.
Proof.
  intros [Hlen Hrows] Hu Hv. unfold set_entry.
  destruct (lookup_lt_is_Some_2 T u) as [row Hrow]; [lia|]. rewrite Hrow.
  assert (length row = N) as Hrl.
  { apply Hrows. apply list_elem_of_lookup. eauto. }
  destruct (lookup_lt_is_Some_2 row v) as [y Hy]; [lia|]. rewrite Hy.
  eexists. split; [done|]. split.
  - by rewrite length_insert.
  - intros row' Hin. apply list_elem_of_lookup in Hin as [i Hi].
    destruct (decide (i = u)) as [->|Hne].
    + rewrite list_lookup_insert_eq in Hi by lia. injection Hi as <-.
      by rewrite length_insert.
    + rewrite list_lookup_insert_ne in Hi by done.
      apply Hrows. apply list_elem_of_lookup. eauto.
Qed.

Lemma mark_path_total N T p :
  shape N T → (∀ x, x ∈ p → x < N) →
  ∃ T', mark_path T p = Ok T' ∧ shape N T'.
Proof.
  revert T. induction p as [|u p IH]; intros T Hs Hp; [by exists T|].
  destruct p as [|v p]; [by exists T|]. cbn [mark_path].
  destruct (set_entry_total N T u v 1%Q) as (T1 & -> & Hs1);
    [done|apply Hp; left|apply Hp; right; left|].
  simpl. apply IH; [done|]. intros x Hx. apply Hp. by right.
Qed.

Lemma mark_paths_total N T ps :
  shape N T → in_range N ps →
  ∃ T', mark_paths T ps = Ok T' ∧ shape N T'.
Proof.
  revert T. induction ps as [|[k p] ps IH]; intros T Hs Hr; [by exists T|].
  cbn [mark_paths].
  destruct (mark_path_total N T p) as (T1 & -> & Hs1); [done| |].
  { apply (Hr k p). left. }
  simpl. apply IH; [done|]. intros k' p' Hin. apply Hr. by right.
Qed.

Lemma single_source_shortest_path_total Gn s :
  nodes Gn = seq 0 (order Gn) → edges_in_range (order Gn) (edges Gn) →
  s < order Gn →
  ∃ ps, single_source_shortest_path Gn s = Ok ps ∧ in_range (order Gn) ps.
Proof.
  intros Hns Hes Hs. unfold single_source_shortest_path.
  rewrite decide_True by (rewrite Hns; apply elem_of_seq; lia).
  destruct (_single_shortest_path_total (order Gn) (S (order Gn)) Gn [s] [(s, [s])])
    as (ps & Hps & _ & Hr); [done| |right; simpl; lia|by exists ps].
  split_and!; simpl.
  - apply NoDup_singleton.
  - intros k p [= -> ->]%list_elem_of_singleton. split; [done|].
    by intros x ->%list_elem_of_singleton.
  - done.
Qed.

Lemma for_acc_total {A S : Type} (xs : list A) (body : S → A → M S) acc h :
  (∀ s x h1, x ∈ xs → ∃ s' h2, body s x h1 = (Ok s', h2)) →
  ∃ r h', for_acc xs body acc h = (Ok r, h').
Proof.
  revert acc h. induction xs as [|x xs IH]; intros acc h Hb; simpl.
  - by eexists _, _.
  - destruct (Hb acc x h) as (s' & h2 & Hx); [left|].
    rewrite (bind_step _ _ _ _ _ Hx). apply IH.
    intros s y h1 Hy. apply Hb. by right.
Qed.

Section Total.
Context {L : Type} `{EqDecision L}.
Implicit Types (G : Graph L) (h : store).

Lemma relabel_in_range G x :
  NoDup (nodes G) → x ∈ nodes G → relabel G x < order G.
Proof.
  intros Hnd [i Hi]%list_elem_of_lookup.
  rewrite (relabel_lookup G i x Hnd Hi). by apply lookup_lt_Some in Hi.
Qed.

Lemma copied_edges_in_range G base :
  well_formed G → edges_in_range (order G) (copied_edges G base (edges G)).
Proof.
  intros [Hnd Hends] a b l Hin. unfold copied_edges in Hin.
  apply list_elem_of_lookup in Hin as [i Hi].
  rewrite list_lookup_imap in Hi.
  destruct (edges G !! i) as [[[u v] l']|] eqn:He; simpl in Hi; [|done].
  injection Hi as <- <- _.
  destruct (Hends u v l') as [Hu Hv]; [apply list_elem_of_lookup; eauto|].
  split; by apply relabel_in_range.
Qed.

(** On an undirected graph without parallel edges the unweighted builder
    returns a matrix for every index below the order. *)
Lemma SPT_unweighted_total G r h :
  is_directed G = false → is_multigraph G = false → well_formed G →
  r < order G → ∃ T h', Unweighted._SPT G r h = (Ok T, h').
Proof.
  intros Hd Hm Hwf Hr. unfold Unweighted._SPT, not_implemented_for.
  rewrite Hd, Hm. unfold ret at 1, bind at 1.
  destruct (convert_spec G h) as (k & Hc & _).
  rewrite (bind_step _ _ _ _ _ Hc).
  set (Gn := mkGraph _ _ _ _).
  assert (order Gn = order G) as HN.
  { unfold order, Gn. simpl. by rewrite length_map. }
  destruct (single_source_shortest_path_total Gn r) as (ps & Hps & Hrange).
  - rewrite HN. unfold Gn. simpl. apply relabel_nodes. by destruct Hwf.
  - rewrite HN. unfold Gn. simpl. by apply copied_edges_in_range.
  - by rewrite HN.
  - destruct (mark_paths_total (order Gn) (zeros (order Gn) (order Gn)) ps)
      as (T & HT & _); [apply shape_zeros|done|].
    exists T, (h ++ k). unfold lift, bind. by rewrite Hps, HT.
Qed.

(** On such a graph the unweighted aggregator returns a matrix. *)
Lemma salience_unweighted_total G h :
  is_directed G = false → is_multigraph G = false → well_formed G →
  ∃ S, returns (Unweighted.salience G) h S.
Proof.
  intros Hd Hm Hwf.
  destruct (decide (order G = 0)) as [HN|HN].
  { exists []. by apply (salience_order_0 G ""%string). }
  unfold returns, Unweighted.salience, Unweighted.salience_by.
  destruct (convert_spec G h) as (k & Hc & _).
  rewrite (bind_step _ _ _ _ _ Hc). simpl.
  destruct (for_acc_total (map (relabel G) (nodes G))
              (λ S n, T <- Unweighted._SPT G n ;; ret (madd S T))
              (zeros (order G) (order G)) (h ++ k)) as (S1 & h1 & Hloop).
  - intros S n h1 Hn. rewrite relabel_nodes in Hn by (by destruct Hwf).
    apply elem_of_seq in Hn.
    destruct (SPT_unweighted_total G n h1) as (T & h2 & HT); [done..|lia|].
    eexists _, _. by rewrite (bind_step _ _ _ _ _ HT).
  - eexists _, _. rewrite (bind_step _ _ _ _ _ Hloop). unfold lift.
    by rewrite (scale_div_nonzero _ _ HN).
Qed.
End Total.

(** * The claims *)

(** ** Evaluation on the path graph 0 - 1 - 2 *)

(** C1.  The salience matrix should be symmetric, but it is not: on the path
    graph 0 - 1 - 2 both variants return a matrix whose entry (0,1) is 1/3
    and whose entry (1,0) is 2/3.  The fill loop writes [T[u][v]] only. *)
Theorem salience_path3_not_symmetric :
  ∃ S x y,
    returns (Weighted.salience path3 "weight") unit_weights S ∧
    returns (Unweighted.salience path3) unit_weights S ∧
    entry S 0 1 = Some x ∧ entry S 1 0 = Some y ∧
    (x == 1 # 3)%Q ∧ (y == 2 # 3)%Q ∧ ¬ (x == y)%Q.
Proof.
  eexists _, _, _. split_and!.
  - apply returns_fst. vm_compute. reflexivity.
  - apply returns_fst. vm_compute. reflexivity.
  - reflexivity.
  - reflexivity.
  - reflexivity.
  - reflexivity.
  - by vm_compute.
Qed.

(** C2.  On the path graph 0 - 1 - 2 the unweighted variant should return
    1.0 at (0,1) and (1,2) and 0 at (0,2); it returns 1/3 at (0,1), 2/3 at
    (1,2) and 0 at (0,2). *)
Theorem salience_unweighted_path3_entries :
  ∃ S a b c,
    returns (Unweighted.salience path3) unit_weights S ∧
    entry S 0 1 = Some a ∧ entry S 1 2 = Some b ∧ entry S 0 2 = Some c ∧
    (a == 1 # 3)%Q ∧ (b == 2 # 3)%Q ∧ (c == 0)%Q ∧
    ¬ (a == 1)%Q ∧ ¬ (b == 1)%Q.
Proof.
  eexists _, _, _, _. split_and!.
  - apply returns_fst. vm_compute. reflexivity.
  - reflexivity.
  - reflexivity.
  - reflexivity.
  - reflexivity.
  - reflexivity.
  - reflexivity.
  - by vm_compute.
  - by vm_compute.
Qed.

(** With the symmetric marking the docstring describes, the same graph gets
    the values the specification expects. *)
Lemma documented_salience_path3_entries :
  ∃ S a b c,
    returns (Documented.salience path3) unit_weights S ∧
    entry S 0 1 = Some a ∧ entry S 1 2 = Some b ∧ entry S 0 2 = Some c ∧
    (a == 1)%Q ∧ (b == 1)%Q ∧ (c == 0)%Q.
Proof.
  eexists _, _, _, _. split_and!.
  - apply returns_fst. vm_compute. reflexivity.
  - reflexivity.
  - reflexivity.
  - reflexivity.
  - reflexivity.
  - reflexivity.
  - reflexivity.
Qed.

(** C3.  The matrix of the builder should be symmetric, but the tree of the
    path graph rooted at node 0 has a one at (0,1) and a zero at (1,0), in
    both variants. *)
Theorem SPT_path3_not_symmetric :
  ∃ T,
    returns (Weighted._SPT path3 0 "weight") unit_weights T ∧
    returns (Unweighted._SPT path3 0) unit_weights T ∧
    entry T 0 1 = Some 1%Q ∧ entry T 1 0 = Some 0%Q.
Proof.
  eexists. split_and!.
  - apply returns_fst. vm_compute. reflexivity.
  - apply returns_fst. vm_compute. reflexivity.
  - reflexivity.
  - reflexivity.
Qed.

(** ** The aggregator's guarantees *)

Section Claims.
Context {L : Type} `{EqDecision L}.
Implicit Types (G : Graph L) (h : store).

(** C6.  Zero on non-edges: when [salience] (weighted or unweighted) returns
    a matrix, its entry at every index pair that is not an edge of the
    relabelled graph is zero. *)
Theorem salience_zero_on_non_edges G weight h S i j x :
  returns (Weighted.salience G weight) h S ∨ returns (Unweighted.salience G) h S →
  ¬ is_edge G i j → entry S i j = Some x → (x == 0)%Q.
Proof.
  intros Hret Hne Hx.
  by destruct (salience_entries G weight h S i j x Hret Hx) as [_ Hzero]; auto.
Qed.

(** C7.  Range: when [salience] (weighted or unweighted) returns a matrix,
    every entry lies between 0 and 1. *)
Theorem salience_range G weight h S i j x :
  returns (Weighted.salience G weight) h S ∨ returns (Unweighted.salience G) h S →
  entry S i j = Some x → (0 <= x <= 1)%Q.
Proof.
  intros Hret Hx.
  by destruct (salience_entries G weight h S i j x Hret Hx) as [Hrange _].
Qed.

(** C5, as the code has it.  For a graph without nodes, or a simple graph
    with one node, both variants return the zero matrix of that order.  The
    division by [N] is not guarded: on a graph without nodes the call is the
    division of the empty array by zero, whatever that division does; NumPy's
    division gives the empty array back, having no entry to divide, while an
    array with an entry would come back with inf or nan. *)
Theorem salience_small_graphs G weight h :
  order G = 0 ∨ (order G = 1 ∧ simple G) →
  (∃ S, returns (Weighted.salience G weight) h S ∧
        returns (Unweighted.salience G) h S ∧
        S = zeros (order G) (order G) ∧
        (order G = 0 → S = []) ∧ (order G = 1 → S = [[0%Q]])) ∧
  (order G = 0 →
     ∀ divide, (Weighted.salience_by divide G weight h).1 = divide [] 0 ∧
               (Unweighted.salience_by divide G h).1 = divide [] 0) ∧
  scale_div [] 0 = Ok [] ∧
  (∀ S, has_entry S = true → scale_div S 0 = Stop NonFinite).
Proof.
  intros Hsmall. split_and!.
  - destruct Hsmall as [HN|[HN Hs]].
    + destruct (salience_order_0 G weight h HN) as [Hw Hu].
      exists []. rewrite HN. by split_and!.
    + destruct (salience_order_1 G weight h Hs HN) as [Hw Hu].
      exists [[0%Q]]. rewrite HN. by split_and!.
  - intros HN divide.
    destruct (salience_by_order_0 divide G weight h HN) as [[h1 ->] [h2 ->]].
    done.
  - done.
  - intros S HS. unfold scale_div. by rewrite HS.
Qed.

(** C9.  Neither variant writes to a dictionary of the caller: the store the
    call leaves behind, whether it returns or raises, extends the store it
    started from, so the derived ['proximity'] entries sit in dictionaries
    allocated by the call. *)
Theorem salience_preserves_caller_store G weight h :
  h `prefix_of` (Weighted.salience G weight h).2 ∧
  h `prefix_of` (Unweighted.salience G h).2.
Proof.
  split; [apply preserves_salience_weighted|apply preserves_salience_unweighted].
Qed.

(** C10.  Relabelling is a function of the node enumeration alone: started
    in any store, it yields the nodes [0..N-1] and the same relabelled
    edges; the [i]-th node is sent to [i]; and for every [n < N] the builder
    finds [n] in its own relabelled copy, so it does not raise
    [NodeNotFound]. *)
Theorem reference_indices_are_nodes G :
  NoDup (nodes G) →
  (∀ h, ∃ Gn h', convert_node_labels_to_integers G h = (Ok Gn, h') ∧
      nodes Gn = seq 0 (order G) ∧
      (edges Gn).*1 = map (λ e, (relabel G e.1.1, relabel G e.1.2)) (edges G)) ∧
  (∀ i x, nodes G !! i = Some x → relabel G x = i) ∧
  (∀ i, i < order G → ∃ x, nodes G !! i = Some x ∧ relabel G x = i) ∧
  (∀ n weight h, n < order G →
      avoids NodeNotFound (Weighted._SPT G n weight h).1 ∧
      avoids NodeNotFound (Unweighted._SPT G n h).1).
Proof.
  intros Hnd. split_and!.
  - intros h. destruct (convert_spec G h) as (k & Hc & _).
    eexists _, _. split; [exact Hc|]. simpl. split; [by apply relabel_nodes|].
    unfold copied_edges. apply list_eq. intros i.
    rewrite !list_lookup_fmap, list_lookup_imap.
    by destruct (edges G !! i).
  - intros i x Hi. by apply relabel_lookup.
  - intros i Hi. apply lookup_lt_is_Some in Hi as [x Hx].
    exists x. split; [done|by apply relabel_lookup].
  - intros n weight h Hn. split.
    + by apply SPT_weighted_finds_source.
    + by apply SPT_unweighted_finds_source.
Qed.

(** C4, as the code has it.  The weights are not validated: the builder
    computes [1./w] edge by edge, in the order of the edges, before it asks
    for the shortest paths, and the call fails at the first edge for which
    this fails.  When every edge before it has a weight with a reciprocal,
    an edge whose weight is a Python int or float equal to zero makes the
    builder, whatever the reference node, and [salience] raise
    [ZeroDivisionError]; an edge without the attribute makes them raise
    [KeyError]. *)
Theorem zero_weight_rejected G weight h i u v l d :
  is_directed G = false → is_multigraph G = false → nodes G ≠ [] →
  (∀ x, x ∈ edges G → x.2 < length h) →
  edges G !! i = Some (u, v, l) → h !! l = Some d →
  (∀ j x, j < i → edges G !! j = Some x →
     ∃ w, default ∅ (h !! x.2) !! weight = Some w ∧ has_reciprocal w) →
  (∀ w, d !! weight = Some w → python_zero w →
     (∃ h', Weighted.salience G weight h = (Raise ZeroDivisionError, h')) ∧
     ∀ r, ∃ h', Weighted._SPT G r weight h = (Raise ZeroDivisionError, h')) ∧
  (d !! weight = None →
     (∃ h', Weighted.salience G weight h = (Raise KeyError, h')) ∧
     ∀ r, ∃ h', Weighted._SPT G r weight h = (Raise KeyError, h')).
Proof.
  intros Hd Hm Hns Halloc Hi Hl Hprev.
  assert (∀ e, weights_outcome weight (dicts_of h (edges G)) = Raise e →
            (∃ h', Weighted.salience G weight h = (Raise e, h')) ∧
            ∀ r, ∃ h', Weighted._SPT G r weight h = (Raise e, h')) as Hfail.
  { intros e He. split; [by apply salience_weighted_raises|].
    intros r. by apply (SPT_weighted_raises G r weight h h e). }
  split.
  - intros w Hw Hzero. apply Hfail.
    rewrite (weights_outcome_first weight _ i d).
    + by rewrite Hw, (reciprocal_python_zero w Hzero).
    + unfold dicts_of. rewrite list_lookup_fmap, Hi. simpl. by rewrite Hl.
    + intros j d' Hj Hd'. unfold dicts_of in Hd'. rewrite list_lookup_fmap in Hd'.
      destruct (edges G !! j) as [x|] eqn:Hx; [|done].
      injection Hd' as <-. by apply (Hprev j x).
  - intros Hw. apply Hfail.
    rewrite (weights_outcome_first weight _ i d).
    + by rewrite Hw.
    + unfold dicts_of. rewrite list_lookup_fmap, Hi. simpl. by rewrite Hl.
    + intros j d' Hj Hd'. unfold dicts_of in Hd'. rewrite list_lookup_fmap in Hd'.
      destruct (edges G !! j) as [x|] eqn:Hx; [|done].
      injection Hd' as <-. by apply (Hprev j x).
Qed.

(** C8, as the code has it.  The shape check belongs to the builder, not to
    the aggregator.  On a directed graph or a multigraph the builder raises
    [NetworkXNotImplemented] at once, leaving the store as it was;
    [salience] raises it from the first builder call, after it has itself
    relabelled the graph, when the graph has a node; and returns the empty
    matrix when the graph has none. *)
Theorem unsupported_shape_rejected_by_builder G weight h :
  is_directed G = true ∨ is_multigraph G = true →
  (∀ r, Weighted._SPT G r weight h = (Raise NetworkXNotImplemented, h) ∧
        Unweighted._SPT G r h = (Raise NetworkXNotImplemented, h)) ∧
  (nodes G ≠ [] →
     Weighted.salience G weight h =
       (Raise NetworkXNotImplemented, (convert_node_labels_to_integers G h).2) ∧
     Unweighted.salience G h =
       (Raise NetworkXNotImplemented, (convert_node_labels_to_integers G h).2)) ∧
  (nodes G = [] →
     returns (Weighted.salience G weight) h [] ∧
     returns (Unweighted.salience G) h []).
Proof.
  intros Hshape.
  assert (∀ h0, not_implemented_for G h0 = (Raise NetworkXNotImplemented, h0)) as Hni.
  { intros h0. unfold not_implemented_for.
    destruct Hshape as [-> | ->]; [done|by destruct (is_directed G)]. }
  assert (∀ r h0, Weighted._SPT G r weight h0 = (Raise NetworkXNotImplemented, h0)) as Hw.
  { intros r h0. unfold Weighted._SPT. by rewrite (bind_raise _ _ _ _ _ (Hni h0)). }
  assert (∀ r h0, Unweighted._SPT G r h0 = (Raise NetworkXNotImplemented, h0)) as Hu.
  { intros r h0. unfold Unweighted._SPT. by rewrite (bind_raise _ _ _ _ _ (Hni h0)). }
  split_and!.
  - intros r. by rewrite Hw, Hu.
  - intros Hns. unfold Weighted.salience, Unweighted.salience,
      Weighted.salience_by, Unweighted.salience_by.
    destruct (convert_spec G h) as (k & Hc & _).
    rewrite !(bind_step _ _ _ _ _ Hc), Hc. simpl.
    destruct (nodes G) as [|x ns]; [done|]. simpl. split.
    + apply bind_raise, bind_raise. by rewrite (bind_raise _ _ _ _ _ (Hw _ _)).
    + apply bind_raise, bind_raise. by rewrite (bind_raise _ _ _ _ _ (Hu _ _)).
  - intros Hns. apply salience_order_0. unfold order. by rewrite Hns.
Qed.
End Claims.

(** ** Instances *)

Lemma path3_returns :
  returns (Weighted.salience path3 "weight") unit_weights salience_path3 ∧
  returns (Unweighted.salience path3) unit_weights salience_path3.
Proof. split; apply returns_fst; vm_compute; reflexivity. Qed.

Lemma path3_no_edge_0_2 : ¬ is_edge path3 0 2.
Proof.
  intros (u & v & l & Hin & Hor). simpl in Hin.
  apply elem_of_cons in Hin as [[= -> -> ->]|Hin].
  { vm_compute in Hor. destruct Hor as [[? ?]|[? ?]]; discriminate. }
  apply list_elem_of_singleton in Hin as [= -> -> ->].
  vm_compute in Hor. destruct Hor as [[? ?]|[? ?]]; discriminate.
Qed.

Lemma path3_nodes_NoDup : NoDup (nodes path3).
Proof. exact (NoDup_seq 0 3). Qed.

Lemma lone_node_simple : simple lone_node.
Proof.
  split; [done|]. split; [done|]. split; [split|].
  - apply NoDup_singleton.
  - intros u v l Hin. simpl in Hin. by apply elem_of_nil in Hin.
  - intros u v l Hin. simpl in Hin. by apply elem_of_nil in Hin.
Qed.

Lemma path3_edges_allocated (h : store) :
  length h = 2 → ∀ x, x ∈ edges path3 → x.2 < length h.
Proof.
  intros Hlen x Hin. rewrite Hlen. simpl in Hin.
  apply elem_of_cons in Hin as [->|Hin]; [simpl; lia|].
  apply list_elem_of_singleton in Hin as ->. simpl. lia.
Qed.

(** The entry (0,2) of the path graph is off the edges, and zero. *)
Lemma salience_zero_on_non_edges_witness :
  (returns (Weighted.salience path3 "weight") unit_weights salience_path3 ∨
   returns (Unweighted.salience path3) unit_weights salience_path3) ∧
  ¬ is_edge path3 0 2 ∧
  entry salience_path3 0 2 = Some (0 # 3)%Q ∧
  (0 # 3 == 0)%Q.
Proof.
  assert (returns (Weighted.salience path3 "weight") unit_weights salience_path3 ∨
          returns (Unweighted.salience path3) unit_weights salience_path3) as Hret.
  { right. apply path3_returns. }
  split_and!; [exact Hret|exact path3_no_edge_0_2|reflexivity|].
  exact (salience_zero_on_non_edges path3 "weight" unit_weights salience_path3
           0 2 (0 # 3)%Q Hret path3_no_edge_0_2 eq_refl).
Defined.

(** The entry (1,0) of the path graph is 2/3. *)
Lemma salience_range_witness :
  (returns (Weighted.salience path3 "weight") unit_weights salience_path3 ∨
   returns (Unweighted.salience path3) unit_weights salience_path3) ∧
  entry salience_path3 1 0 = Some (2 # 3)%Q ∧
  (0 <= 2 # 3 <= 1)%Q.
Proof.
  assert (returns (Weighted.salience path3 "weight") unit_weights salience_path3 ∨
          returns (Unweighted.salience path3) unit_weights salience_path3) as Hret.
  { left. apply path3_returns. }
  split_and!; [exact Hret|reflexivity|..];
    apply (salience_range path3 "weight" unit_weights salience_path3
             1 0 (2 # 3)%Q Hret eq_refl).
Defined.

(** The graph without nodes and the graph with the single node 7. *)
Lemma salience_small_graphs_witness :
  (order null_graph = 0 ∧
   (∃ S, returns (Weighted.salience null_graph "weight") [] S ∧
         returns (Unweighted.salience null_graph) [] S ∧ S = []) ∧
   (Weighted.salience_by strict_div null_graph "weight" []).1 = strict_div [] 0) ∧
  (order lone_node = 1 ∧ simple lone_node ∧
   ∃ S, returns (Weighted.salience lone_node "weight") [] S ∧
        returns (Unweighted.salience lone_node) [] S ∧ S = [[0%Q]]).
Proof.
  split.
  - split; [reflexivity|].
    destruct (salience_small_graphs null_graph "weight" [] (or_introl eq_refl))
      as ((S & Hw & Hu & _ & H0 & _) & Hdiv & _).
    split; [|by apply Hdiv].
    exists S. split_and!; [done..|by apply H0].
  - split; [reflexivity|]. split; [exact lone_node_simple|].
    destruct (salience_small_graphs lone_node "weight" []
                (or_intror (conj eq_refl lone_node_simple)))
      as ((S & Hw & Hu & _ & _ & H1) & _).
    exists S. split_and!; [done..|by apply H1].
Defined.

(** The path graph: its three indices are nodes of every relabelled copy. *)
Lemma reference_indices_are_nodes_witness :
  NoDup (nodes path3) ∧
  (∀ n, n < 3 →
     avoids NodeNotFound (Weighted._SPT path3 n "weight" unit_weights).1 ∧
     avoids NodeNotFound (Unweighted._SPT path3 n unit_weights).1).
Proof.
  split; [exact path3_nodes_NoDup|].
  intros n Hn.
  destruct (reference_indices_are_nodes path3 path3_nodes_NoDup)
    as (_ & _ & _ & Hfind).
  by apply Hfind.
Defined.

(** The path graph whose second edge has the float weight zero. *)
Lemma zero_weight_rejected_witness :
  is_directed path3 = false ∧ is_multigraph path3 = false ∧ nodes path3 ≠ [] ∧
  (∀ x, x ∈ edges path3 → x.2 < length one_then_zero) ∧
  edges path3 !! 1 = Some (1, 2, 1) ∧
  one_then_zero !! 1 = Some ({[ "weight"%string := PyFloat 0 ]} : attrs) ∧
  (∀ j x, j < 1 → edges path3 !! j = Some x →
     ∃ w, default ∅ (one_then_zero !! x.2) !! "weight"%string = Some w ∧
          has_reciprocal w) ∧
  python_zero (PyFloat 0) ∧
  (∃ h', Weighted.salience path3 "weight" one_then_zero = (Raise ZeroDivisionError, h')) ∧
  ∀ r, ∃ h', Weighted._SPT path3 r "weight" one_then_zero = (Raise ZeroDivisionError, h').
Proof.
  assert (∀ j x, j < 1 → edges path3 !! j = Some x →
     ∃ w, default ∅ (one_then_zero !! x.2) !! "weight"%string = Some w ∧
          has_reciprocal w) as Hprev.
  { intros j x Hj Hx. destruct j as [|j]; [|lia].
    injection Hx as <-. exists (PyInt 1). split; [reflexivity|].
    by exists (PyFloat (1 / inject_Z 1)). }
  assert (python_zero (PyFloat 0)) as Hzero.
  { right. exists 0%Q. split; reflexivity. }
  destruct (proj1 (zero_weight_rejected path3 "weight" one_then_zero 1 1 2 1
                     ({[ "weight"%string := PyFloat 0 ]} : attrs)
                     eq_refl eq_refl ltac:(done)
                     (path3_edges_allocated one_then_zero eq_refl)
                     eq_refl eq_refl Hprev) (PyFloat 0) eq_refl Hzero)
    as [Hsal Hspt].
  split_and!; [done|done|done|exact (path3_edges_allocated one_then_zero eq_refl)
              |done|done|exact Hprev|exact Hzero|exact Hsal|exact Hspt].
Defined.

(** The directed graph with the arc 0 -> 1. *)
Lemma unsupported_shape_rejected_by_builder_witness :
  (is_directed arc = true ∨ is_multigraph arc = true) ∧
  (∀ r, Weighted._SPT arc r "weight" [∅] = (Raise NetworkXNotImplemented, [∅]) ∧
        Unweighted._SPT arc r [∅] = (Raise NetworkXNotImplemented, [∅])) ∧
  Weighted.salience arc "weight" [∅] = (Raise NetworkXNotImplemented, [∅; ∅]) ∧
  Unweighted.salience arc [∅] = (Raise NetworkXNotImplemented, [∅; ∅]).
Proof.
  split; [by left|].
  destruct (unsupported_shape_rejected_by_builder arc "weight" [∅] (or_introl eq_refl))
    as (Hspt & Hsal & _).
  split; [exact Hspt|]. apply Hsal. done.
Defined.

(** ** Counterexamples *)

(** C4, as stated, fails.  The second edge of the path graph has weight
    zero, yet the call does not fail with the zero-division error: the first
    edge lacks the weight attribute and the call raises [KeyError]. *)
Lemma zero_weight_after_missing_weight :
  edges path3 !! 1 = Some (1, 2, 1) ∧
  (∃ d : attrs, unweighted_then_zero !! 1 = Some d ∧
                d !! "weight"%string = Some (PyInt 0) ∧
                python_zero (PyInt 0)) ∧
  (∃ h', Weighted.salience path3 "weight" unweighted_then_zero = (Raise KeyError, h')) ∧
  ¬ ∃ h', Weighted.salience path3 "weight" unweighted_then_zero =
            (Raise ZeroDivisionError, h').
Proof.
  assert (∃ h', Weighted.salience path3 "weight" unweighted_then_zero
                = (Raise KeyError, h')) as [h' Hk].
  { apply raises_fst. vm_compute. reflexivity. }
  split_and!; [done| |by eexists|].
  - eexists. split_and!; [reflexivity|reflexivity|by left].
  - intros [h'' Hz]. rewrite Hk in Hz. discriminate.
Qed.

(** C5, as stated, fails.  The division is not guarded: on the graph without
    nodes the divisor zero reaches the division, so that a division which
    refuses a zero divisor makes the call fail. *)
Lemma division_by_zero_not_guarded :
  order null_graph = 0 ∧
  Weighted.salience null_graph "weight" =
    Weighted.salience_by scale_div null_graph "weight" ∧
  Unweighted.salience null_graph = Unweighted.salience_by scale_div null_graph ∧
  Weighted.salience_by strict_div null_graph "weight" [] =
    (Raise ZeroDivisionError, []) ∧
  Unweighted.salience_by strict_div null_graph [] = (Raise ZeroDivisionError, []).
Proof. by split_and!. Qed.

(** C8, as stated, fails.  A directed graph without nodes is not rejected:
    both variants return the empty matrix. *)
Lemma empty_digraph_accepted :
  is_directed empty_digraph = true ∧
  Weighted.salience empty_digraph "weight" [] = (Ok [], []) ∧
  Unweighted.salience empty_digraph [] = (Ok [], []).
Proof. by split_and!. Qed.

(** * Further properties of the two modules *)

(** ** Shapes *)

Lemma set_entry_shape N T i j x T' :
  set_entry T i j x = Ok T' → shape N T → shape N T'.
Proof.
  unfold set_entry. destruct (T !! i) as [row|] eqn:Hrow; [|done].
  destruct (row !! j) as [y|] eqn:Hy; [|done].
  intros [= <-] [Hlen Hrows]. split; [by rewrite length_insert|].
  intros row' [k Hk]%list_elem_of_lookup.
  destruct (decide (k = i)) as [->|Hne].
  - rewrite list_lookup_insert_eq in Hk by (by eapply lookup_lt_Some).
    injection Hk as <-. rewrite length_insert. apply Hrows.
    apply list_elem_of_lookup. eauto.
  - rewrite list_lookup_insert_ne in Hk by done.
    apply Hrows. apply list_elem_of_lookup. eauto.
Qed.

Lemma mark_path_shape N T p T' :
  mark_path T p = Ok T' → shape N T → shape N T'.
Proof.
  revert T. induction p as [|u p IH]; intros T; [by intros [= <-]|].
  destruct p as [|v p]; [by intros [= <-]|]. cbn [mark_path].
  destruct (set_entry T u v 1%Q) as [T1| |] eqn:Hset; simpl; try done.
  intros Hrest Hs. apply (IH _ Hrest). by eapply set_entry_shape.
Qed.

Lemma mark_paths_shape N T ps T' :
  mark_paths T ps = Ok T' → shape N T → shape N T'.
Proof.
  revert T. induction ps as [|[k p] ps IH]; intros T; [by intros [= <-]|].
  cbn [mark_paths].
  destruct (mark_path T p) as [T1| |] eqn:Hp; simpl; try done.
  intros Hrest Hs. apply (IH _ Hrest). by eapply mark_path_shape.
Qed.

Lemma madd_shape N S T : shape N S → shape N T → shape N (madd S T).
Proof.
  intros [HlS HrS] [HlT HrT]. unfold madd. split.
  - rewrite length_zip_with. lia.
  - intros row [i Hi]%list_elem_of_lookup. rewrite lookup_zip_with in Hi.
    destruct (S !! i) as [rs|] eqn:Hs; simpl in Hi; [|done].
    destruct (T !! i) as [rt|] eqn:Ht; simpl in Hi; [|done].
    injection Hi as <-. rewrite length_zip_with.
    rewrite (HrS rs), (HrT rt); [lia|apply list_elem_of_lookup; eauto..].
Qed.

Lemma quotients_shape N S k : shape N S → shape N (quotients S k).
Proof.
  intros [Hl Hr]. unfold quotients. split; [by rewrite length_map|].
  intros row (row' & -> & Hin)%list_elem_of_fmap. rewrite length_map. by apply Hr.
Qed.

Lemma shape_entry N T i j :
  shape N T → i < N → j < N → is_Some (entry T i j).
Proof.
  intros [Hl Hr] Hi Hj. unfold entry.
  destruct (lookup_lt_is_Some_2 T i) as [row Hrow]; [lia|]. rewrite Hrow. simpl.
  apply lookup_lt_is_Some_2. rewrite (Hr row); [done|].
  apply list_elem_of_lookup. eauto.
Qed.

Lemma entry_shape N T i j x :
  shape N T → entry T i j = Some x → i < N ∧ j < N.
Proof.
  intros [Hl Hr]. unfold entry.
  destruct (T !! i) as [row|] eqn:Hrow; simpl; [|done].
  intros Hx. split.
  - rewrite <- Hl. by eapply lookup_lt_Some.
  - rewrite <- (Hr row); [by eapply lookup_lt_Some|].
    apply list_elem_of_lookup. eauto.
Qed.

Section XShape.
Context {L : Type} `{EqDecision L}.
Implicit Types (G : Graph L) (h : store).

Lemma SPT_weighted_shape G r weight h T h' :
  Weighted._SPT G r weight h = (Ok T, h') → shape (order G) T.
Proof.
  intros (Gn & h1 & ps & _ & _ & _ & Hfill)%SPT_weighted_Ok.
  eapply mark_paths_shape; [exact Hfill|apply shape_zeros].
Qed.

Lemma SPT_unweighted_shape G r h T h' :
  Unweighted._SPT G r h = (Ok T, h') → shape (order G) T.
Proof.
  intros (Gn & ps & _ & _ & _ & Hfill)%SPT_unweighted_Ok.
  eapply mark_paths_shape; [exact Hfill|apply shape_zeros].
Qed.

Lemma accumulate_shape N (spt : nat → M matrix) ns S0 h S h' :
  (∀ n h1 T h2, spt n h1 = (Ok T, h2) → shape N T) →
  shape N S0 →
  for_acc ns (λ S n, T <- spt n ;; ret (madd S T)) S0 h = (Ok S, h') →
  shape N S.
Proof.
  intros Hspt H0 Hloop.
  apply (for_acc_inv (λ _ S, shape N S) _ _ _ _ _ _ Hloop); [done|].
  intros _ S1 n h1 S2 h2 IH (T & h3 & HT & Hret)%bind_Ok.
  injection Hret as <- _. apply madd_shape; [done|by eapply Hspt].
Qed.

(** X1.  The matrix either variant returns is square of the order of the
    graph: it has [N] rows of [N] entries, so exactly the index pairs below
    [N] have an entry. *)
Theorem salience_shape G weight h S :
  returns (Weighted.salience G weight) h S ∨ returns (Unweighted.salience G) h S →
  shape (order G) S ∧
  ∀ i j, is_Some (entry S i j) ↔ i < order G ∧ j < order G.
Proof.
  intros Hret.
  assert (shape (order G) S) as Hs.
  { destruct Hret as [[h' Hs]|[h' Hs]].
    - apply salience_weighted_Ok in Hs as (ns & S1 & h1 & _ & Hloop & ->).
      apply quotients_shape.
      eapply (accumulate_shape _ (λ n, Weighted._SPT G n weight));
        [|apply shape_zeros|exact Hloop].
      intros n h2 T h3 HT. by eapply SPT_weighted_shape.
    - apply salience_unweighted_Ok in Hs as (ns & S1 & h1 & _ & Hloop & ->).
      apply quotients_shape.
      eapply (accumulate_shape _ (λ n, Unweighted._SPT G n));
        [|apply shape_zeros|exact Hloop].
      intros n h2 T h3 HT. by eapply SPT_unweighted_shape. }
  split; [done|]. intros i j. split.
  - intros [x Hx]. by eapply entry_shape.
  - intros [Hi Hj]. by eapply shape_entry.
Qed.
End XShape.

Lemma weighted_by_has_reciprocal {A : Type} weight h (es : list (A * A * loc)) :
  weighted_by weight h es has_reciprocal →
  weights_outcome weight (dicts_of h es) = Ok tt.
Proof.
  intros Hw. apply weights_outcome_Ok.
  intros d (x & -> & Hx)%list_elem_of_fmap.
  destruct (Hw x Hx) as (d & w & Hd & Hdw & Hrec). rewrite Hd. simpl. eauto.
Qed.

(** The proximity loop on dictionaries whose weights all have a reciprocal:
    it completes, and every dictionary it visits gains ['proximity'] =
    [1./w]. *)
Lemma for_each_add_proximity_ok weight (es : list (nat * nat * loc)) hs :
  NoDup es.*2 → (∀ x, x ∈ es → x.2 < length hs) →
  weights_outcome weight (dicts_of hs es) = Ok tt →
  ∃ hs', for_each es (Weighted.add_proximity weight) hs = (Ok tt, hs') ∧
         length hs' = length hs ∧
         (∀ l, l ∉ es.*2 → hs' !! l = hs !! l) ∧
         (∀ x, x ∈ es → ∃ d w p, hs !! x.2 = Some d ∧ d !! weight = Some w ∧
                   reciprocal w = Ok p ∧
                   hs' !! x.2 = Some (<["proximity"%string := p]> d)).
Proof.
  revert hs. induction es as [|[[a b] l] es IH]; intros hs Hnd Hlen Herr.
  { exists hs. split_and!; [done..|]. by intros x ?%elem_of_nil. }
  rewrite fmap_cons in Hnd. apply NoDup_cons in Hnd as [Hl Hnd].
  assert (l < length hs) as Hll by (apply (Hlen (a, b, l)); left).
  destruct (lookup_lt_is_Some_2 hs l Hll) as [d Hd].
  unfold dicts_of in Herr. rewrite map_cons in Herr.
  cbn [weights_outcome snd] in Herr. rewrite Hd in Herr.
  cbn [default from_option id] in Herr. unfold id in Herr.
  destruct (d !! weight) as [w|] eqn:Hw; [|done].
  destruct (reciprocal w) as [p| |] eqn:Hp; [|done..]. cbn [obind] in Herr.
  assert (dicts_of (<[l := <["proximity"%string := p]> d]> hs) es = dicts_of hs es)
    as Hsame.
  { unfold dicts_of. apply map_ext_in. intros [[a' b'] l'] Hin. simpl.
    rewrite list_lookup_insert_ne; [done|]. intros ->. apply Hl.
    apply list_elem_of_In in Hin. apply list_elem_of_fmap. by exists (a', b', l'). }
  destruct (IH (<[l := <["proximity"%string := p]> d]> hs))
    as (hs' & Hrun & Hlen' & Hother & Hvisited); [done| |by rewrite Hsame|].
  { intros x Hx. rewrite length_insert. apply Hlen. by right. }
  exists hs'. split_and!.
  - cbn [for_each]. unfold bind at 1. rewrite add_proximity_step.
    rewrite Hd. cbn [default from_option id]. unfold id. by rewrite Hw, Hp.
  - by rewrite Hlen', length_insert.
  - intros l' Hl'. rewrite fmap_cons in Hl'.
    apply not_elem_of_cons in Hl' as [Hne Hl'].
    rewrite (Hother l' Hl'). by rewrite list_lookup_insert_ne.
  - intros x [->|Hx]%elem_of_cons.
    + simpl. exists d, w, p. split_and!; [done..|].
      rewrite (Hother l Hl). by rewrite list_lookup_insert_eq.
    + destruct (Hvisited x Hx) as (d' & w' & p' & Hd' & Hw' & Hp' & Hfin).
      exists d', w', p'. split_and!; [|done..].
      rewrite list_lookup_insert_ne in Hd'; [done|].
      intros ->. apply Hl. apply list_elem_of_fmap. by exists x.
Qed.

Section Entries.
Context {L : Type} `{EqDecision L}.
Implicit Types (G : Graph L) (h : store).

Lemma relabel_inj G x y :
  NoDup (nodes G) → x ∈ nodes G → y ∈ nodes G → relabel G x = relabel G y → x = y.
Proof.
  intros Hnd [i Hi]%list_elem_of_lookup [j Hj]%list_elem_of_lookup.
  rewrite (relabel_lookup G i x Hnd Hi), (relabel_lookup G j y Hnd Hj).
  intros ->. congruence.
Qed.

Lemma simple_no_loop G i : simple G → ¬ is_edge G i i.
Proof.
  intros (_ & _ & [Hnd Hends] & Hloop) (u & v & l & Hin & Hor).
  destruct (Hends u v l Hin) as [Hu Hv].
  apply (Hloop u v l Hin). apply (relabel_inj G); [done..|].
  destruct Hor as [[-> ->]|[-> ->]]; done.
Qed.

(** X2.  On a graph without self-loops the diagonal of the salience matrix is
    zero, in both variants. *)
Theorem salience_diagonal_zero G weight h S i x :
  simple G →
  returns (Weighted.salience G weight) h S ∨ returns (Unweighted.salience G) h S →
  entry S i i = Some x → (x == 0)%Q.
Proof.
  intros Hs Hret Hx.
  destruct (salience_entries G weight h S i i x Hret Hx) as [_ Hzero].
  apply Hzero. by apply simple_no_loop.
Qed.

(** X4.  The matrix of the builder is binary and supported on the edges:
    every entry is 0 or 1, and a 1 at [(a, b)] joins the two ends of an edge
    of the graph; in both variants. *)
Theorem SPT_binary_on_edges G r weight h T a b x :
  returns (Weighted._SPT G r weight) h T ∨ returns (Unweighted._SPT G r) h T →
  entry T a b = Some x →
  x = 0%Q ∨ (x = 1%Q ∧ is_edge G a b).
Proof.
  intros [[h' HT]|[h' HT]] Hx.
  - by eapply SPT_weighted_entry.
  - by eapply SPT_unweighted_entry.
Qed.

(** X5.  The unweighted variant never raises on an undirected graph without
    parallel edges: for every index below the order the builder returns a
    matrix, and the aggregator returns one. *)
Theorem salience_unweighted_returns G h :
  is_directed G = false → is_multigraph G = false → well_formed G →
  (∀ r h1, r < order G → ∃ T, returns (Unweighted._SPT G r) h1 T) ∧
  ∃ S, returns (Unweighted.salience G) h S.
Proof.
  intros Hd Hm Hwf. split.
  - intros r h1 Hr.
    destruct (SPT_unweighted_total G r h1 Hd Hm Hwf Hr) as (T & h2 & HT).
    exists T. by exists h2.
  - by apply salience_unweighted_total.
Qed.

(** X6.  A reference index that is not below the order is rejected with
    [NodeNotFound]: by the unweighted builder always, and by the weighted
    builder once the proximity weights could be computed, which is when
    every edge has a weight with a reciprocal. *)
Theorem SPT_rejects_unknown_reference G r weight h :
  is_directed G = false → is_multigraph G = false → NoDup (nodes G) →
  order G ≤ r →
  (∃ h', Unweighted._SPT G r h = (Raise NodeNotFound, h')) ∧
  (weighted_by weight h (edges G) has_reciprocal →
   ∃ h', Weighted._SPT G r weight h = (Raise NodeNotFound, h')).
Proof.
  intros Hd Hm Hnd Hr.
  assert (r ∉ seq 0 (order G)) as Hnot.
  { intros ?%elem_of_seq. lia. }
  split.
  - unfold Unweighted._SPT, not_implemented_for. rewrite Hd, Hm.
    unfold ret at 1, bind at 1.
    destruct (convert_spec G h) as (k & Hc & _).
    rewrite (bind_step _ _ _ _ _ Hc).
    unfold lift, bind, single_source_shortest_path. cbn [nodes].
    rewrite relabel_nodes by done. rewrite decide_False by done. by eexists.
  - intros Hw. unfold Weighted._SPT, not_implemented_for. rewrite Hd, Hm.
    unfold ret at 1, bind at 1.
    destruct (convert_spec G h) as (k & Hc & Hlen & Hcont).
    rewrite (bind_step _ _ _ _ _ Hc). cbn [edges].
    destruct (for_each_add_proximity_ok weight
                (copied_edges G (length h) (edges G)) (h ++ k))
      as (hs' & Hrun & _).
    + rewrite copied_edges_locs. apply NoDup_seq.
    + intros [[a b] l] Hin. apply copied_edges_fresh in Hin.
      rewrite length_app, Hlen. simpl. lia.
    + rewrite dicts_of_copy by done.
      apply weights_outcome_Ok. intros d [i Hi]%list_elem_of_lookup.
      assert (i < length (edges G)) as Hlt by (rewrite <- Hlen; by eapply lookup_lt_Some).
      apply lookup_lt_is_Some_2 in Hlt as [x Hx].
      destruct (Hw x) as (d' & w & Hd' & Hdw & Hnz); [apply list_elem_of_lookup; eauto|].
      rewrite (Hcont i x Hx) in Hi by (by eapply lookup_lt_Some).
      rewrite Hd' in Hi. injection Hi as <-. eauto.
    + rewrite (bind_step _ _ _ _ _ Hrun).
      unfold reading, bind, single_source_dijkstra_path. cbn [nodes].
      rewrite relabel_nodes by done. rewrite decide_False by done. by eexists.
Qed.

(** X7.  The first edge, in the order of the edges, whose weight is missing
    or has no reciprocal decides how the weighted variant fails, for any
    reference node of the builder and for the aggregator on a graph with a
    node: with [KeyError] when the edge lacks the attribute, with
    [OverflowError] when its weight is a Python int too large to convert to
    a float, with [TypeError] when its weight is no number. *)
Theorem unusable_weight_rejected G weight h i u v l d :
  is_directed G = false → is_multigraph G = false → nodes G ≠ [] →
  (∀ x, x ∈ edges G → x.2 < length h) →
  edges G !! i = Some (u, v, l) → h !! l = Some d →
  (∀ j x, j < i → edges G !! j = Some x →
     ∃ w, default ∅ (h !! x.2) !! weight = Some w ∧ has_reciprocal w) →
  (d !! weight = None →
     (∃ h', Weighted.salience G weight h = (Raise KeyError, h')) ∧
     ∀ r, ∃ h', Weighted._SPT G r weight h = (Raise KeyError, h')) ∧
  (∀ z, d !! weight = Some (PyInt z) → (float_overflow <= Z.abs z)%Z →
     (∃ h', Weighted.salience G weight h = (Raise OverflowError, h')) ∧
     ∀ r, ∃ h', Weighted._SPT G r weight h = (Raise OverflowError, h')) ∧
  (d !! weight = Some Other →
     (∃ h', Weighted.salience G weight h = (Raise TypeError, h')) ∧
     ∀ r, ∃ h', Weighted._SPT G r weight h = (Raise TypeError, h')).
Proof.
  intros Hd Hm Hns Halloc Hi Hl Hprev.
  assert (∀ e, weights_outcome weight (dicts_of h (edges G)) = Raise e →
            (∃ h', Weighted.salience G weight h = (Raise e, h')) ∧
            ∀ r, ∃ h', Weighted._SPT G r weight h = (Raise e, h')) as Hfail.
  { intros e He. split; [by apply salience_weighted_raises|].
    intros r. by apply (SPT_weighted_raises G r weight h h e). }
  assert (dicts_of h (edges G) !! i = Some d) as Hdi.
  { unfold dicts_of. rewrite list_lookup_fmap, Hi. simpl. by rewrite Hl. }
  assert (∀ j d', j < i → dicts_of h (edges G) !! j = Some d' →
            ∃ w, d' !! weight = Some w ∧ has_reciprocal w) as Hprev'.
  { intros j d' Hj Hd'. unfold dicts_of in Hd'. rewrite list_lookup_fmap in Hd'.
    destruct (edges G !! j) as [x|] eqn:Hx; [|done].
    injection Hd' as <-. by apply (Hprev j x). }
  pose proof (weights_outcome_first weight _ i d Hdi Hprev') as Hfirst.
  split_and!.
  - intros Hw. apply Hfail. by rewrite Hfirst, Hw.
  - intros z Hw Hz. apply Hfail. rewrite Hfirst, Hw. cbn [reciprocal].
    apply Z.leb_le in Hz. by rewrite Hz.
  - intros Hw. apply Hfail. by rewrite Hfirst, Hw.
Qed.
End Entries.

(** ** Every edge is used by its two ends (unweighted) *)

Lemma bfs_visit_persists pv ws st kp :
  kp ∈ st.1 → kp ∈ (bfs_visit pv ws st).1.
Proof.
  revert st. induction ws as [|w ws IH]; intros [ps nl] Hin; simpl; [done|].
  destruct (dict_mem w ps) eqn:Hmem; [by apply IH|].
  apply IH. simpl. rewrite dict_set_absent by done. apply elem_of_app. by left.
Qed.

Lemma bfs_visit_adds pv ws st w :
  w ∈ ws → dict_mem w st.1 = false → (w, pv ++ [w]) ∈ (bfs_visit pv ws st).1.
Proof.
  revert st. induction ws as [|w' ws IH]; intros [ps nl] Hw Hmem; [by apply elem_of_nil in Hw|].
  simpl in *. destruct (decide (w = w')) as [<-|Hne].
  - rewrite Hmem. apply bfs_visit_persists. simpl.
    rewrite dict_set_absent by done. apply elem_of_app. right. left.
  - apply elem_of_cons in Hw as [?|Hw]; [done|].
    destruct (dict_mem w' ps) eqn:Hmem'; [by apply IH|].
    apply IH; [done|]. simpl. rewrite dict_set_absent by done.
    destruct (dict_mem w (ps ++ [(w', pv ++ [w'])])) eqn:Hm; [|done].
    apply dict_mem_keys in Hm. rewrite fmap_app in Hm.
    apply elem_of_app in Hm as [Hm|Hm].
    + apply dict_mem_keys in Hm. congruence.
    + simpl in Hm. apply list_elem_of_singleton in Hm. done.
Qed.

Lemma bfs_level_persists Gn level st st' kp :
  bfs_level Gn level st = Ok st' → kp ∈ st.1 → kp ∈ st'.1.
Proof.
  revert st. induction level as [|v vs IH]; intros st; simpl; [by intros [= <-]|].
  destruct (dict_get v st.1) as [pv|]; [|done].
  intros Hrest Hin. apply (IH _ Hrest). by apply bfs_visit_persists.
Qed.

Lemma _single_shortest_path_persists fuel Gn nextlevel ps ps' kp :
  _single_shortest_path fuel Gn nextlevel ps = Ok ps' → kp ∈ ps → kp ∈ ps'.
Proof.
  revert nextlevel ps. induction fuel as [|fuel IH]; intros nextlevel ps.
  { destruct nextlevel; simpl; [by intros [= <-]|done]. }
  destruct nextlevel as [|v vs]; [by intros [= <-]|].
  cbn [_single_shortest_path].
  destruct (bfs_level Gn (v :: vs) (ps, [])) as [st| |] eqn:Hl; simpl; try done.
  intros Hrest Hin. apply (IH _ _ Hrest).
  by apply (bfs_level_persists _ _ _ _ _ Hl).
Qed.

(** The search gives every neighbour of the source the two-node path. *)
Lemma single_source_shortest_path_neighbour Gn r w ps :
  single_source_shortest_path Gn r = Ok ps → w ∈ adj Gn r → w ≠ r →
  (w, [r; w]) ∈ ps.
Proof.
  unfold single_source_shortest_path. case_decide; [|done].
  cbn [_single_shortest_path bfs_level dict_get fst]. rewrite decide_True by done.
  cbn [obind]. intros Hrest Hw Hne.
  apply (_single_shortest_path_persists _ _ _ _ _ _ Hrest).
  apply (bfs_visit_adds [r]); [done|]. simpl. unfold dict_mem. simpl.
  by rewrite decide_False.
Qed.

Lemma consecutive_cons_inv u p a b :
  consecutive (u :: p) a b → (a = u ∧ ∃ p', p = b :: p') ∨ consecutive p a b.
Proof.
  intros ([|x p1] & p2 & Heq); simpl in Heq.
  - injection Heq as -> ->. left. eauto.
  - injection Heq as -> ->. right. by exists p1, p2.
Qed.

Lemma mark_path_marks T p T' a b :
  mark_path T p = Ok T' → consecutive p a b → entry T' a b = Some 1%Q.
Proof.
  revert T. induction p as [|u p IH]; intros T.
  { intros _ ([|??] & ? & ?); done. }
  destruct p as [|v p].
  { intros _ ([|? [|??]] & ? & ?); done. }
  cbn [mark_path].
  destruct (set_entry T u v 1%Q) as [T1| |] eqn:Hset; simpl; try done.
  intros Hrest [[-> [p' [= <- _]]]|Hc]%consecutive_cons_inv.
  - destruct (mark_path_entry T1 (v :: p) T' u v Hrest) as [Heq|[H1 _]]; [|done].
    rewrite Heq, (entry_set_entry _ _ _ _ _ u v Hset). by rewrite decide_True.
  - by apply (IH T1).
Qed.

Lemma mark_paths_marks T ps T' k p a b :
  mark_paths T ps = Ok T' → (k, p) ∈ ps → consecutive p a b →
  entry T' a b = Some 1%Q.
Proof.
  revert T. induction ps as [|[k' p'] ps IH]; intros T; [by intros _ ?%elem_of_nil|].
  cbn [mark_paths].
  destruct (mark_path T p') as [T1| |] eqn:Hp; simpl; try done.
  intros Hrest [[= <- <-]|Hin]%elem_of_cons Hc.
  - destruct (mark_paths_entry T1 ps T' a b Hrest) as [Heq|[H1 _]]; [|done].
    rewrite Heq. by eapply mark_path_marks.
  - by apply (IH T1).
Qed.

Lemma adj_items_complete es a b l :
  (a, b, l) ∈ es → b ∈ (adj_items es a).*1 ∧ a ∈ (adj_items es b).*1.
Proof.
  induction es as [|[[a' b'] l'] es IH]; [by intros ?%elem_of_nil|].
  intros [[= <- <- <-]|Hin]%elem_of_cons.
  - simpl. rewrite decide_True by done. split; [left|].
    destruct (decide (a = b)) as [->|Hne]; [left|].
    rewrite decide_True by done. left.
  - destruct (IH Hin) as [Hb Ha]. simpl.
    split; repeat case_decide; simpl; try done; by right.
Qed.

(** The loop [S = S + _SPT(G, n)]: an entry that one of the trees marks ends
    at least at one. *)
Lemma accumulate_lower (spt : nat → M matrix) (ns : list nat) (S0 S : matrix)
    h h' a b n x :
  (∀ m h1 T h2 t, spt m h1 = (Ok T, h2) → entry T a b = Some t → (0 <= t)%Q) →
  (∀ h1 T h2, spt n h1 = (Ok T, h2) → entry T a b = Some 1%Q) →
  (∀ s, entry S0 a b = Some s → (0 <= s)%Q) →
  n ∈ ns →
  for_acc ns (λ S n, T <- spt n ;; ret (madd S T)) S0 h = (Ok S, h') →
  entry S a b = Some x → (1 <= x)%Q.
Proof.
  intros Hnonneg Hn.
  assert (∀ ns S0 h, (∀ s, entry S0 a b = Some s → (1 <= s)%Q) →
            for_acc ns (λ S n, T <- spt n ;; ret (madd S T)) S0 h = (Ok S, h') →
            entry S a b = Some x → (1 <= x)%Q) as Hkeep.
  { clear ns S0 h. intros ns. induction ns as [|m ns IH]; intros S0 h H1; simpl.
    - intros [= <- _]. apply H1.
    - intros (S1 & h1 & (T & h2 & HT & Hret)%bind_Ok & Hrest)%bind_Ok.
      injection Hret as <- <-. apply (IH (madd S0 T) h2); [|exact Hrest].
      intros s. rewrite entry_madd.
      destruct (entry S0 a b) as [s0|] eqn:Hs0; [|done].
      destruct (entry T a b) as [t|] eqn:Ht; [|done].
      intros [= <-]. pose proof (H1 s0 eq_refl).
      pose proof (Hnonneg _ _ _ _ _ HT Ht). lra. }
  revert S0 h. induction ns as [|m ns IH]; intros S0 h H0 Hin;
    [by apply elem_of_nil in Hin|].
  simpl. intros (S1 & h1 & (T & h2 & HT & Hret)%bind_Ok & Hrest)%bind_Ok.
  injection Hret as <- <-.
  destruct (decide (n = m)) as [<-|Hne].
  - apply (Hkeep ns (madd S0 T) h2); [|exact Hrest].
    intros s. rewrite entry_madd, (Hn _ _ _ HT).
    destruct (entry S0 a b) as [s0|] eqn:Hs0; [|done].
    intros [= <-]. pose proof (H0 s0 eq_refl). lra.
  - apply elem_of_cons in Hin as [?|Hin]; [done|].
    apply (IH (madd S0 T) h2); [|exact Hin|exact Hrest].
    intros s. rewrite entry_madd.
    destruct (entry S0 a b) as [s0|] eqn:Hs0; [|done].
    destruct (entry T a b) as [t|] eqn:Ht; [|done].
    intros [= <-]. pose proof (H0 s0 eq_refl).
    pose proof (Hnonneg _ _ _ _ _ HT Ht). lra.
Qed.

Lemma entry_zeros_nonneg n m a b s : entry (zeros n m) a b = Some s → (0 <= s)%Q.
Proof. intros ->%entry_zeros. lra. Qed.

Section EdgesUsed.
Context {L : Type} `{EqDecision L}.
Implicit Types (G : Graph L) (h : store).

Lemma salience_unweighted_loop G h S h' :
  Unweighted.salience G h = (Ok S, h') →
  ∃ S1 h1,
    for_acc (map (relabel G) (nodes G))
            (λ S n, T <- Unweighted._SPT G n ;; ret (madd S T))
            (zeros (order G) (order G)) h1 = (Ok S1, h') ∧
    S = quotients S1 (order G).
Proof.
  unfold Unweighted.salience, Unweighted.salience_by.
  destruct (convert_spec G h) as (k & Hc & _).
  rewrite (bind_step _ _ _ _ _ Hc).
  intros (S1 & h2 & Hloop & Hret)%bind_Ok. unfold lift in Hret.
  injection Hret as Hdiv <-. apply scale_div_Ok in Hdiv as ->.
  by eexists S1, _.
Qed.

Lemma copied_edges_elem G base u v l :
  (u, v, l) ∈ edges G →
  ∃ l', (relabel G u, relabel G v, l') ∈ copied_edges G base (edges G).
Proof.
  intros [k Hk]%list_elem_of_lookup. exists (base + k).
  apply list_elem_of_lookup. exists k. unfold copied_edges.
  by rewrite list_lookup_imap, Hk.
Qed.

Lemma is_edge_adj G base Gn i j :
  edges Gn = copied_edges G base (edges G) → is_edge G i j → j ∈ adj Gn i.
Proof.
  intros Hes (u & v & l & Hin & Hor). unfold adj. rewrite Hes.
  destruct (copied_edges_elem G base u v l Hin) as [l' Hl'].
  apply adj_items_complete in Hl' as [Hv Hu].
  destruct Hor as [[<- <-]|[<- <-]]; done.
Qed.

(** The tree of reference node [i] marks the step from [i] to each of its
    neighbours. *)
Lemma SPT_unweighted_marks_neighbour G i j h T h' :
  Unweighted._SPT G i h = (Ok T, h') → is_edge G i j → i ≠ j →
  entry T i j = Some 1%Q.
Proof.
  intros (Gn & ps & _ & Hes & Hps & Hfill)%SPT_unweighted_Ok Hedge Hne.
  apply (mark_paths_marks _ _ _ j [i; j] i j Hfill).
  - apply (single_source_shortest_path_neighbour Gn i j ps Hps); [|done].
    by eapply is_edge_adj.
  - apply consecutive_head.
Qed.

Lemma is_edge_in_range G i j :
  well_formed G → is_edge G i j →
  i < order G ∧ j < order G ∧ i ∈ map (relabel G) (nodes G).
Proof.
  intros [Hnd Hends] (u & v & l & Hin & Hor).
  destruct (Hends u v l Hin) as [Hu Hv].
  pose proof (relabel_in_range G u Hnd Hu). pose proof (relabel_in_range G v Hnd Hv).
  destruct Hor as [[<- <-]|[<- <-]]; split_and!; try done;
    apply list_elem_of_fmap; eauto.
Qed.

(** X8.  In the unweighted variant every edge has positive salience, in
    both orientations: the tree of each end marks the step to the other
    end, so the entry at two distinct joined indices is at least [1/N]. *)
Theorem salience_unweighted_positive_on_edges G h S i j :
  well_formed G → is_edge G i j → i ≠ j →
  returns (Unweighted.salience G) h S →
  ∃ x y, entry S i j = Some x ∧ entry S j i = Some y ∧
         (1 / Qnat (order G) <= x)%Q ∧ (1 / Qnat (order G) <= y)%Q ∧
         (0 < x)%Q ∧ (0 < y)%Q.
Proof.
  intros Hwf Hedge Hne [h' Hs].
  assert (∀ a b, is_edge G a b → a ≠ b →
            ∃ x, entry S a b = Some x ∧ (1 / Qnat (order G) <= x)%Q ∧ (0 < x)%Q)
    as Hone.
  { intros a b Hab Hneq.
    destruct (is_edge_in_range G a b Hwf Hab) as (Ha & Hb & Hain).
    pose proof (Qnat_pos (order G) ltac:(lia)) as Hpos.
    pose proof Hs as (S1 & h1 & Hloop & ->)%salience_unweighted_loop.
    assert (shape (order G) S1) as Hshape.
    { eapply (accumulate_shape _ (λ n, Unweighted._SPT G n));
        [|apply shape_zeros|exact Hloop].
      intros n h2 T h3 HT. by eapply SPT_unweighted_shape. }
    destruct (shape_entry _ _ a b Hshape Ha Hb) as [s Hs1].
    assert (1 <= s)%Q as Hge.
    { eapply (accumulate_lower (λ n, Unweighted._SPT G n));
        [| |apply entry_zeros_nonneg|exact Hain|exact Hloop|exact Hs1].
      - intros m h2 T h3 t HT Ht.
        destruct (SPT_unweighted_entry _ _ _ _ _ _ _ _ HT Ht) as [->|[-> _]]; lra.
      - intros h2 T h3 HT. by eapply SPT_unweighted_marks_neighbour. }
    exists (1 * s / Qnat (order G))%Q. rewrite entry_quotients, Hs1.
    assert (1 / Qnat (order G) <= 1 * s / Qnat (order G))%Q as Hle.
    { unfold Qdiv. apply Qmult_le_compat_r; [lra|].
      apply Qlt_le_weak, Qinv_lt_0_compat, Hpos. }
    split_and!; [done..|].
    eapply Qlt_le_trans; [|exact Hle].
    unfold Qdiv. rewrite Qmult_1_l. by apply Qinv_lt_0_compat. }
  destruct (Hone i j Hedge Hne) as (x & Hx & Hxl & Hxp).
  destruct (Hone j i (is_edge_sym G i j Hedge) (not_eq_sym Hne)) as (y & Hy & Hyl & Hyp).
  by exists x, y.
Qed.
End EdgesUsed.

Lemma path3_well_formed : well_formed path3.
Proof.
  split; [exact (NoDup_seq 0 3)|].
  intros u v l Hin. simpl in Hin.
  apply elem_of_cons in Hin as [[= -> -> ->]|Hin].
  { split; simpl; set_solver. }
  apply list_elem_of_singleton in Hin as [= -> -> ->].
  split; simpl; set_solver.
Qed.

Lemma path3_simple : simple path3.
Proof.
  split; [done|]. split; [done|]. split; [exact path3_well_formed|].
  intros u v l Hin. simpl in Hin.
  apply elem_of_cons in Hin as [[= -> -> ->]|Hin]; [done|].
  by apply list_elem_of_singleton in Hin as [= -> -> ->].
Qed.

Lemma path3_edge_0_1 : is_edge path3 0 1.
Proof. exists 0, 1, 0. split; [left|]. left. by vm_compute. Qed.

Lemma path3_tree_returns :
  returns (Weighted._SPT path3 0 "weight") unit_weights tree_path3_0 ∧
  returns (Unweighted._SPT path3 0) unit_weights tree_path3_0.
Proof. split; apply returns_fst; vm_compute; reflexivity. Qed.

Lemma unit_weights_usable :
  weighted_by "weight" unit_weights (edges path3) has_reciprocal.
Proof.
  intros x Hin. simpl in Hin.
  apply elem_of_cons in Hin as [->|Hin].
  { eexists _, (PyInt 1). split_and!; [reflexivity|reflexivity|by eexists]. }
  apply list_elem_of_singleton in Hin as ->.
  eexists _, (PyInt 1). split_and!; [reflexivity|reflexivity|by eexists].
Qed.

Lemma salience_shape_witness :
  (returns (Weighted.salience path3 "weight") unit_weights salience_path3 ∨
   returns (Unweighted.salience path3) unit_weights salience_path3) ∧
  shape 3 salience_path3 ∧
  (is_Some (entry salience_path3 2 2) ↔ 2 < 3 ∧ 2 < 3).
Proof.
  assert (returns (Weighted.salience path3 "weight") unit_weights salience_path3 ∨
          returns (Unweighted.salience path3) unit_weights salience_path3) as Hret.
  { left. apply path3_returns. }
  split; [exact Hret|].
  destruct (salience_shape path3 "weight" unit_weights salience_path3 Hret)
    as [Hshape Hdom].
  split; [exact Hshape|apply Hdom].
Defined.

Lemma salience_diagonal_zero_witness :
  simple path3 ∧
  (returns (Weighted.salience path3 "weight") unit_weights salience_path3 ∨
   returns (Unweighted.salience path3) unit_weights salience_path3) ∧
  entry salience_path3 1 1 = Some (0 # 3)%Q ∧ (0 # 3 == 0)%Q.
Proof.
  assert (returns (Weighted.salience path3 "weight") unit_weights salience_path3 ∨
          returns (Unweighted.salience path3) unit_weights salience_path3) as Hret.
  { right. apply path3_returns. }
  split_and!; [exact path3_simple|exact Hret|reflexivity|].
  exact (salience_diagonal_zero path3 "weight" unit_weights salience_path3 1 (0 # 3)%Q
           path3_simple Hret eq_refl).
Defined.

Lemma SPT_binary_on_edges_witness :
  (returns (Weighted._SPT path3 0 "weight") unit_weights tree_path3_0 ∨
   returns (Unweighted._SPT path3 0) unit_weights tree_path3_0) ∧
  entry tree_path3_0 0 1 = Some 1%Q ∧
  (1%Q = 0%Q ∨ (1%Q = 1%Q ∧ is_edge path3 0 1)).
Proof.
  assert (returns (Weighted._SPT path3 0 "weight") unit_weights tree_path3_0 ∨
          returns (Unweighted._SPT path3 0) unit_weights tree_path3_0) as Hret.
  { right. apply path3_tree_returns. }
  split_and!; [exact Hret|reflexivity|].
  exact (SPT_binary_on_edges path3 0 "weight" unit_weights tree_path3_0 0 1 1%Q
           Hret eq_refl).
Defined.

Lemma salience_unweighted_returns_witness :
  is_directed path3 = false ∧ is_multigraph path3 = false ∧ well_formed path3 ∧
  (∀ r h1, r < 3 → ∃ T, returns (Unweighted._SPT path3 r) h1 T) ∧
  ∃ S, returns (Unweighted.salience path3) unit_weights S.
Proof.
  split_and!; [done|done|exact path3_well_formed|..];
    apply (salience_unweighted_returns path3 unit_weights eq_refl eq_refl
             path3_well_formed).
Defined.

Lemma SPT_rejects_unknown_reference_witness :
  is_directed path3 = false ∧ is_multigraph path3 = false ∧
  NoDup (nodes path3) ∧ order path3 ≤ 5 ∧
  weighted_by "weight" unit_weights (edges path3) has_reciprocal ∧
  (∃ h', Unweighted._SPT path3 5 unit_weights = (Raise NodeNotFound, h')) ∧
  (∃ h', Weighted._SPT path3 5 "weight" unit_weights = (Raise NodeNotFound, h')).
Proof.
  assert (order path3 ≤ 5) as Hr by (unfold order; simpl; lia).
  destruct (SPT_rejects_unknown_reference path3 5 "weight" unit_weights
              eq_refl eq_refl path3_nodes_NoDup Hr) as [Hu Hw].
  split_and!; [done|done|exact path3_nodes_NoDup|exact Hr|exact unit_weights_usable
              |exact Hu|exact (Hw unit_weights_usable)].
Defined.

Lemma unusable_weight_rejected_witness :
  is_directed path3 = false ∧ is_multigraph path3 = false ∧ nodes path3 ≠ [] ∧
  (∀ x, x ∈ edges path3 → x.2 < length huge_then_one) ∧
  edges path3 !! 0 = Some (0, 1, 0) ∧
  huge_then_one !! 0 = Some ({[ "weight"%string := PyInt (2 ^ 1024) ]} : attrs) ∧
  (∀ j x, j < 0 → edges path3 !! j = Some x →
     ∃ w, default ∅ (huge_then_one !! x.2) !! "weight"%string = Some w ∧
          has_reciprocal w) ∧
  (float_overflow <= Z.abs (2 ^ 1024))%Z ∧
  (∃ h', Weighted.salience path3 "weight" huge_then_one = (Raise OverflowError, h')) ∧
  ∀ r, ∃ h', Weighted._SPT path3 r "weight" huge_then_one = (Raise OverflowError, h').
Proof.
  assert (∀ j x, j < 0 → edges path3 !! j = Some x →
     ∃ w, default ∅ (huge_then_one !! x.2) !! "weight"%string = Some w ∧
          has_reciprocal w) as Hprev by (intros j x Hj; lia).
  assert (float_overflow <= Z.abs (2 ^ 1024))%Z as Hbig by (by vm_compute).
  destruct (unusable_weight_rejected path3 "weight" huge_then_one 0 0 1 0
              ({[ "weight"%string := PyInt (2 ^ 1024) ]} : attrs)
              eq_refl eq_refl ltac:(done)
              (path3_edges_allocated huge_then_one eq_refl)
              eq_refl eq_refl Hprev) as (_ & Hover & _).
  destruct (Hover (2 ^ 1024)%Z eq_refl Hbig) as [Hsal Hspt].
  split_and!; [done|done|done|exact (path3_edges_allocated huge_then_one eq_refl)
              |done|done|exact Hprev|exact Hbig|exact Hsal|exact Hspt].
Defined.

Lemma salience_unweighted_positive_on_edges_witness :
  well_formed path3 ∧ is_edge path3 0 1 ∧ 0 ≠ 1 ∧
  returns (Unweighted.salience path3) unit_weights salience_path3 ∧
  ∃ x y, entry salience_path3 0 1 = Some x ∧ entry salience_path3 1 0 = Some y ∧
         (1 / Qnat 3 <= x)%Q ∧ (1 / Qnat 3 <= y)%Q ∧ (0 < x)%Q ∧ (0 < y)%Q.
Proof.
  split_and!; [exact path3_well_formed|exact path3_edge_0_1|done
              |apply path3_returns|].
  apply (salience_unweighted_positive_on_edges path3 unit_weights salience_path3 0 1
           path3_well_formed path3_edge_0_1 ltac:(done)).
  apply path3_returns.
Defined.

(** ** The reported paths form a tree *)

Lemma dict_unique {V : Type} (d : list (nat * V)) k x y :
  NoDup d.*1 → (k, x) ∈ d → (k, y) ∈ d → x = y.
Proof.
  induction d as [|[k' v'] d IH]; simpl; [by intros _ ?%elem_of_nil|].
  intros [Hk Hnd]%NoDup_cons Hx Hy.
  assert (∀ z, (k', z) ∈ d → False) as Hfresh.
  { intros z Hz. apply Hk. apply list_elem_of_fmap. by exists (k', z). }
  apply elem_of_cons in Hx as [Hx|Hx]; apply elem_of_cons in Hy as [Hy|Hy].
  - congruence.
  - injection Hx as -> ->. by destruct (Hfresh y).
  - injection Hy as -> ->. by destruct (Hfresh x).
  - by apply IH.
Qed.

Lemma tree_paths_parent r ps k p a b :
  tree_paths r ps → (k, p) ∈ ps → consecutive p a b →
  ∃ q, (b, q ++ [b]) ∈ ps ∧ last q = Some a.
Proof.
  intros (Hnd & Hroot & Htree). revert k.
  induction p as [|x p0 IH] using rev_ind; intros k Hin Hc.
  { destruct Hc as ([|??] & ? & ?); done. }
  destruct (Htree k _ Hin) as [Hlast Hparent].
  rewrite last_snoc in Hlast. injection Hlast as ->.
  destruct Hparent as [Heq|(k' & p' & Hin' & Heq)].
  - destruct p0 as [|? [|??]]; try done. destruct Hc as ([|? [|??]] & ? & ?); done.
  - apply app_inj_tail in Heq as [-> _].
    apply consecutive_snoc in Hc as [Hc|[Ha ->]].
    + by apply (IH k').
    + by exists p'.
Qed.

Lemma tree_paths_head r ps k p :
  tree_paths r ps → (k, p) ∈ ps → head p = Some r.
Proof.
  intros (Hnd & Hroot & Htree). revert k.
  induction p as [|x p0 IH] using rev_ind; intros k Hin.
  { destruct (Htree k _ Hin) as [Hlast _]. done. }
  destruct (Htree k _ Hin) as [_ [Heq|(k' & p' & Hin' & Heq)]].
  - by rewrite Heq.
  - apply app_inj_tail in Heq as [-> _].
    destruct (Htree k' _ Hin') as [Hlast' _].
    specialize (IH k' Hin'). destruct p'; [done|]. done.
Qed.

(** Every reported path is a chain of ones from the root to its key. *)
Lemma fill_chain n r ps T k p :
  tree_paths r ps → mark_paths (zeros n n) ps = Ok T → (k, p) ∈ ps →
  head p = Some r ∧ last p = Some k ∧
  ∀ x y, consecutive p x y → entry T x y = Some 1%Q.
Proof.
  intros Htree Hfill Hin. split_and!.
  - by eapply tree_paths_head.
  - destruct Htree as (_ & _ & Htree). by destruct (Htree k p Hin).
  - intros x y Hc. by eapply mark_paths_marks.
Qed.

(** Every one of the matrix ends a chain of ones that starts at the root. *)
Lemma fill_rooted n r ps T a b :
  tree_paths r ps → mark_paths (zeros n n) ps = Ok T →
  entry T a b = Some 1%Q →
  ∃ p, head p = Some r ∧ last p = Some b ∧
       ∀ x y, consecutive p x y → entry T x y = Some 1%Q.
Proof.
  intros Htree Hfill Hone.
  destruct (fill_entry _ _ _ _ _ _ Hfill Hone) as [?|[_ (k & pk & Hk & Hc)]]; [done|].
  destruct (tree_paths_parent _ _ _ _ _ _ Htree Hk Hc) as (q & Hb & _).
  exists (q ++ [b]). by eapply fill_chain.
Qed.

Lemma tree_paths_in_weaken fin r ps : tree_paths_in fin r ps → tree_paths r ps.
Proof.
  intros (Hnd & Hroot & Htree). split_and!; [done..|].
  intros k p Hin. destruct (Htree k p Hin) as [Hlast [->|(k' & p' & ? & _ & ?)]];
    split; eauto.
Qed.

(** In the filled matrix every index has at most one predecessor, and the
    root has none. *)
Lemma fill_tree n r ps T :
  tree_paths r ps → mark_paths (zeros n n) ps = Ok T →
  (∀ a, entry T a r ≠ Some 1%Q) ∧
  (∀ a a' b, entry T a b = Some 1%Q → entry T a' b = Some 1%Q → a = a').
Proof.
  intros Htree Hfill.
  assert (∀ a b, entry T a b = Some 1%Q →
            ∃ q, (b, q ++ [b]) ∈ ps ∧ last q = Some a) as Hparent.
  { intros a b Hab.
    destruct (fill_entry _ _ _ _ _ _ Hfill Hab) as [?|[_ (k & p & Hin & Hc)]]; [done|].
    by eapply tree_paths_parent. }
  destruct Htree as (Hnd & Hroot & _). split.
  - intros a (q & Hq & Hlast)%Hparent.
    pose proof (dict_unique _ _ _ _ Hnd Hq Hroot) as Heq.
    destruct q as [|? [|??]]; done.
  - intros a a' b (q & Hq & Hlast)%Hparent (q' & Hq' & Hlast')%Hparent.
    pose proof (dict_unique _ _ _ _ Hnd Hq Hq') as Heq.
    apply app_inj_tail in Heq as [Heq _]. subst q'. rewrite Hlast in Hlast'.
    by injection Hlast'.
Qed.

(** *** Breadth-first search *)

Lemma tree_paths_snoc r ps v pv w :
  tree_paths r ps → (v, pv) ∈ ps → dict_mem w ps = false →
  tree_paths r (ps ++ [(w, pv ++ [w])]).
Proof.
  intros (Hnd & Hroot & Htree) Hv Hw. split_and!.
  - rewrite fmap_app. apply NoDup_app. split_and!; [done| |apply NoDup_singleton].
    intros k Hk Hk'. apply list_elem_of_singleton in Hk' as ->.
    apply dict_mem_keys in Hk. simpl in Hk. congruence.
  - apply elem_of_app. by left.
  - intros k p [Hin|Hin]%elem_of_app.
    + destruct (Htree k p Hin) as [Hlast [->|(k' & p' & Hin' & ->)]];
        (split; [done|]); [by left|right].
      exists k', p'. split; [|done]. apply elem_of_app. by left.
    + apply list_elem_of_singleton in Hin as [= -> ->].
      split; [apply last_snoc|right]. exists v, pv. split; [|done].
      apply elem_of_app. by left.
Qed.

Lemma bfs_visit_tree r pv v ws st :
  tree_paths r st.1 → (v, pv) ∈ st.1 → tree_paths r (bfs_visit pv ws st).1.
Proof.
  revert st. induction ws as [|w ws IH]; intros [ps nl] Htree Hv; simpl; [done|].
  destruct (dict_mem w ps) eqn:Hmem; [by apply IH|].
  rewrite dict_set_absent by done. apply IH; simpl.
  - by eapply tree_paths_snoc.
  - apply elem_of_app. by left.
Qed.

Lemma bfs_level_tree r Gn level st st' :
  bfs_level Gn level st = Ok st' → tree_paths r st.1 → tree_paths r st'.1.
Proof.
  revert st. induction level as [|v vs IH]; intros st; simpl; [by intros [= <-]|].
  destruct (dict_get v st.1) as [pv|] eqn:Hpv; [|done].
  intros Hrest Htree. apply (IH _ Hrest).
  eapply bfs_visit_tree; [done|]. by apply dict_get_elem.
Qed.

Lemma _single_shortest_path_tree r fuel Gn nextlevel ps ps' :
  _single_shortest_path fuel Gn nextlevel ps = Ok ps' →
  tree_paths r ps → tree_paths r ps'.
Proof.
  revert nextlevel ps. induction fuel as [|fuel IH]; intros nextlevel ps.
  { destruct nextlevel; simpl; [by intros [= <-]|done]. }
  destruct nextlevel as [|v vs]; [by intros [= <-]|].
  cbn [_single_shortest_path].
  destruct (bfs_level Gn (v :: vs) (ps, [])) as [st| |] eqn:Hl; simpl; try done.
  intros Hrest Htree. apply (IH _ _ Hrest).
  by apply (bfs_level_tree r _ _ _ _ Hl).
Qed.

Lemma tree_paths_init r : tree_paths r [(r, [r])].
Proof.
  split_and!; [apply NoDup_singleton|left|].
  intros k p [= -> ->]%list_elem_of_singleton. split; [done|by left].
Qed.

Lemma single_source_shortest_path_tree Gn r ps :
  single_source_shortest_path Gn r = Ok ps → tree_paths r ps.
Proof.
  unfold single_source_shortest_path. case_decide; [|done].
  intros Hbfs. apply (_single_shortest_path_tree r _ _ _ _ _ Hbfs), tree_paths_init.
Qed.

(** *** Dijkstra *)

Lemma dict_set_keys {V : Type} k (v : V) d :
  (dict_set k v d).*1 = if dict_mem k d then d.*1 else d.*1 ++ [k].
Proof.
  unfold dict_mem. induction d as [|[k' v'] d IH]; [done|].
  cbn [dict_set dict_get]. case_decide; subst; [by rewrite !fmap_cons|].
  rewrite !fmap_cons, IH. by destruct (dict_get k d).
Qed.

Lemma dict_set_NoDup {V : Type} k (v : V) d :
  NoDup d.*1 → NoDup (dict_set k v d).*1.
Proof.
  intros Hnd. rewrite dict_set_keys. destruct (dict_mem k d) eqn:Hm; [done|].
  apply NoDup_app. split_and!; [done| |apply NoDup_singleton].
  intros k' Hk' ->%list_elem_of_singleton.
  apply dict_mem_keys in Hk'. congruence.
Qed.

Lemma dict_set_self {V : Type} k (v : V) d : (k, v) ∈ dict_set k v d.
Proof.
  induction d as [|[k' v'] d IH]; simpl; [left|].
  case_decide; [left|by right].
Qed.

Lemma dict_set_other {V : Type} k (v : V) d k' v' :
  (k', v') ∈ d → k' ≠ k → (k', v') ∈ dict_set k v d.
Proof.
  induction d as [|[k1 v1] d IH]; simpl; [by intros ?%elem_of_nil|].
  intros [[= -> ->]|Hin]%elem_of_cons Hne.
  - rewrite decide_False by done. left.
  - case_decide; right; [done|by apply IH].
Qed.

Lemma dict_set_elem_sharp {V : Type} k (v : V) d k' v' :
  NoDup d.*1 → (k', v') ∈ dict_set k v d →
  (k', v') = (k, v) ∨ (k' ≠ k ∧ (k', v') ∈ d).
Proof.
  intros Hnd Hin. destruct (decide (k' = k)) as [->|Hne].
  - left. f_equal.
    eapply (dict_unique (dict_set k v d)); [by apply dict_set_NoDup|done|].
    apply dict_set_self.
  - right. split; [done|].
    apply dict_set_elem in Hin as [[= ? ?]|Hin]; done.
Qed.

Lemma dict_mem_set {V : Type} k (v : V) d k' :
  dict_mem k' (dict_set k v d) = true ↔ k' = k ∨ dict_mem k' d = true.
Proof.
  rewrite !dict_mem_keys, dict_set_keys.
  destruct (dict_mem k d) eqn:Hm.
  - apply dict_mem_keys in Hm. split; [by right|]. by intros [->|?].
  - rewrite elem_of_app, list_elem_of_singleton. tauto.
Qed.

Lemma heap_min_elem x xs : heap_min x xs ∈ x :: xs.
Proof.
  revert x. induction xs as [|y ys IH]; intros x; simpl; [left|].
  specialize (IH (if item_ltb y x then y else x)).
  apply elem_of_cons in IH as [->|IH].
  - destruct (item_ltb y x); [right; left|left].
  - right. by right.
Qed.

Lemma heappop_elem fr m fr' : heappop fr = Some (m, fr') → m ∈ fr.
Proof.
  destruct fr as [|x xs]; [done|]. simpl. intros [= <- _]. apply heap_min_elem.
Qed.

Lemma tree_paths_in_grow fin fin' r ps :
  (∀ k, dict_mem k fin = true → dict_mem k fin' = true) →
  tree_paths_in fin r ps → tree_paths_in fin' r ps.
Proof.
  intros Hsub (Hnd & Hroot & Htree). split_and!; [done..|].
  intros k p Hin.
  destruct (Htree k p Hin) as [Hlast [->|(k' & p' & Hin' & Hk' & ->)]];
    (split; [done|]); [by left|right].
  exists k', p'. eauto.
Qed.

Lemma relax_tree r h key v d st ue st' :
  relax h key v d st ue = Ok st' →
  tree_paths_in (dist st) r (paths st) →
  dict_mem r (dist st) = true → dict_mem v (dist st) = true →
  tree_paths_in (dist st') r (paths st') ∧ dist st' = dist st.
Proof.
  destruct ue as [u l]. unfold relax. intros Hr Htree Hroot Hv.
  assert (∀ st'', match dict_get v (paths st) with
          | Some pv =>
              Ok (mkDijkstra (dist st) (dict_set u (d + weight_function key (default ∅ (h !! l)))%Q (seen st))
                    (fringe st ++ [((d + weight_function key (default ∅ (h !! l)))%Q, counter st, u)])
                    (S (counter st)) (dict_set u (pv ++ [u]) (paths st)))
          | None => Raise KeyError
          end = Ok st'' → dict_mem u (dist st) = false →
          tree_paths_in (dist st'') r (paths st'') ∧ dist st'' = dist st) as Hpush.
  { intros st''. destruct (dict_get v (paths st)) as [pv|] eqn:Hpv; [|done].
    intros [= <-] Hu. simpl. split; [|done].
    destruct Htree as (Hnd & Hr0 & Htree).
    assert (u ≠ r) as Hur by (intros ->; congruence).
    assert (u ≠ v) as Huv by (intros ->; congruence).
    apply dict_get_elem in Hpv.
    split_and!.
    - by apply dict_set_NoDup.
    - by apply dict_set_other.
    - intros k p Hin.
      apply dict_set_elem_sharp in Hin as [[= -> ->]|[Hne Hin]]; [| |done].
      + split; [apply last_snoc|right]. exists v, pv.
        split_and!; [by apply dict_set_other|done..].
      + destruct (Htree k p Hin) as [Hlast [->|(k' & p' & Hin' & Hk' & ->)]];
          (split; [done|]); [by left|right].
        exists k', p'. split_and!; [|done..].
        apply dict_set_other; [done|]. intros ->. congruence. }
  unfold dict_mem in Hpush.
  destruct (dict_get u (dist st)) as [ud|] eqn:Hud.
  { destruct (Qltb _ ud); [done|]. by injection Hr as <-. }
  destruct (dict_get u (seen st)) as [su|]; [|by apply Hpush].
  destruct (Qltb _ su); [by apply Hpush|]. by injection Hr as <-.
Qed.

Lemma relax_all_tree r h key v d ues st st' :
  relax_all h key v d ues st = Ok st' →
  tree_paths_in (dist st) r (paths st) →
  dict_mem r (dist st) = true → dict_mem v (dist st) = true →
  tree_paths_in (dist st') r (paths st') ∧ dist st' = dist st.
Proof.
  revert st. induction ues as [|ue ues IH]; intros st; simpl.
  - by intros [= <-].
  - destruct (relax h key v d st ue) as [st1| |] eqn:Hr; simpl; try done.
    intros Hrest Htree Hroot Hv.
    destruct (relax_tree r _ _ _ _ _ _ _ Hr Htree Hroot Hv) as [Htree1 Hd1].
    destruct (IH st1 Hrest) as [Htree' Hd']; [done|by rewrite Hd1..|].
    split; [done|congruence].
Qed.

Lemma _dijkstra_multisource_tree r fuel Gn h key st ps :
  _dijkstra_multisource fuel Gn h key st = Ok ps →
  tree_paths_in (dist st) r (paths st) →
  dict_mem r (dist st) = true ∨ (dist st = [] ∧ ∀ x, x ∈ fringe st → x.2 = r) →
  tree_paths r ps.
Proof.
  revert st. induction fuel as [|fuel IH]; intros st; simpl.
  { destruct (heappop (fringe st)) as [[[[d c] v] fr]|]; [done|].
    intros [= <-] Htree _. by eapply tree_paths_in_weaken. }
  destruct (heappop (fringe st)) as [[[[d c] v] fr]|] eqn:Hpop.
  2:{ intros [= <-] Htree _. by eapply tree_paths_in_weaken. }
  apply heappop_elem in Hpop. simpl.
  destruct (dict_mem v (dist st)) eqn:Hv.
  - intros Hrest Htree Hroot. apply (IH _ Hrest); simpl; [done|].
    destruct Hroot as [?|[Hnil _]]; [by left|]. rewrite Hnil in Hv. done.
  - destruct (relax_all _ _ _ _ _ _) as [st1| |] eqn:Hr; simpl; try done.
    intros Hrest Htree Hroot.
    destruct (relax_all_tree r _ _ _ _ _ _ _ Hr) as [Htree1 Hd1]; simpl.
    + eapply tree_paths_in_grow; [|exact Htree].
      intros k Hk. apply dict_mem_set. by right.
    + apply dict_mem_set. destruct Hroot as [?|[_ Hall]]; [by right|left].
      symmetry. apply (Hall _ Hpop).
    + apply dict_mem_set. by left.
    + apply (IH _ Hrest); [done|]. left. rewrite Hd1. simpl.
      apply dict_mem_set. destruct Hroot as [?|[_ Hall]]; [by right|left].
      symmetry. apply (Hall _ Hpop).
Qed.

Lemma single_source_dijkstra_path_tree Gn h r key ps :
  single_source_dijkstra_path Gn h r key = Ok ps → tree_paths r ps.
Proof.
  unfold single_source_dijkstra_path. case_decide; [|done].
  intros Hd. apply (_dijkstra_multisource_tree r _ _ _ _ _ _ Hd); simpl.
  - split_and!; [apply NoDup_singleton|left|].
    intros k p [= -> ->]%list_elem_of_singleton. split; [done|by left].
  - right. split; [done|]. by intros x ->%list_elem_of_singleton.
Qed.

(** ** The builder's matrix is a tree directed away from the reference *)

Lemma sum_bound (c : nat → nat) (l : list nat) :
  (∀ b, b ∈ l → c b ≤ 1) → sum_list (map c l) ≤ length l.
Proof.
  induction l as [|b l IH]; intros Hc; simpl; [done|].
  pose proof (Hc b ltac:(left)). pose proof (IH (λ b' Hb', Hc b' ltac:(by right))).
  lia.
Qed.

Lemma sum_bound_strict (c : nat → nat) (l : list nat) r :
  (∀ b, b ∈ l → c b ≤ 1) → r ∈ l → c r = 0 →
  sum_list (map c l) + 1 ≤ length l.
Proof.
  induction l as [|b l IH]; intros Hc Hr H0; [by apply elem_of_nil in Hr|].
  simpl. pose proof (Hc b ltac:(left)) as Hb.
  assert (∀ b', b' ∈ l → c b' ≤ 1) as Hc' by (intros b' Hb'; apply Hc; by right).
  apply elem_of_cons in Hr as [->|Hr].
  - pose proof (sum_bound c l Hc'). lia.
  - pose proof (IH Hc' Hr H0). lia.
Qed.

Lemma length_le_1 (l : list nat) :
  NoDup l → (∀ x y, x ∈ l → y ∈ l → x = y) → length l ≤ 1.
Proof.
  intros Hnd Heq. destruct l as [|x [|y l]]; simpl; [lia..|].
  apply NoDup_cons in Hnd as [Hx _]. destruct Hx.
  rewrite (Heq x y); [left|left|right; left].
Qed.

Lemma is_one_binary T a b :
  (∀ x, entry T a b = Some x → x = 0%Q ∨ x = 1%Q) →
  is_one (entry T a b) = true → entry T a b = Some 1%Q.
Proof.
  intros Hbin. unfold is_one. destruct (entry T a b) as [x|]; [|done].
  destruct (Hbin x eq_refl) as [-> | ->]; done.
Qed.

(** A binary matrix in which every column has at most one 1 and column [r]
    has none has fewer ones than columns. *)
Lemma count_ones_tree N T r :
  shape N T → r < N →
  (∀ a b x, entry T a b = Some x → x = 0%Q ∨ x = 1%Q) →
  (∀ a, entry T a r ≠ Some 1%Q) →
  (∀ a a' b, entry T a b = Some 1%Q → entry T a' b = Some 1%Q → a = a') →
  count_ones T + 1 ≤ N.
Proof.
  intros [Hlen _] Hr Hbin Hroot Huniq. unfold count_ones. rewrite Hlen.
  replace N with (length (seq 0 N)) at 2 by apply length_seq.
  apply (sum_bound_strict _ _ r).
  - intros b _. apply length_le_1.
    + apply NoDup_filter, NoDup_seq.
    + intros a a' [Ha _]%list_elem_of_filter [Ha' _]%list_elem_of_filter.
      apply (Huniq a a' b); (apply is_one_binary; [apply Hbin|done]).
  - apply elem_of_seq. lia.
  - unfold column_ones. rewrite Hlen.
    destruct (filter (λ a, is_one (entry T a r) = true) (seq 0 N)) as [|a l] eqn:Hf;
      [done|].
    assert (a ∈ filter (λ a, is_one (entry T a r) = true) (seq 0 N)) as Ha.
    { rewrite Hf. left. }
    apply list_elem_of_filter in Ha as [Ha _].
    destruct (Hroot a). apply is_one_binary; [apply Hbin|done].
Qed.

Section Tree.
Context {L : Type} `{EqDecision L}.
Implicit Types (G : Graph L) (h : store).

Lemma SPT_tree G r weight h T :
  returns (Weighted._SPT G r weight) h T ∨ returns (Unweighted._SPT G r) h T →
  (∀ a, entry T a r ≠ Some 1%Q) ∧
  (∀ a a' b, entry T a b = Some 1%Q → entry T a' b = Some 1%Q → a = a').
Proof.
  intros [[h' HT]|[h' HT]].
  - apply SPT_weighted_Ok in HT as (Gn & h1 & ps & _ & _ & Hps & Hfill).
    eapply fill_tree; [|exact Hfill].
    by eapply single_source_dijkstra_path_tree.
  - apply SPT_unweighted_Ok in HT as (Gn & ps & _ & _ & Hps & Hfill).
    eapply fill_tree; [|exact Hfill].
    by eapply single_source_shortest_path_tree.
Qed.

Lemma SPT_rooted G r weight h T a b :
  returns (Weighted._SPT G r weight) h T ∨ returns (Unweighted._SPT G r) h T →
  entry T a b = Some 1%Q →
  ∃ p, head p = Some r ∧ last p = Some b ∧
       ∀ x y, consecutive p x y → entry T x y = Some 1%Q.
Proof.
  intros [[h' HT]|[h' HT]].
  - apply SPT_weighted_Ok in HT as (Gn & h1 & ps & _ & _ & Hps & Hfill).
    eapply fill_rooted; [|exact Hfill].
    by eapply single_source_dijkstra_path_tree.
  - apply SPT_unweighted_Ok in HT as (Gn & ps & _ & _ & Hps & Hfill).
    eapply fill_rooted; [|exact Hfill].
    by eapply single_source_shortest_path_tree.
Qed.

Lemma SPT_reference_in_range G r weight h T :
  NoDup (nodes G) →
  returns (Weighted._SPT G r weight) h T ∨ returns (Unweighted._SPT G r) h T →
  r < order G.
Proof.
  intros Hnd [[h' HT]|[h' HT]].
  - apply SPT_weighted_Ok in HT as (Gn & h1 & ps & Hns & _ & Hps & _).
    unfold single_source_dijkstra_path in Hps. case_decide as Hr; [|done].
    rewrite Hns, relabel_nodes in Hr by done. apply elem_of_seq in Hr. lia.
  - apply SPT_unweighted_Ok in HT as (Gn & ps & Hns & _ & Hps & _).
    unfold single_source_shortest_path in Hps. case_decide as Hr; [|done].
    rewrite Hns, relabel_nodes in Hr by done. apply elem_of_seq in Hr. lia.
Qed.

(** X9.  The matrix of the builder is a tree directed away from the
    reference node: no entry of column [r] is 1, every column holds at most
    one 1 (every index has at most one predecessor), and every 1 ends a
    chain of ones that starts at [r] (nothing is marked apart from the
    root); in both variants. *)
Theorem SPT_directed_tree G r weight h T :
  returns (Weighted._SPT G r weight) h T ∨ returns (Unweighted._SPT G r) h T →
  (∀ a, entry T a r ≠ Some 1%Q) ∧
  (∀ a a' b, entry T a b = Some 1%Q → entry T a' b = Some 1%Q → a = a') ∧
  (∀ a b, entry T a b = Some 1%Q →
     ∃ p, head p = Some r ∧ last p = Some b ∧
          ∀ x y, consecutive p x y → entry T x y = Some 1%Q).
Proof.
  intros Hret. destruct (SPT_tree G r weight h T Hret) as [Hroot Huniq].
  split_and!; [done..|]. intros a b. by apply (SPT_rooted G r weight h T).
Qed.

(** X10.  The matrix of the builder has at most [N - 1] ones, in both
    variants. *)
Theorem SPT_at_most_N_minus_1_ones G r weight h T :
  NoDup (nodes G) →
  returns (Weighted._SPT G r weight) h T ∨ returns (Unweighted._SPT G r) h T →
  count_ones T + 1 ≤ order G.
Proof.
  intros Hnd Hret.
  destruct (SPT_tree G r weight h T Hret) as [Hroot Huniq].
  apply (count_ones_tree (order G) T r); [| |..|done|done].
  - destruct Hret as [[h' HT]|[h' HT]];
      [by eapply SPT_weighted_shape|by eapply SPT_unweighted_shape].
  - by eapply SPT_reference_in_range.
  - intros a b x Hx. destruct Hret as [[h' HT]|[h' HT]].
    + destruct (SPT_weighted_entry _ _ _ _ _ _ _ _ _ HT Hx) as [->|[-> _]]; auto.
    + destruct (SPT_unweighted_entry _ _ _ _ _ _ _ _ HT Hx) as [->|[-> _]]; auto.
Qed.
End Tree.

Lemma SPT_directed_tree_witness :
  (returns (Weighted._SPT path3 0 "weight") unit_weights tree_path3_0 ∨
   returns (Unweighted._SPT path3 0) unit_weights tree_path3_0) ∧
  (∀ a, entry tree_path3_0 a 0 ≠ Some 1%Q) ∧
  (∀ a a' b, entry tree_path3_0 a b = Some 1%Q →
             entry tree_path3_0 a' b = Some 1%Q → a = a') ∧
  (∀ a b, entry tree_path3_0 a b = Some 1%Q →
     ∃ p, head p = Some 0 ∧ last p = Some b ∧
          ∀ x y, consecutive p x y → entry tree_path3_0 x y = Some 1%Q).
Proof.
  assert (returns (Weighted._SPT path3 0 "weight") unit_weights tree_path3_0 ∨
          returns (Unweighted._SPT path3 0) unit_weights tree_path3_0) as Hret.
  { left. apply path3_tree_returns. }
  split; [exact Hret|].
  exact (SPT_directed_tree path3 0 "weight" unit_weights tree_path3_0 Hret).
Defined.

Lemma SPT_at_most_N_minus_1_ones_witness :
  NoDup (nodes path3) ∧
  (returns (Weighted._SPT path3 0 "weight") unit_weights tree_path3_0 ∨
   returns (Unweighted._SPT path3 0) unit_weights tree_path3_0) ∧
  count_ones tree_path3_0 = 2 ∧
  count_ones tree_path3_0 + 1 ≤ order path3.
Proof.
  assert (returns (Weighted._SPT path3 0 "weight") unit_weights tree_path3_0 ∨
          returns (Unweighted._SPT path3 0) unit_weights tree_path3_0) as Hret.
  { right. apply path3_tree_returns. }
  split_and!; [exact path3_nodes_NoDup|exact Hret|reflexivity|].
  exact (SPT_at_most_N_minus_1_ones path3 0 "weight" unit_weights tree_path3_0
           path3_nodes_NoDup Hret).
Defined.

(** ** Dijkstra returns when the costs are nonnegative *)

Lemma Qltb_false x y : Qltb x y = false ↔ (y <= x)%Q.
Proof.
  unfold Qltb. rewrite negb_false_iff. apply Qle_bool_iff.
Qed.

Lemma Qltb_true x y : Qltb x y = true ↔ (x < y)%Q.
Proof.
  unfold Qltb. rewrite negb_true_iff. split.
  - intros Hb. apply Qnot_le_lt. intros Hle%Qle_bool_iff. congruence.
  - intros Hlt. destruct (Qle_bool y x) eqn:Hb; [|done].
    apply Qle_bool_iff in Hb. by apply Qle_not_lt in Hb.
Qed.

Lemma item_ltb_le a b : item_ltb a b = true → (a.1.1 <= b.1.1)%Q.
Proof.
  destruct a as [[da ca] ua], b as [[db cb] ub]. simpl.
  intros [Hlt|[Heq _]%andb_true_iff]%orb_true_iff.
  - apply Qltb_true in Hlt. by apply Qlt_le_weak.
  - apply Qeq_bool_iff in Heq. rewrite Heq. apply Qle_refl.
Qed.

Lemma item_ltb_ge a b : item_ltb a b = false → (b.1.1 <= a.1.1)%Q.
Proof.
  destruct a as [[da ca] ua], b as [[db cb] ub]. simpl.
  intros [Hlt _]%orb_false_iff. by apply Qltb_false in Hlt.
Qed.

Lemma heap_min_least x xs :
  ((heap_min x xs).1.1 <= x.1.1)%Q ∧
  ∀ y, y ∈ xs → ((heap_min x xs).1.1 <= y.1.1)%Q.
Proof.
  revert x. induction xs as [|z zs IH]; intros x; simpl.
  - split; [apply Qle_refl|]. by intros y ?%elem_of_nil.
  - destruct (item_ltb z x) eqn:Hzx.
    + destruct (IH z) as [Hz Hzs]. pose proof (item_ltb_le _ _ Hzx) as Hle.
      split; [by eapply Qle_trans|].
      intros y [->|Hy]%elem_of_cons; [done|by apply Hzs].
    + destruct (IH x) as [Hx Hzs]. pose proof (item_ltb_ge _ _ Hzx) as Hle.
      split; [done|].
      intros y [->|Hy]%elem_of_cons; [by eapply Qle_trans|by apply Hzs].
Qed.

Lemma heap_min_le x xs y :
  y ∈ x :: xs → ((heap_min x xs).1.1 <= y.1.1)%Q.
Proof.
  destruct (heap_min_least x xs) as [Hx Hxs].
  intros [->|Hy]%elem_of_cons; [done|by apply Hxs].
Qed.

Lemma heap_remove_subseteq c fr x : x ∈ heap_remove c fr → x ∈ fr.
Proof.
  induction fr as [|y fr IH]; simpl; [done|].
  case_decide; [by right|].
  intros [->|Hin]%elem_of_cons; [left|right; by apply IH].
Qed.

Lemma heap_remove_length c fr :
  (∃ x, x ∈ fr ∧ x.1.2 = c) → length (heap_remove c fr) + 1 = length fr.
Proof.
  induction fr as [|y fr IH]; simpl.
  - by intros (x & ?%elem_of_nil & _).
  - case_decide as Hy; [lia|].
    intros (x & [->|Hin]%elem_of_cons & Hc); [done|].
    simpl. rewrite <- IH; [lia|eauto].
Qed.

Lemma heappop_spec fr m fr' :
  heappop fr = Some (m, fr') →
  m ∈ fr ∧ (∀ x, x ∈ fr' → x ∈ fr) ∧ (∀ x, x ∈ fr → (m.1.1 <= x.1.1)%Q) ∧
  length fr' + 1 = length fr.
Proof.
  intros Hpop. pose proof (heappop_elem _ _ _ Hpop) as Hm.
  destruct fr as [|x xs]; [done|]. unfold heappop in Hpop. injection Hpop as <- <-.
  split_and!; [done| | |].
  - intros y Hy. exact (heap_remove_subseteq (heap_min x xs).1.2 (x :: xs) y Hy).
  - intros y Hy. by apply heap_min_le.
  - apply (heap_remove_length (heap_min x xs).1.2 (x :: xs)). eauto.
Qed.

(** *** The potential *)

Lemma pending_final N es fin v d :
  v < N → dict_mem v fin = false →
  pending N es (dict_set v d fin) + length (adj_items es v) = pending N es fin.
Proof.
  intros Hv Hfin. unfold pending.
  assert (∀ l, NoDup l →
    sum_list (map (λ u, if dict_mem u (dict_set v d fin) then 0
                        else length (adj_items es u)) l) +
      (if decide (v ∈ l) then length (adj_items es v) else 0) =
    sum_list (map (λ u, if dict_mem u fin then 0 else length (adj_items es u)) l))
    as Hsum.
  { intros l. induction 1 as [|u l Hu Hnd IH]; [done|]. simpl.
    destruct (decide (u = v)) as [->|Hne].
    - rewrite Hfin. rewrite (proj2 (dict_mem_set v d fin v)) by (by left).
      rewrite decide_True by left. rewrite decide_False in IH by done. lia.
    - assert (dict_mem u (dict_set v d fin) = dict_mem u fin) as ->.
      { destruct (dict_mem u fin) eqn:Hm.
        - apply dict_mem_set. by right.
        - destruct (dict_mem u (dict_set v d fin)) eqn:Hm'; [|done].
          apply dict_mem_set in Hm' as [?|?]; congruence. }
      destruct (decide (v ∈ l)) as [Hin|Hnin].
      + rewrite decide_True by (by right). lia.
      + rewrite decide_False; [lia|]. intros [?|?]%elem_of_cons; done. }
  specialize (Hsum (seq 0 N) (NoDup_seq 0 N)).
  rewrite decide_True in Hsum; [done|]. apply elem_of_seq. lia.
Qed.

Lemma sum_indicator (a : nat) (l : list nat) :
  NoDup l → sum_list (map (λ v, if decide (a = v) then 1 else 0) l) ≤ 1.
Proof.
  induction 1 as [|u l Hu Hnd IH]; simpl; [lia|].
  case_decide; [|lia]. subst.
  assert (sum_list (map (λ v, if decide (u = v) then 1 else 0) l) = 0) as ->; [|lia].
  clear IH Hnd. induction l as [|w l IH]; [done|]. simpl.
  rewrite decide_False by (intros ->; apply Hu; left).
  apply IH. intros Hin. apply Hu. by right.
Qed.

Lemma degree_sum es (l : list nat) :
  NoDup l → sum_list (map (λ v, length (adj_items es v)) l) ≤ 2 * length es.
Proof.
  intros Hnd. induction es as [|[[a b] e] es IH]; simpl.
  - induction l; simpl; [lia|]. apply NoDup_cons in Hnd as [_ Hnd]. by apply IHl.
  - pose proof (sum_indicator a l Hnd) as Ha.
    pose proof (sum_indicator b l Hnd) as Hb.
    assert (sum_list (map (λ v, length
              (if decide (a = v) then (b, e) :: adj_items es v
               else if decide (b = v) then (a, e) :: adj_items es v
               else adj_items es v)) l) ≤
            sum_list (map (λ v, if decide (a = v) then 1 else 0) l) +
            sum_list (map (λ v, if decide (b = v) then 1 else 0) l) +
            sum_list (map (λ v, length (adj_items es v)) l)) as Hsplit.
    { clear. induction l as [|v l IHl]; simpl; [lia|].
      repeat case_decide; simpl; lia. }
    lia.
Qed.

Lemma pending_initial N es : pending N es [] ≤ 2 * length es.
Proof. unfold pending. simpl. apply degree_sum, NoDup_seq. Qed.

(** *** The loop *)

Lemma relax_total N h key v d st ue :
  dijkstra_inv N st →
  (∀ u du, (u, du) ∈ dist st → (du <= d)%Q) →
  dict_mem v (paths st) = true → ue.1 < N →
  (0 <= weight_function key (default ∅ (h !! ue.2)))%Q →
  ∃ st', relax h key v d st ue = Ok st' ∧ dijkstra_inv N st' ∧
         dist st' = dist st ∧ dict_mem v (paths st') = true ∧
         length (fringe st') ≤ length (fringe st) + 1.
Proof.
  destruct ue as [u l]. simpl. intros (Hrange & Hfr & Hmono) Hfin Hv Hu Hcost.
  unfold relax.
  set (cost := weight_function key (default ∅ (h !! l))) in *.
  assert (∃ st', match dict_get v (paths st) with
          | Some pv =>
              Ok (mkDijkstra (dist st) (dict_set u (d + cost)%Q (seen st))
                    (fringe st ++ [((d + cost)%Q, counter st, u)])
                    (S (counter st)) (dict_set u (pv ++ [u]) (paths st)))
          | None => Raise KeyError
          end = Ok st' ∧ dijkstra_inv N st' ∧ dist st' = dist st ∧
          dict_mem v (paths st') = true ∧
          length (fringe st') ≤ length (fringe st) + 1) as Hpush.
  { pose proof Hv as Hv'. unfold dict_mem in Hv'.
    destruct (dict_get v (paths st)) as [pv|] eqn:Hpv; [|done].
    eexists. split; [done|]. simpl. split_and!; [|done| |].
    - split_and!; simpl.
      + intros k p [[= -> ->]|Hin]%dict_set_elem; [|by apply Hrange].
        split; [done|]. intros x [Hx|Hx]%elem_of_app.
        * apply dict_get_elem in Hpv. by apply (Hrange v pv).
        * by apply list_elem_of_singleton in Hx as ->.
      + intros x [Hx|Hx]%elem_of_app.
        * destruct (Hfr x Hx) as [? ?]. split; [done|].
          apply dict_mem_set. by right.
        * apply list_elem_of_singleton in Hx as ->. simpl.
          split; [done|]. apply dict_mem_set. by left.
      + intros u' du x Hd [Hx|Hx]%elem_of_app; [by eapply Hmono|].
        apply list_elem_of_singleton in Hx as ->. simpl.
        pose proof (Hfin u' du Hd). lra.
    - apply dict_mem_set. by right.
    - rewrite length_app. simpl. lia. }
  assert (∃ st', Ok st = Ok st' ∧ dijkstra_inv N st' ∧ dist st' = dist st ∧
          dict_mem v (paths st') = true ∧
          length (fringe st') ≤ length (fringe st) + 1) as Hskip.
  { exists st. split_and!; [done| |done..|lia]. by split_and!. }
  destruct (dict_get u (dist st)) as [ud|] eqn:Hud.
  - apply dict_get_elem, Hfin in Hud.
    assert (Qltb (d + cost) ud = false) as -> by (apply Qltb_false; lra).
    exact Hskip.
  - destruct (dict_get u (seen st)) as [su|]; [|exact Hpush].
    destruct (Qltb (d + cost) su); [exact Hpush|exact Hskip].
Qed.

Lemma relax_all_total N h key v d ues st :
  dijkstra_inv N st →
  (∀ u du, (u, du) ∈ dist st → (du <= d)%Q) →
  dict_mem v (paths st) = true →
  (∀ ue, ue ∈ ues → ue.1 < N ∧ (0 <= weight_function key (default ∅ (h !! ue.2)))%Q) →
  ∃ st', relax_all h key v d ues st = Ok st' ∧ dijkstra_inv N st' ∧
         dist st' = dist st ∧
         length (fringe st') ≤ length (fringe st) + length ues.
Proof.
  revert st. induction ues as [|ue ues IH]; intros st Hinv Hfin Hv Hues; simpl.
  - exists st. split_and!; [done..|lia].
  - destruct (Hues ue) as [Hu Hcost]; [left|].
    destruct (relax_total N h key v d st ue Hinv Hfin Hv Hu Hcost)
      as (st1 & -> & Hinv1 & Hd1 & Hv1 & Hlen1).
    simpl. destruct (IH st1) as (st' & Hst' & Hinv' & Hd' & Hlen'); [done| |done| |].
    + by rewrite Hd1.
    + intros ue' Hin. apply Hues. by right.
    + exists st'. split_and!; [done..|congruence|lia].
Qed.

Lemma _dijkstra_multisource_total N fuel Gn h key st :
  edges_in_range N (edges Gn) → nonneg_costs h key (edges Gn) →
  dijkstra_inv N st →
  length (fringe st) + pending N (edges Gn) (dist st) ≤ fuel →
  ∃ ps, _dijkstra_multisource fuel Gn h key st = Ok ps ∧ in_range N ps.
Proof.
  intros Hes Hcosts. revert st.
  induction fuel as [|fuel IH]; intros st Hinv Hfuel.
  - destruct (fringe st) as [|x fr] eqn:Hfr; [|simpl in Hfuel; lia].
    simpl. rewrite Hfr. simpl. exists (paths st). split; [done|apply Hinv].
  - simpl. destruct (heappop (fringe st)) as [[[[d c] v] fr]|] eqn:Hpop.
    2:{ exists (paths st). split; [done|apply Hinv]. }
    apply heappop_spec in Hpop as (Hm & Hsub & Hmin & Hlen).
    destruct Hinv as (Hrange & Hfr & Hmono).
    destruct (Hfr _ Hm) as [HvN Hvp]. simpl in HvN, Hvp. simpl.
    destruct (dict_mem v (dist st)) eqn:Hv.
    + apply IH; simpl; [|lia].
      split_and!; simpl; [done|by intros x ?%Hsub%Hfr|].
      intros u du x Hd Hx%Hsub. by eapply Hmono.
    + destruct (relax_all_total N h key v d (adj_items (edges Gn) v)
                  (mkDijkstra (dict_set v d (dist st)) (seen st) fr (counter st) (paths st)))
        as (st1 & -> & Hinv1 & Hd1 & Hlen1); simpl.
      * split_and!; simpl; [done|by intros x ?%Hsub%Hfr|].
        intros u du x [[= -> ->]|Hd]%dict_set_elem Hx.
        -- apply (Hmin x). by apply Hsub.
        -- apply Hsub in Hx. by eapply Hmono.
      * intros u du [[= -> ->]|Hd]%dict_set_elem; [apply Qle_refl|].
        apply (Hmono u du _ Hd Hm).
      * done.
      * intros [u l] Hin. simpl. split; [by eapply adj_items_in_range|].
        apply adj_items_elem in Hin as [Hin|Hin]; by eapply Hcosts.
      * apply IH; [done|]. rewrite Hd1. simpl.
        pose proof (pending_final N (edges Gn) (dist st) v d HvN Hv).
        simpl in Hlen1. lia.
Qed.

Lemma single_source_dijkstra_path_total Gn h s key :
  nodes Gn = seq 0 (order Gn) → edges_in_range (order Gn) (edges Gn) →
  nonneg_costs h key (edges Gn) → s < order Gn →
  ∃ ps, single_source_dijkstra_path Gn h s key = Ok ps ∧ in_range (order Gn) ps.
Proof.
  intros Hns Hes Hcosts Hs. unfold single_source_dijkstra_path.
  rewrite decide_True by (rewrite Hns; apply elem_of_seq; lia).
  apply (_dijkstra_multisource_total (order Gn)); [done..| |].
  - split_and!; simpl.
    + intros k p [= -> ->]%list_elem_of_singleton. split; [done|].
      by intros x ->%list_elem_of_singleton.
    + intros x ->%list_elem_of_singleton. simpl. split; [done|].
      unfold dict_mem. simpl. by rewrite decide_True.
    + by intros u du x ?%elem_of_nil.
  - simpl. pose proof (pending_initial (order Gn) (edges Gn)). lia.
Qed.

(** ** The weighted variant returns when the weights are positive *)

Lemma for_acc_total_in {A S : Type} (P : store → Prop) (xs : list A)
    (body : S → A → M S) acc h :
  P h →
  (∀ s x h1, x ∈ xs → P h1 → ∃ s' h2, body s x h1 = (Ok s', h2) ∧ P h2) →
  ∃ r h', for_acc xs body acc h = (Ok r, h').
Proof.
  revert acc h. induction xs as [|x xs IH]; intros acc h HP Hb; simpl.
  - by eexists _, _.
  - destruct (Hb acc x h) as (s' & h2 & Hx & HP2); [left|done|].
    rewrite (bind_step _ _ _ _ _ Hx). apply IH; [done|].
    intros s y h1 Hy. apply Hb. by right.
Qed.

Lemma positive_reciprocal w :
  positive w → ∃ p, reciprocal w = Ok p ∧ (0 < number p)%Q.
Proof.
  assert (∀ x, (0 < x)%Q → (0 < 1 / x)%Q) as Hinv.
  { intros x Hx. unfold Qdiv. rewrite Qmult_1_l. by apply Qinv_lt_0_compat. }
  assert (∀ x, (0 < x)%Q → Qeq_bool x 0 = false) as Hnz.
  { intros x Hx. destruct (Qeq_bool x 0) eqn:Hq; [|done].
    apply Qeq_bool_iff in Hq. rewrite Hq in Hx. by apply Qlt_irrefl in Hx. }
  destruct w as [z|x|x|]; unfold positive, reciprocal.
  - intros [Hz Hbig].
    destruct (Z.leb_spec float_overflow (Z.abs z)) as [Hle|_]; [lia|].
    destruct (Z.eqb_spec z 0) as [->|_]; [lia|].
    eexists. split; [done|]. cbn [number]. apply Hinv.
    unfold Qlt, inject_Z. simpl. lia.
  - intros Hx. rewrite (Hnz x Hx). eexists. split; [done|]. by apply Hinv.
  - intros Hx. rewrite (Hnz x Hx). eexists. split; [done|]. by apply Hinv.
  - done.
Qed.

Section WeightedTotal.
Context {L : Type} `{EqDecision L}.
Implicit Types (G : Graph L) (h : store).

(** After the proximity loop every edge of the copy has a cost that is not
    negative. *)
Lemma proximity_loop_total G weight h hs :
  weighted_by weight h (edges G) positive → h `prefix_of` hs →
  ∃ k hs',
    convert_node_labels_to_integers G hs =
      (Ok (mkGraph (is_directed G) (is_multigraph G)
                   (map (relabel G) (nodes G))
                   (copied_edges G (length hs) (edges G))), hs ++ k) ∧
    for_each (copied_edges G (length hs) (edges G))
             (Weighted.add_proximity weight) (hs ++ k) = (Ok tt, hs') ∧
    nonneg_costs hs' "proximity" (copied_edges G (length hs) (edges G)).
Proof.
  intros Hw Hpre.
  destruct (convert_spec G hs) as (k & Hc & Hlen & Hcont).
  assert (∀ i x, edges G !! i = Some x →
            ∃ d w, k !! i = Some d ∧ d !! weight = Some w ∧ positive w) as Hk.
  { intros i x Hx.
    destruct (Hw x) as (d & w & Hd & Hdw & Hpos); [apply list_elem_of_lookup; eauto|].
    pose proof (prefix_lookup_Some _ _ _ _ Hd Hpre) as Hd'.
    exists d, w. split_and!; [|done..].
    rewrite (Hcont i x Hx) by (by eapply lookup_lt_Some). by rewrite Hd'. }
  destruct (for_each_add_proximity_ok weight
              (copied_edges G (length hs) (edges G)) (hs ++ k))
    as (hs' & Hrun & _ & _ & Hvisited).
  { rewrite copied_edges_locs. apply NoDup_seq. }
  { intros [[a b] l] Hin. apply copied_edges_fresh in Hin.
    rewrite length_app, Hlen. simpl. lia. }
  { rewrite dicts_of_copy by done.
    apply weights_outcome_Ok. intros d [i Hi]%list_elem_of_lookup.
    assert (i < length (edges G)) as Hlt by (rewrite <- Hlen; by eapply lookup_lt_Some).
    apply lookup_lt_is_Some_2 in Hlt as [x Hx].
    destruct (Hk i x Hx) as (d' & w & Hd' & Hdw & Hpos).
    rewrite Hd' in Hi. injection Hi as <-. exists w. split; [done|].
    destruct (positive_reciprocal w Hpos) as (p & Hp & _). by exists p. }
  exists k, hs'. split_and!; [done..|].
  intros a b l Hin.
  destruct (Hvisited (a, b, l) Hin) as (d & w & p & Hd & Hdw & Hp & Hfin).
  simpl in *.
  assert (positive w) as Hpos.
  { unfold copied_edges in Hin. apply list_elem_of_lookup in Hin as [i Hi].
    rewrite list_lookup_imap in Hi.
    destruct (edges G !! i) as [x|] eqn:Hx; simpl in Hi; [|done].
    injection Hi as _ _ <-.
    destruct (Hk i x Hx) as (d' & w' & Hd' & Hdw' & Hpos).
    rewrite lookup_app_r in Hd by lia.
    replace (length hs + i - length hs) with i in Hd by lia.
    rewrite Hd' in Hd. injection Hd as <-. congruence. }
  rewrite Hfin. simpl. unfold weight_function. rewrite lookup_insert_eq. simpl.
  destruct (positive_reciprocal w Hpos) as (p' & Hp' & Hcost).
  rewrite Hp in Hp'. injection Hp' as <-. by apply Qlt_le_weak.
Qed.

Lemma SPT_weighted_total G r weight h hs :
  is_directed G = false → is_multigraph G = false → well_formed G →
  weighted_by weight h (edges G) positive → h `prefix_of` hs →
  r < order G →
  ∃ T hs', Weighted._SPT G r weight hs = (Ok T, hs').
Proof.
  intros Hd Hm Hwf Hw Hpre Hr. unfold Weighted._SPT, not_implemented_for.
  rewrite Hd, Hm. unfold ret at 1, bind at 1.
  destruct (proximity_loop_total G weight h hs Hw Hpre) as (k & hs' & Hc & Hrun & Hcosts).
  rewrite (bind_step _ _ _ _ _ Hc).
  set (Gn := mkGraph _ _ _ _) in *.
  assert (order Gn = order G) as HN.
  { unfold order, Gn. simpl. by rewrite length_map. }
  cbn [edges Gn] in Hrun |- *. fold Gn.
  change (copied_edges G (length hs) (edges G)) with (edges Gn) in Hrun, Hcosts.
  rewrite (bind_step _ _ _ _ _ Hrun).
  destruct (single_source_dijkstra_path_total Gn hs' r "proximity") as (ps & Hps & Hrange).
  - rewrite HN. unfold Gn. simpl. apply relabel_nodes. by destruct Hwf.
  - rewrite HN. unfold Gn. simpl. by apply copied_edges_in_range.
  - done.
  - by rewrite HN.
  - destruct (mark_paths_total (order Gn) (zeros (order Gn) (order Gn)) ps)
      as (T & HT & _); [apply shape_zeros|done|].
    exists T, hs'. unfold reading, lift, bind. by rewrite Hps, HT.
Qed.

Lemma salience_weighted_total G weight h :
  is_directed G = false → is_multigraph G = false → well_formed G →
  weighted_by weight h (edges G) positive →
  ∃ S, returns (Weighted.salience G weight) h S.
Proof.
  intros Hd Hm Hwf Hw.
  destruct (decide (order G = 0)) as [HN|HN].
  { exists []. by apply (salience_order_0 G weight). }
  unfold returns, Weighted.salience, Weighted.salience_by.
  destruct (convert_spec G h) as (k & Hc & _).
  rewrite (bind_step _ _ _ _ _ Hc). simpl.
  destruct (for_acc_total_in (λ h1, h `prefix_of` h1)
              (map (relabel G) (nodes G))
              (λ S n, T <- Weighted._SPT G n weight ;; ret (madd S T))
              (zeros (order G) (order G)) (h ++ k)) as (S1 & h1 & Hloop).
  - by apply prefix_app_r.
  - intros S n h1 Hn Hpre. rewrite relabel_nodes in Hn by (by destruct Hwf).
    apply elem_of_seq in Hn.
    destruct (SPT_weighted_total G n weight h h1) as (T & h2 & HT); [done..|lia|].
    exists (madd S T), h2. split; [by rewrite (bind_step _ _ _ _ _ HT)|].
    etrans; [exact Hpre|].
    pose proof (preserves_SPT_weighted G n weight h1) as Hp.
    by rewrite HT in Hp.
  - eexists _, _. rewrite (bind_step _ _ _ _ _ Hloop). unfold lift.
    by rewrite (scale_div_nonzero _ _ HN).
Qed.

(** X11.  The weighted variant returns on every undirected graph without
    parallel edges whose edges all carry a positive weight, a Python int
    that converts to a float or a Python or NumPy float: the proximity loop
    completes, Dijkstra's search neither runs out of steps nor finds
    contradictory paths, and the fill loop stays within the matrix. *)
Theorem salience_weighted_returns G weight h :
  is_directed G = false → is_multigraph G = false → well_formed G →
  weighted_by weight h (edges G) positive →
  (∀ r, r < order G → ∃ T, returns (Weighted._SPT G r weight) h T) ∧
  ∃ S, returns (Weighted.salience G weight) h S.
Proof.
  intros Hd Hm Hwf Hw. split.
  - intros r Hr.
    destruct (SPT_weighted_total G r weight h h Hd Hm Hwf Hw) as (T & h2 & HT);
      [done|done|].
    exists T. by exists h2.
  - by apply salience_weighted_total.
Qed.
End WeightedTotal.

Lemma unit_weights_positive :
  weighted_by "weight" unit_weights (edges path3) positive.
Proof.
  intros x Hin. simpl in Hin.
  apply elem_of_cons in Hin as [->|Hin].
  { eexists _, (PyInt 1). split_and!; [reflexivity|reflexivity|by vm_compute]. }
  apply list_elem_of_singleton in Hin as ->.
  eexists _, (PyInt 1). split_and!; [reflexivity|reflexivity|by vm_compute].
Qed.

Lemma salience_weighted_returns_witness :
  is_directed path3 = false ∧ is_multigraph path3 = false ∧ well_formed path3 ∧
  weighted_by "weight" unit_weights (edges path3) positive ∧
  (∀ r, r < 3 → ∃ T, returns (Weighted._SPT path3 r "weight") unit_weights T) ∧
  ∃ S, returns (Weighted.salience path3 "weight") unit_weights S.
Proof.
  split_and!; [done|done|exact path3_well_formed|exact unit_weights_positive|..];
    apply (salience_weighted_returns path3 "weight" unit_weights eq_refl eq_refl
             path3_well_formed unit_weights_positive).
Defined.

(** ** The searches see endpoints and costs only *)

Lemma adj_items_costs h h' key es es' v :
  costs_of h key es = costs_of h' key es' →
  map (λ ul, (ul.1, weight_function key (default ∅ (h !! ul.2)))) (adj_items es v) =
  map (λ ul, (ul.1, weight_function key (default ∅ (h' !! ul.2)))) (adj_items es' v).
Proof.
  revert es'. induction es as [|[[a b] l] es IH]; intros [|[[a' b'] l'] es']; try done.
  simpl. intros [= <- <- Hc Hrest]. specialize (IH _ Hrest).
  repeat case_decide; simpl; by rewrite ?Hc, ?IH.
Qed.

Lemma adj_items_endpoints (es es' : list (nat * nat * loc)) v :
  es.*1 = es'.*1 → (adj_items es v).*1 = (adj_items es' v).*1.
Proof.
  revert es'. induction es as [|[[a b] l] es IH]; intros [|[[a' b'] l'] es']; try done.
  rewrite !fmap_cons. cbn [fst adj_items]. intros [= <- <- Hrest].
  specialize (IH _ Hrest).
  repeat case_decide; rewrite ?fmap_cons; simpl; by rewrite ?IH.
Qed.

Lemma relax_all_costs h h' key v d ues ues' st :
  map (λ ul, (ul.1, weight_function key (default ∅ (h !! ul.2)))) ues =
  map (λ ul, (ul.1, weight_function key (default ∅ (h' !! ul.2)))) ues' →
  relax_all h key v d ues st = relax_all h' key v d ues' st.
Proof.
  revert ues' st.
  induction ues as [|[u l] ues IH]; intros [|[u' l'] ues'] st Hmap; try done.
  simpl in Hmap. injection Hmap as <- Hc Hrest. cbn [relax_all].
  assert (relax h key v d st (u, l) = relax h' key v d st (u, l')) as ->.
  { unfold relax. by rewrite Hc. }
  destruct (relax h' key v d st (u, l')); cbn [obind]; [|done..]. by apply IH.
Qed.

Lemma _dijkstra_multisource_costs fuel Gn Gn' h h' key st :
  costs_of h key (edges Gn) = costs_of h' key (edges Gn') →
  _dijkstra_multisource fuel Gn h key st = _dijkstra_multisource fuel Gn' h' key st.
Proof.
  intros Hc. revert st. induction fuel as [|fuel IH]; intros st;
    cbn [_dijkstra_multisource]; [done|].
  destruct (heappop (fringe st)) as [[[[d c] v] fr]|]; [|done].
  cbn [dist seen fringe counter paths].
  destruct (dict_mem v (dist st)); [apply IH|].
  rewrite (relax_all_costs h h' key v d _ (adj_items (edges Gn') v));
    [|by apply adj_items_costs].
  destruct (relax_all h' key v d _ _); cbn [obind]; [|done..]. apply IH.
Qed.

Lemma single_source_dijkstra_path_costs Gn Gn' h h' s key :
  nodes Gn = nodes Gn' →
  costs_of h key (edges Gn) = costs_of h' key (edges Gn') →
  single_source_dijkstra_path Gn h s key = single_source_dijkstra_path Gn' h' s key.
Proof.
  intros Hns Hc. unfold single_source_dijkstra_path. rewrite Hns.
  case_decide; [|done].
  assert (length (edges Gn) = length (edges Gn')) as ->.
  { apply (f_equal length) in Hc. unfold costs_of in Hc. by rewrite !length_map in Hc. }
  by apply _dijkstra_multisource_costs.
Qed.

Lemma bfs_level_adj Gn Gn' level st :
  (∀ v, adj Gn v = adj Gn' v) → bfs_level Gn level st = bfs_level Gn' level st.
Proof.
  intros Hadj. revert st. induction level as [|v vs IH]; intros st; simpl; [done|].
  destruct (dict_get v st.1); [|done]. by rewrite Hadj.
Qed.

Lemma _single_shortest_path_adj fuel Gn Gn' nextlevel ps :
  (∀ v, adj Gn v = adj Gn' v) →
  _single_shortest_path fuel Gn nextlevel ps =
  _single_shortest_path fuel Gn' nextlevel ps.
Proof.
  intros Hadj. revert nextlevel ps. induction fuel as [|fuel IH]; intros [|v vs] ps;
    try done.
  cbn [_single_shortest_path]. rewrite (bfs_level_adj Gn Gn' _ _ Hadj).
  destruct (bfs_level Gn' (v :: vs) (ps, [])); simpl; [|done..]. apply IH.
Qed.

Lemma single_source_shortest_path_endpoints Gn Gn' s :
  nodes Gn = nodes Gn' → (edges Gn).*1 = (edges Gn').*1 →
  single_source_shortest_path Gn s = single_source_shortest_path Gn' s.
Proof.
  intros Hns Hes. unfold single_source_shortest_path, order. rewrite Hns.
  case_decide; [|done]. apply _single_shortest_path_adj.
  intros v. unfold adj. by apply adj_items_endpoints.
Qed.

(** ** Outcomes of loops that differ in the store only *)

Lemma for_acc_outcome {A S : Type} (P Q : store → Prop) (xs : list A)
    (body : S → A → M S) acc h1 h2 :
  P h1 → Q h2 →
  (∀ s x g1 g2, P g1 → Q g2 →
     (body s x g1).1 = (body s x g2).1 ∧ P (body s x g1).2 ∧ Q (body s x g2).2) →
  (for_acc xs body acc h1).1 = (for_acc xs body acc h2).1.
Proof.
  intros HP1 HP2 Hbody. revert acc h1 h2 HP1 HP2.
  induction xs as [|x xs IH]; intros acc h1 h2 HP1 HP2; simpl; [done|].
  destruct (Hbody acc x h1 h2 HP1 HP2) as (Heq & HP1' & HP2').
  unfold bind.
  destruct (body acc x h1) as [o1 g1], (body acc x h2) as [o2 g2]. simpl in *.
  subst o2. destruct o1; simpl; [by apply IH|done..].
Qed.

Lemma bind_outcome {A B : Type} (m : M A) (k : A → M B) h1 h2 :
  (m h1).1 = (m h2).1 →
  (∀ a g1 g2, (k a g1).1 = (k a g2).1) →
  (bind m k h1).1 = (bind m k h2).1.
Proof.
  intros Hm Hk. unfold bind.
  destruct (m h1) as [o1 g1], (m h2) as [o2 g2]. simpl in Hm. subst o2.
  destruct o1; simpl; [apply Hk|done..].
Qed.

Lemma reading_lift_outcome {A B : Type} (f : store → outcome A) (g : A → outcome B) h :
  (bind (reading f) (λ a, lift (g a)) h).1 = obind (f h) g.
Proof. unfold bind, reading, lift. by destruct (f h). Qed.

Section Outcomes.
Context {L : Type} `{EqDecision L}.
Implicit Types (G : Graph L) (h : store).

Lemma copied_edges_endpoints G base base' es :
  (copied_edges G base es).*1 = (copied_edges G base' es).*1.
Proof.
  unfold copied_edges. apply list_eq. intros i.
  rewrite !list_lookup_fmap, !list_lookup_imap. by destruct (es !! i).
Qed.

Lemma SPT_unweighted_outcome G r h h' :
  (Unweighted._SPT G r h).1 = (Unweighted._SPT G r h').1.
Proof.
  unfold Unweighted._SPT, not_implemented_for.
  destruct (is_directed G); [done|]. destruct (is_multigraph G); [done|].
  rewrite (bind_step (ret tt) _ h tt h eq_refl), (bind_step (ret tt) _ h' tt h' eq_refl).
  destruct (convert_spec G h) as (k & Hc & _).
  destruct (convert_spec G h') as (k' & Hc' & _).
  rewrite (bind_step _ _ _ _ _ Hc), (bind_step _ _ _ _ _ Hc').
  rewrite (single_source_shortest_path_endpoints _
             (mkGraph (is_directed G) (is_multigraph G) (map (relabel G) (nodes G))
                      (copied_edges G (length h') (edges G))) r);
    [|done|apply copied_edges_endpoints].
  unfold bind, lift, order. simpl.
  by destruct (single_source_shortest_path _ r).
Qed.

Lemma salience_unweighted_outcome G h h' :
  (Unweighted.salience G h).1 = (Unweighted.salience G h').1.
Proof.
  unfold Unweighted.salience, Unweighted.salience_by.
  destruct (convert_spec G h) as (k & Hc & _).
  destruct (convert_spec G h') as (k' & Hc' & _).
  rewrite (bind_step _ _ _ _ _ Hc), (bind_step _ _ _ _ _ Hc'). cbn [nodes].
  apply bind_outcome; [|done].
  apply (for_acc_outcome (λ _, True) (λ _, True)); [done..|].
  intros S n g1 g2 _ _. split; [|done].
  apply bind_outcome; [apply SPT_unweighted_outcome|done].
Qed.

(** X12.  The unweighted module never looks at an edge attribute: the
    outcome of [_SPT] and of [salience] (the matrix, or the exception) is the
    same whatever the dictionaries of the edges hold. *)
Theorem unweighted_ignores_attributes G h h' :
  (∀ r, (Unweighted._SPT G r h).1 = (Unweighted._SPT G r h').1) ∧
  (Unweighted.salience G h).1 = (Unweighted.salience G h').1.
Proof.
  split; [intros r; apply SPT_unweighted_outcome|apply salience_unweighted_outcome].
Qed.

(** With dictionaries that all carry a weight that has a reciprocal, the
    proximity loop leaves the copy with the costs [1/w] of the caller's
    edges. *)
Lemma proximity_loop_costs G weight h hs :
  (∀ x, x ∈ edges G → x.2 < length h) → h `prefix_of` hs →
  weights_outcome weight (dicts_of h (edges G)) = Ok tt →
  ∃ k hs1,
    convert_node_labels_to_integers G hs =
      (Ok (mkGraph (is_directed G) (is_multigraph G)
                   (map (relabel G) (nodes G))
                   (copied_edges G (length hs) (edges G))), hs ++ k) ∧
    for_each (copied_edges G (length hs) (edges G))
             (Weighted.add_proximity weight) (hs ++ k) = (Ok tt, hs1) ∧
    costs_of hs1 "proximity" (copied_edges G (length hs) (edges G)) =
      map (λ e, (relabel G e.1.1, relabel G e.1.2, proximity_of weight h e)) (edges G).
Proof.
  intros Halloc Hpre Herr.
  destruct (convert_spec G hs) as (k & Hc & Hlen & Hcont).
  assert (∀ i x, edges G !! i = Some x → k !! i = Some (default ∅ (h !! x.2))) as Hk.
  { intros i x Hx.
    assert (x.2 < length h) as Hlt by (apply Halloc, list_elem_of_lookup; eauto).
    destruct Hpre as [k0 ->].
    rewrite (Hcont i x Hx) by (rewrite length_app; lia). by rewrite lookup_app_l. }
  assert (k = dicts_of h (edges G)) as Hkeq.
  { apply list_eq. intros i. unfold dicts_of. rewrite list_lookup_fmap.
    destruct (edges G !! i) as [x|] eqn:Hx; simpl; [by apply Hk|].
    apply lookup_ge_None. rewrite Hlen. by apply lookup_ge_None in Hx. }
  destruct (for_each_add_proximity_ok weight
              (copied_edges G (length hs) (edges G)) (hs ++ k))
    as (hs1 & Hrun & _ & _ & Hvisited).
  { rewrite copied_edges_locs. apply NoDup_seq. }
  { intros [[a b] l] Hin. apply copied_edges_fresh in Hin.
    rewrite length_app, Hlen. simpl. lia. }
  { rewrite dicts_of_copy by done. by rewrite Hkeq. }
  exists k, hs1. split_and!; [done..|].
  apply list_eq. intros i. unfold costs_of, copied_edges.
  rewrite !list_lookup_fmap, list_lookup_imap.
  destruct (edges G !! i) as [[[u v] l]|] eqn:Hx; simpl; [|done].
  do 2 f_equal.
  destruct (Hvisited (relabel G u, relabel G v, length hs + i))
    as (d & w & p & Hd & Hdw & Hp & Hfin).
  { apply list_elem_of_lookup. exists i. unfold copied_edges.
    by rewrite list_lookup_imap, Hx. }
  simpl in Hd, Hfin. rewrite lookup_app_r in Hd by lia.
  replace (length hs + i - length hs) with i in Hd by lia.
  rewrite (Hk i _ Hx) in Hd. simpl in Hd. injection Hd as <-.
  rewrite Hfin. simpl. unfold weight_function, proximity_of. simpl.
  by rewrite lookup_insert_eq, Hdw, Hp.
Qed.

Lemma weights_outcome_agree weight (ds ds' : list attrs) :
  map (λ d, d !! weight) ds = map (λ d, d !! weight) ds' →
  weights_outcome weight ds = weights_outcome weight ds'.
Proof.
  revert ds'. induction ds as [|d ds IH]; intros [|d' ds']; try done.
  simpl. intros [= -> Hrest]. rewrite (IH _ Hrest). done.
Qed.

Lemma bind_stop {A B : Type} (m : M A) (k : A → M B) h w h1 :
  m h = (Stop w, h1) → bind m k h = (Stop w, h1).
Proof. unfold bind. by intros ->. Qed.

(** A proximity loop that does not complete ends the call with the outcome
    of the loop. *)
Lemma SPT_weighted_fails G r weight h hs :
  is_directed G = false → is_multigraph G = false →
  (∀ x, x ∈ edges G → x.2 < length h) → h `prefix_of` hs →
  weights_outcome weight (dicts_of h (edges G)) ≠ Ok tt →
  (Weighted._SPT G r weight hs).1 =
    match weights_outcome weight (dicts_of h (edges G)) with
    | Ok _ => Stop Fuel
    | Raise e => Raise e
    | Stop w => Stop w
    end.
Proof.
  intros Hd Hm Halloc [k0 ->] Hfail. unfold Weighted._SPT, not_implemented_for.
  rewrite Hd, Hm. unfold ret at 1, bind at 1.
  destruct (convert_spec G (h ++ k0)) as (k & Hc & Hlen & Hcont).
  rewrite (bind_step _ _ _ _ _ Hc). simpl.
  assert (k = dicts_of h (edges G)) as Hk.
  { apply list_eq. intros i. unfold dicts_of. rewrite list_lookup_fmap.
    destruct (edges G !! i) as [x|] eqn:Hx; simpl.
    - assert (x.2 < length h) as Hlt.
      { apply Halloc. apply list_elem_of_lookup. eauto. }
      rewrite (Hcont i x Hx) by (rewrite length_app; lia).
      by rewrite lookup_app_l.
    - apply lookup_ge_None. rewrite Hlen. by apply lookup_ge_None in Hx. }
  destruct (for_each_add_proximity_outcome weight
              (copied_edges G (length (h ++ k0)) (edges G)) ((h ++ k0) ++ k))
    as [hs' Hrun].
  - rewrite copied_edges_locs. apply NoDup_seq.
  - intros [[a b] l] Hin. apply copied_edges_fresh in Hin.
    rewrite length_app, Hlen. simpl. lia.
  - rewrite dicts_of_copy in Hrun by done. rewrite <- Hk in Hfail |- *.
    destruct (weights_outcome weight k) as [[]|e|w]; [done|..].
    + by rewrite (bind_raise _ _ _ _ _ Hrun).
    + by rewrite (bind_stop _ _ _ _ _ Hrun).
Qed.

(** The caller's stores [h] and [h'] give every edge the same weight. *)
Lemma SPT_weighted_outcome G r weight h h' hs hs' :
  (∀ x, x ∈ edges G → x.2 < length h) → (∀ x, x ∈ edges G → x.2 < length h') →
  (∀ x, x ∈ edges G →
     default ∅ (h !! x.2) !! weight = default ∅ (h' !! x.2) !! weight) →
  h `prefix_of` hs → h' `prefix_of` hs' →
  (Weighted._SPT G r weight hs).1 = (Weighted._SPT G r weight hs').1.
Proof.
  intros Halloc Halloc' Hagree Hpre Hpre'.
  destruct (is_directed G) eqn:Hd.
  { unfold Weighted._SPT, not_implemented_for. by rewrite Hd. }
  destruct (is_multigraph G) eqn:Hm.
  { unfold Weighted._SPT, not_implemented_for. by rewrite Hd, Hm. }
  assert (weights_outcome weight (dicts_of h' (edges G)) =
          weights_outcome weight (dicts_of h (edges G))) as Hfwe.
  { apply weights_outcome_agree. unfold dicts_of. rewrite !map_map.
    apply map_ext_in. intros x Hx%list_elem_of_In. symmetry. by apply Hagree. }
  assert (weights_outcome weight (dicts_of h (edges G)) = Ok tt ∨
          weights_outcome weight (dicts_of h (edges G)) ≠ Ok tt) as [Herr|Herr].
  { destruct (weights_outcome weight (dicts_of h (edges G))) as [[]|e|w];
      [by left|by right..]. }
  2:{ rewrite (SPT_weighted_fails G r weight h hs Hd Hm Halloc Hpre Herr).
      rewrite (SPT_weighted_fails G r weight h' hs' Hd Hm Halloc' Hpre');
        by rewrite Hfwe. }
  - destruct (proximity_loop_costs G weight h hs Halloc Hpre Herr)
      as (k & hs1 & Hc & Hrun & Hcosts).
    rewrite <- Hfwe in Herr.
    destruct (proximity_loop_costs G weight h' hs' Halloc' Hpre' Herr)
      as (k' & hs1' & Hc' & Hrun' & Hcosts').
    unfold Weighted._SPT, not_implemented_for. rewrite Hd, Hm.
    rewrite (bind_step (ret tt) _ hs tt hs eq_refl),
      (bind_step (ret tt) _ hs' tt hs' eq_refl).
    rewrite Hd, Hm in Hc, Hc'.
    rewrite (bind_step _ _ _ _ _ Hc), (bind_step _ _ _ _ _ Hc').
    set (Gn1 := mkGraph false false _ (copied_edges G (length hs) (edges G))) in *.
    set (Gn2 := mkGraph false false _ (copied_edges G (length hs') (edges G))) in *.
    change (copied_edges G (length hs) (edges G)) with (edges Gn1) in Hrun, Hcosts.
    change (copied_edges G (length hs') (edges G)) with (edges Gn2) in Hrun', Hcosts'.
    rewrite (bind_step _ _ _ _ _ Hrun), (bind_step _ _ _ _ _ Hrun').
    rewrite !reading_lift_outcome.
    rewrite (single_source_dijkstra_path_costs Gn1 Gn2 hs1 hs1' r "proximity");
      [done|done|].
    rewrite Hcosts, Hcosts'. apply map_ext_in. intros x Hx%list_elem_of_In.
    unfold proximity_of. by rewrite (Hagree x Hx).
Qed.

Lemma salience_weighted_outcome G weight h h' hs hs' :
  (∀ x, x ∈ edges G → x.2 < length h) → (∀ x, x ∈ edges G → x.2 < length h') →
  (∀ x, x ∈ edges G →
     default ∅ (h !! x.2) !! weight = default ∅ (h' !! x.2) !! weight) →
  h `prefix_of` hs → h' `prefix_of` hs' →
  (Weighted.salience G weight hs).1 = (Weighted.salience G weight hs').1.
Proof.
  intros Halloc Halloc' Hagree Hpre Hpre'. unfold Weighted.salience, Weighted.salience_by.
  destruct (convert_spec G hs) as (k & Hc & _).
  destruct (convert_spec G hs') as (k' & Hc' & _).
  rewrite (bind_step _ _ _ _ _ Hc), (bind_step _ _ _ _ _ Hc'). cbn [nodes].
  apply bind_outcome; [|done].
  apply (for_acc_outcome (λ g, h `prefix_of` g) (λ g, h' `prefix_of` g)).
  - etrans; [exact Hpre|by apply prefix_app_r].
  - etrans; [exact Hpre'|by apply prefix_app_r].
  - intros S n g1 g2 Hg1 Hg2. split_and!.
    + apply bind_outcome; [by apply (SPT_weighted_outcome G n weight h h')|done].
    + etrans; [exact Hg1|]. apply preserves_bind; [apply preserves_SPT_weighted|].
      intros; apply preserves_ret.
    + etrans; [exact Hg2|]. apply preserves_bind; [apply preserves_SPT_weighted|].
      intros; apply preserves_ret.
Qed.

(** X13.  The call is repeatable: started again in the store a first call
    has left behind (or in any store that extends the caller's), [salience]
    has the same outcome, the same matrix or the same exception, in both
    variants. *)
Theorem salience_repeatable G weight h :
  (∀ x, x ∈ edges G → x.2 < length h) →
  (∀ h', h `prefix_of` h' →
     (Weighted.salience G weight h').1 = (Weighted.salience G weight h).1) ∧
  (Weighted.salience G weight (Weighted.salience G weight h).2).1 =
    (Weighted.salience G weight h).1 ∧
  (Unweighted.salience G (Unweighted.salience G h).2).1 =
    (Unweighted.salience G h).1.
Proof.
  intros Halloc. split_and!.
  - intros h' Hpre. by apply (salience_weighted_outcome G weight h h).
  - apply (salience_weighted_outcome G weight h h); [done..| |done].
    apply preserves_salience_weighted.
  - apply salience_unweighted_outcome.
Qed.

(** X15.  The weighted module reads nothing of an edge but its weight: two
    stores that give every edge the same weight attribute lead to the same
    outcome of [_SPT] and of [salience], whatever else the dictionaries
    hold, a ['proximity'] entry of the caller included. *)
Theorem weighted_reads_weight_only G weight h h' :
  (∀ x, x ∈ edges G → x.2 < length h) → (∀ x, x ∈ edges G → x.2 < length h') →
  (∀ x, x ∈ edges G →
     default ∅ (h !! x.2) !! weight = default ∅ (h' !! x.2) !! weight) →
  (∀ r, (Weighted._SPT G r weight h).1 = (Weighted._SPT G r weight h').1) ∧
  (Weighted.salience G weight h).1 = (Weighted.salience G weight h').1.
Proof.
  intros Halloc Halloc' Hagree. split.
  - intros r. by apply (SPT_weighted_outcome G r weight h h').
  - by apply (salience_weighted_outcome G weight h h').
Qed.
End Outcomes.

Lemma salience_repeatable_witness :
  (∀ x, x ∈ edges path3 → x.2 < length unit_weights) ∧
  (Weighted.salience path3 "weight" unit_weights).1 = Ok salience_path3 ∧
  (Weighted.salience path3 "weight"
     (Weighted.salience path3 "weight" unit_weights).2).1 = Ok salience_path3 ∧
  (Unweighted.salience path3 (Unweighted.salience path3 unit_weights).2).1 =
    (Unweighted.salience path3 unit_weights).1.
Proof.
  destruct (salience_repeatable path3 "weight" unit_weights
              (path3_edges_allocated unit_weights eq_refl)) as (_ & Hw & Hu).
  assert ((Weighted.salience path3 "weight" unit_weights).1 = Ok salience_path3) as H1.
  { vm_compute. reflexivity. }
  split_and!; [exact (path3_edges_allocated unit_weights eq_refl)|exact H1| |exact Hu].
  rewrite Hw. exact H1.
Defined.

Lemma weighted_reads_weight_only_witness :
  (∀ x, x ∈ edges path3 → x.2 < length unit_weights) ∧
  (∀ x, x ∈ edges path3 → x.2 < length unit_weights_and_more) ∧
  (∀ x, x ∈ edges path3 →
     default ∅ (unit_weights !! x.2) !! "weight"%string =
     default ∅ (unit_weights_and_more !! x.2) !! "weight"%string) ∧
  (Weighted.salience path3 "weight" unit_weights_and_more).1 = Ok salience_path3.
Proof.
  assert (∀ x, x ∈ edges path3 →
     default ∅ (unit_weights !! x.2) !! "weight"%string =
     default ∅ (unit_weights_and_more !! x.2) !! "weight"%string) as Hagree.
  { intros x Hin. simpl in Hin. apply elem_of_cons in Hin as [->|Hin]; [done|].
    by apply list_elem_of_singleton in Hin as ->. }
  split_and!; [exact (path3_edges_allocated unit_weights eq_refl)
              |exact (path3_edges_allocated unit_weights_and_more eq_refl)
              |exact Hagree|].
  destruct (weighted_reads_weight_only path3 "weight" unit_weights unit_weights_and_more
              (path3_edges_allocated unit_weights eq_refl)
              (path3_edges_allocated unit_weights_and_more eq_refl) Hagree)
    as [_ <-].
  vm_compute. reflexivity.
Defined.

(** ** Node labels do not matter *)

Lemma bind_ext_at {A B : Type} (m : M A) (k k' : A → M B) h :
  (∀ a g, k a g = k' a g) → bind m k h = bind m k' h.
Proof. intros Hk. unfold bind. destruct (m h) as [[a| |] g]; [apply Hk|done..]. Qed.

Lemma for_acc_ext_at {A S : Type} (xs : list A) (body body' : S → A → M S) acc h :
  (∀ s x g, body s x g = body' s x g) →
  for_acc xs body acc h = for_acc xs body' acc h.
Proof.
  intros Hb. revert acc h. induction xs as [|x xs IH]; intros acc h; simpl; [done|].
  unfold bind. rewrite Hb. destruct (body' acc x h) as [[s| |] g]; [apply IH|done..].
Qed.

Section Renaming.
Context {L L' : Type} `{EqDecision L} `{EqDecision L'}.
Context (f : L → L') `{!Inj (=) (=) f}.
Implicit Types (G : Graph L) (h : store).

Lemma mapping_get_rename (x : L) (xs : list L) (js : list nat) dflt :
  mapping_get (f x) (zip (map f xs) js) dflt = mapping_get x (zip xs js) dflt.
Proof.
  revert js. induction xs as [|y xs IH]; intros [|j js]; simpl; try done.
  destruct (decide (x = y)) as [->|Hne].
  - by rewrite decide_True.
  - rewrite decide_False; [apply IH|]. intros Heq. by apply Hne, (inj f).
Qed.

Lemma relabel_rename G x : relabel (rename f G) (f x) = relabel G x.
Proof.
  unfold relabel, node_mapping, order. simpl. rewrite length_map.
  apply mapping_get_rename.
Qed.

Lemma map_M_copy_edge_rename G (es : list (L * L * loc)) :
  map_M (copy_edge (rename f G)) (map (λ e, (f e.1.1, f e.1.2, e.2)) es) =
  map_M (copy_edge G) es.
Proof.
  induction es as [|[[u v] l] es IH]; [done|]. simpl.
  rewrite IH. unfold copy_edge. by rewrite !relabel_rename.
Qed.

Lemma convert_rename G :
  convert_node_labels_to_integers (rename f G) = convert_node_labels_to_integers G.
Proof.
  unfold convert_node_labels_to_integers. cbn [edges nodes rename is_directed is_multigraph].
  rewrite map_M_copy_edge_rename.
  assert (map (relabel (rename f G)) (map f (nodes G)) = map (relabel G) (nodes G)) as ->.
  { rewrite map_map. apply map_ext. intros x. apply relabel_rename. }
  done.
Qed.

(** X14.  The labels of the nodes play no part: on a graph whose nodes have
    been renamed (injectively), [_SPT] and [salience] behave exactly as on
    the graph itself, in both variants; the matrices are indexed by the
    position of a node in the enumeration of the nodes. *)
Theorem renaming_invariant G weight h :
  (∀ r, Weighted._SPT (rename f G) r weight h = Weighted._SPT G r weight h) ∧
  (∀ r, Unweighted._SPT (rename f G) r h = Unweighted._SPT G r h) ∧
  Weighted.salience (rename f G) weight h = Weighted.salience G weight h ∧
  Unweighted.salience (rename f G) h = Unweighted.salience G h.
Proof.
  assert (∀ r, Weighted._SPT (rename f G) r weight = Weighted._SPT G r weight) as Hw.
  { intros r. unfold Weighted._SPT. by rewrite convert_rename. }
  assert (∀ r, Unweighted._SPT (rename f G) r = Unweighted._SPT G r) as Hu.
  { intros r. unfold Unweighted._SPT. by rewrite convert_rename. }
  assert (order (rename f G) = order G) as HN.
  { unfold order. simpl. by rewrite length_map. }
  split_and!.
  - intros r. by rewrite Hw.
  - intros r. by rewrite Hu.
  - unfold Weighted.salience, Weighted.salience_by. rewrite convert_rename, HN.
    apply bind_ext_at. intros Gn g. unfold bind at 1 3.
    rewrite (for_acc_ext_at _ _
               (λ S n, T <- Weighted._SPT G n weight ;; ret (madd S T))); [done|].
    intros S n g'. by rewrite Hw.
  - unfold Unweighted.salience, Unweighted.salience_by. rewrite convert_rename, HN.
    apply bind_ext_at. intros Gn g. unfold bind at 1 3.
    rewrite (for_acc_ext_at _ _
               (λ S n, T <- Unweighted._SPT G n ;; ret (madd S T))); [done|].
    intros S n g'. by rewrite Hu.
Qed.
End Renaming.

Lemma shift_inj : Inj (=) (=) (λ n : nat, n + 10).
Proof. intros x y Hxy. lia. Qed.

Lemma renaming_invariant_witness :
  Inj (=) (=) (λ n : nat, n + 10) ∧
  nodes (rename (λ n : nat, n + 10) path3) = [10; 11; 12] ∧
  Weighted.salience (rename (λ n : nat, n + 10) path3) "weight" unit_weights =
    Weighted.salience path3 "weight" unit_weights ∧
  Unweighted.salience (rename (λ n : nat, n + 10) path3) unit_weights =
    Unweighted.salience path3 unit_weights.
Proof.
  split; [exact shift_inj|]. split; [reflexivity|].
  destruct (@renaming_invariant nat nat _ _ (λ n : nat, n + 10) shift_inj
              path3 "weight" unit_weights) as (_ & _ & Hw & Hu).
  split; [exact Hw|exact Hu].
Defined.

(** ** The tree spans what the reference node reaches *)

Lemma bfs_visit_keys pv ws st :
  (∀ w, w ∈ ws → w ∈ (bfs_visit pv ws st).1.*1) ∧
  (∀ k, k ∈ st.1.*1 → k ∈ (bfs_visit pv ws st).1.*1) ∧
  (∀ k, k ∈ (bfs_visit pv ws st).1.*1 → k ∈ st.1.*1 ∨ k ∈ (bfs_visit pv ws st).2) ∧
  (∀ k, k ∈ st.2 → k ∈ (bfs_visit pv ws st).2).
Proof.
  revert st. induction ws as [|w ws IH]; intros [ps nl]; simpl.
  { split_and!; [by intros w ?%elem_of_nil|done|by left|done]. }
  destruct (dict_mem w ps) eqn:Hmem.
  - destruct (IH (ps, nl)) as (Hws & Hgrow & Hnew & Hnl). split_and!; [|done..].
    intros w' [->|Hw']%elem_of_cons; [|by apply Hws].
    apply Hgrow. simpl. by apply dict_mem_keys.
  - rewrite dict_set_absent by done.
    destruct (IH (ps ++ [(w, pv ++ [w])], nl ++ [w])) as (Hws & Hgrow & Hnew & Hnl).
    simpl in *. split_and!.
    + intros w' [->|Hw']%elem_of_cons; [|by apply Hws].
      apply Hgrow. rewrite fmap_app. apply elem_of_app. right. simpl. left.
    + intros k Hk. apply Hgrow. rewrite fmap_app. apply elem_of_app. by left.
    + intros k Hk. destruct (Hnew k Hk) as [Hps|?]; [|by right].
      rewrite fmap_app in Hps. apply elem_of_app in Hps as [?|Hps]; [by left|right].
      simpl in Hps. apply list_elem_of_singleton in Hps as ->.
      apply Hnl. apply elem_of_app. right. left.
    + intros k Hk. apply Hnl. apply elem_of_app. by left.
Qed.

(** One level: the keys that were waiting are closed afterwards, the new
    keys wait. *)
Lemma bfs_level_closed Gn level st st' :
  bfs_level Gn level st = Ok st' →
  (∀ k, k ∈ st.1.*1 → k ∉ level → k ∉ st.2 →
        ∀ w, w ∈ adj Gn k → w ∈ st.1.*1) →
  (∀ k, k ∈ st'.1.*1 → k ∉ st'.2 → ∀ w, w ∈ adj Gn k → w ∈ st'.1.*1) ∧
  (∀ k, k ∈ st.1.*1 → k ∈ st'.1.*1).
Proof.
  revert st. induction level as [|v vs IH]; intros st; simpl.
  { intros [= <-] Hcl. split; [|done]. intros k Hk Hnl. apply Hcl; [done| |done].
    by intros ?%elem_of_nil. }
  destruct (dict_get v st.1) as [pv|] eqn:Hpv; [|done].
  intros Hrest Hcl.
  destruct (bfs_visit_keys pv (adj Gn v) st) as (Hws & Hgrow & Hnew & Hnl).
  destruct (IH _ Hrest) as [Hcl' Hgrow'].
  - intros k Hk Hvs Hk2 w Hw.
    destruct (decide (k = v)) as [->|Hne]; [by apply Hws|].
    destruct (Hnew k Hk) as [Hold|?]; [|done].
    apply Hgrow. apply (Hcl k); [done| |by intros ?%Hnl|done].
    intros [?|?]%elem_of_cons; done.
  - split; [done|]. intros k Hk. by apply Hgrow', Hgrow.
Qed.

Lemma _single_shortest_path_closed fuel Gn nextlevel ps ps' :
  _single_shortest_path fuel Gn nextlevel ps = Ok ps' →
  (∀ k, k ∈ ps.*1 → k ∉ nextlevel → ∀ w, w ∈ adj Gn k → w ∈ ps.*1) →
  (∀ k, k ∈ ps'.*1 → ∀ w, w ∈ adj Gn k → w ∈ ps'.*1) ∧
  (∀ k, k ∈ ps.*1 → k ∈ ps'.*1).
Proof.
  revert nextlevel ps. induction fuel as [|fuel IH]; intros nextlevel ps.
  { destruct nextlevel; simpl; [|done]. intros [= <-] Hcl. split; [|done].
    intros k Hk. apply Hcl; [done|by intros ?%elem_of_nil]. }
  destruct nextlevel as [|v vs].
  { intros [= <-] Hcl. split; [|done].
    intros k Hk. apply Hcl; [done|by intros ?%elem_of_nil]. }
  cbn [_single_shortest_path].
  destruct (bfs_level Gn (v :: vs) (ps, [])) as [st| |] eqn:Hl; simpl; try done.
  intros Hrest Hcl.
  destruct (bfs_level_closed _ _ _ _ Hl) as [Hcl1 Hgrow1].
  { simpl. intros k Hk Hlevel _. by apply Hcl. }
  destruct (IH _ _ Hrest) as [Hcl' Hgrow']; [done|].
  split; [done|]. intros k Hk. by apply Hgrow', Hgrow1.
Qed.

Lemma single_source_shortest_path_closed Gn r ps :
  single_source_shortest_path Gn r = Ok ps →
  r ∈ ps.*1 ∧ ∀ k, k ∈ ps.*1 → ∀ w, w ∈ adj Gn k → w ∈ ps.*1.
Proof.
  unfold single_source_shortest_path. case_decide; [|done]. intros Hbfs.
  destruct (_single_shortest_path_closed _ _ _ _ _ Hbfs) as [Hcl Hgrow].
  - simpl. intros k ->%list_elem_of_singleton Hk. destruct Hk. left.
  - split; [|done]. apply Hgrow. simpl. left.
Qed.

(** Keys closed under adjacency contain every walk from one of them. *)
Lemma closed_walk es (keys : list nat) r p b :
  r ∈ keys → (∀ k, k ∈ keys → ∀ w, w ∈ (adj_items es k).*1 → w ∈ keys) →
  walk es p → head p = Some r → last p = Some b → b ∈ keys.
Proof.
  intros Hr Hcl. revert b. induction p as [|x p IH] using rev_ind; intros b; [done|].
  intros Hw Hhead Hlast. rewrite last_snoc in Hlast. injection Hlast as ->.
  destruct p as [|y p0] using rev_ind.
  { simpl in Hhead. by injection Hhead as ->. }
  clear IHp0.
  assert (y ∈ keys) as Hy.
  { apply IH.
    - intros a c Hc. apply Hw. destruct Hc as (p1 & p2 & ->).
      exists p1, (p2 ++ [b]). by rewrite <- !app_assoc.
    - destruct p0; simpl in *; done.
    - apply last_snoc. }
  assert (adjacent es y b) as [l Hadj].
  { apply Hw. exists p0, []. by rewrite <- app_assoc. }
  apply (Hcl y Hy).
  destruct Hadj as [Hin|Hin]; by apply adj_items_complete in Hin as [? ?].
Qed.

(** A key other than the root has a predecessor that the fill loop marks. *)
Lemma fill_spans n r ps T b :
  tree_paths r ps → mark_paths (zeros n n) ps = Ok T →
  b ∈ ps.*1 → b ≠ r → ∃ a, entry T a b = Some 1%Q.
Proof.
  intros (Hnd & Hroot & Htree) Hfill ([k p] & -> & Hin)%list_elem_of_fmap Hne.
  simpl in *. destruct (Htree k p Hin) as [Hlast [->|(k' & p' & Hin' & ->)]].
  { by injection Hlast as ->. }
  destruct (Htree k' p' Hin') as [Hlast' _]. exists k'.
  apply (mark_paths_marks _ _ _ k (p' ++ [k]) k' k Hfill Hin).
  destruct p' as [|x p0 _] using rev_ind; [done|].
  rewrite last_snoc in Hlast'. injection Hlast' as ->.
  exists p0, []. by rewrite <- app_assoc.
Qed.

(** *** Dijkstra *)

Lemma heap_remove_keeps c fr x :
  x ∈ fr → x ∈ heap_remove c fr ∨ x.1.2 = c.
Proof.
  induction fr as [|y fr IH]; simpl; [by intros ?%elem_of_nil|].
  intros [->|Hin]%elem_of_cons.
  - case_decide; [by right|left; left].
  - case_decide; [by left|]. destruct (IH Hin); [left; by right|by right].
Qed.

Lemma heap_remove_NoDup c (fr : list (Q * nat * nat)) :
  NoDup ((λ x, x.1.2) <$> fr) → NoDup ((λ x, x.1.2) <$> heap_remove c fr).
Proof.
  induction fr as [|y fr IH]; simpl; [done|].
  intros [Hy Hnd]%NoDup_cons. case_decide; [done|].
  rewrite fmap_cons. apply NoDup_cons. split; [|by apply IH].
  intros (x & Hx & Hin%heap_remove_subseteq)%list_elem_of_fmap.
  apply Hy. apply list_elem_of_fmap. eauto.
Qed.

Lemma counters_unique (fr : list (Q * nat * nat)) x y :
  NoDup ((λ x, x.1.2) <$> fr) → x ∈ fr → y ∈ fr → x.1.2 = y.1.2 → x = y.
Proof.
  induction fr as [|z fr IH]; simpl; [by intros _ ?%elem_of_nil|].
  intros [Hz Hnd]%NoDup_cons Hx Hy Heq.
  assert (∀ w, w ∈ fr → w.1.2 ≠ z.1.2) as Hfresh.
  { intros w Hw Hc. apply Hz. apply list_elem_of_fmap. eauto. }
  apply elem_of_cons in Hx as [->|Hx]; apply elem_of_cons in Hy as [->|Hy].
  - done.
  - by destruct (Hfresh y Hy).
  - by destruct (Hfresh x Hx).
  - by apply IH.
Qed.

Lemma relax_span es cur h key v d st ue st' :
  relax h key v d st ue = Ok st' → dijkstra_span es cur st →
  dijkstra_span es cur st' ∧ dist st' = dist st ∧
  ue.1 ∈ (paths st').*1 ∧ (∀ k, k ∈ (paths st).*1 → k ∈ (paths st').*1).
Proof.
  destruct ue as [u l]. unfold relax. simpl.
  intros Hr (Hkeys & Hfin & Hseen & Hfr & Hnd & Hcl).
  set (cost := weight_function key (default ∅ (h !! l))) in *.
  assert (∀ st'', match dict_get v (paths st) with
          | Some pv =>
              Ok (mkDijkstra (dist st) (dict_set u (d + cost)%Q (seen st))
                    (fringe st ++ [((d + cost)%Q, counter st, u)])
                    (S (counter st)) (dict_set u (pv ++ [u]) (paths st)))
          | None => Raise KeyError
          end = Ok st'' →
          dijkstra_span es cur st'' ∧ dist st'' = dist st ∧
          u ∈ (paths st'').*1 ∧ (∀ k, k ∈ (paths st).*1 → k ∈ (paths st'').*1))
    as Hpush.
  { intros st''. destruct (dict_get v (paths st)) as [pv|]; [|done].
    intros [= <-]. simpl.
    assert (∀ k, k ∈ (paths st).*1 → k ∈ (dict_set u (pv ++ [u]) (paths st)).*1) as Hgrow.
    { intros k Hk. apply dict_mem_keys, dict_mem_set. right. by apply dict_mem_keys. }
    assert (u ∈ (dict_set u (pv ++ [u]) (paths st)).*1) as Hu.
    { apply dict_mem_keys, dict_mem_set. by left. }
    split_and!; [|done|done|done]. split_and!; simpl.
    - intros k [->|Hk]%dict_mem_keys%dict_mem_set.
      + right. eexists. split; [apply elem_of_app; right; left|done].
      + apply dict_mem_keys in Hk. destruct (Hkeys k Hk) as [?|(x & Hx & Hxk)]; [by left|].
        right. exists x. split; [apply elem_of_app; by left|done].
    - intros w Hw. by apply Hgrow, Hfin.
    - intros w [->|Hw]%dict_mem_set; [done|]. by apply Hgrow, Hseen.
    - intros x [Hx|Hx]%elem_of_app.
      + destruct (Hfr x Hx). split; [by apply Hgrow|lia].
      + apply list_elem_of_singleton in Hx as ->. simpl. split; [done|lia].
    - rewrite fmap_app. apply NoDup_app. split_and!; [done| |apply NoDup_singleton].
      intros c (x & -> & Hx)%list_elem_of_fmap Hc. simpl in Hc.
      apply list_elem_of_singleton in Hc. destruct (Hfr x Hx). lia.
    - intros w Hw Hcur w' Hw'. by apply Hgrow, (Hcl w). }
  assert (dijkstra_span es cur st) as Hst by (by split_and!).
  destruct (dict_get u (dist st)) as [ud|] eqn:Hud.
  { destruct (Qltb _ ud); [done|]. injection Hr as <-. split_and!; [done..| |done].
    apply Hfin. unfold dict_mem. by rewrite Hud. }
  destruct (dict_get u (seen st)) as [su|] eqn:Hsu; [|by apply Hpush].
  destruct (Qltb _ su); [by apply Hpush|]. injection Hr as <-.
  split_and!; [done..| |done]. apply Hseen. unfold dict_mem. by rewrite Hsu.
Qed.

Lemma relax_all_span es cur h key v d ues st st' :
  relax_all h key v d ues st = Ok st' → dijkstra_span es cur st →
  dijkstra_span es cur st' ∧ dist st' = dist st ∧
  (∀ ue, ue ∈ ues → ue.1 ∈ (paths st').*1) ∧
  (∀ k, k ∈ (paths st).*1 → k ∈ (paths st').*1).
Proof.
  revert st. induction ues as [|ue ues IH]; intros st; simpl.
  { intros [= <-] Hst. split_and!; [done..| |done]. by intros ue ?%elem_of_nil. }
  destruct (relax h key v d st ue) as [st1| |] eqn:Hr; simpl; try done.
  intros Hrest Hst.
  destruct (relax_span es cur _ _ _ _ _ _ _ Hr Hst) as (Hst1 & Hd1 & Hue & Hgrow1).
  destruct (IH st1 Hrest Hst1) as (Hst' & Hd' & Hues & Hgrow').
  split_and!; [done|congruence| |by auto].
  intros ue' [->|Hin]%elem_of_cons; [by apply Hgrow'|by apply Hues].
Qed.

Lemma dijkstra_span_done es st v :
  dijkstra_span es (Some v) st → dict_mem v (dist st) = true →
  (∀ w, w ∈ (adj_items es v).*1 → w ∈ (paths st).*1) →
  dijkstra_span es None st.
Proof.
  intros (Hkeys & Hfin & Hseen & Hfr & Hnd & Hcl) Hv Hadj. split_and!; [done..|].
  intros w Hw _. destruct (decide (w = v)) as [->|Hne]; [done|].
  apply Hcl; [done|congruence].
Qed.

Lemma _dijkstra_multisource_span fuel Gn h key st ps :
  _dijkstra_multisource fuel Gn h key st = Ok ps →
  dijkstra_span (edges Gn) None st →
  (∀ k, k ∈ ps.*1 → ∀ w, w ∈ (adj_items (edges Gn) k).*1 → w ∈ ps.*1) ∧
  (∀ k, k ∈ (paths st).*1 → k ∈ ps.*1).
Proof.
  assert (∀ st, heappop (fringe st) = None → dijkstra_span (edges Gn) None st →
            ∀ k, k ∈ (paths st).*1 →
                 ∀ w, w ∈ (adj_items (edges Gn) k).*1 → w ∈ (paths st).*1) as Hend.
  { intros st0 Hpop (Hkeys & _ & _ & _ & _ & Hcl) k Hk.
    destruct (fringe st0) as [|x fr] eqn:Hfr; [|done].
    destruct (Hkeys k Hk) as [Hd|(x & Hx & _)]; [|by apply elem_of_nil in Hx].
    by apply Hcl. }
  revert st. induction fuel as [|fuel IH]; intros st; simpl.
  { destruct (heappop (fringe st)) as [[[[d c] v] fr]|] eqn:Hpop; [done|].
    intros [= <-] Hst. split; [by apply Hend|done]. }
  destruct (heappop (fringe st)) as [[[[d c] v] fr]|] eqn:Hpop.
  2:{ intros [= <-] Hst. split; [by apply Hend|done]. }
  pose proof Hpop as (Hm & Hsub & _ & _)%heappop_spec.
  assert (fr = heap_remove c (fringe st)) as Hfr'.
  { destruct (fringe st) as [|x xs]; [done|]. unfold heappop in Hpop.
    injection Hpop as Hmin <-. by rewrite Hmin. }
  simpl. intros Hrest (Hkeys & Hfin & Hseen & Hfr & Hnd & Hcl).
  assert (∀ k, k ∈ (paths st).*1 →
            dict_mem k (dist st) = true ∨ k = v ∨ ∃ x, x ∈ fr ∧ x.2 = k) as Hkeys'.
  { intros k Hk. destruct (Hkeys k Hk) as [?|(x & Hx & Hxk)]; [by left|right].
    destruct (heap_remove_keeps c _ x Hx) as [Hin|Hc].
    - right. exists x. by rewrite Hfr'.
    - left. rewrite <- Hxk.
      by rewrite (counters_unique _ x (d, c, v) Hnd Hx Hm Hc). }
  assert (NoDup ((λ x, x.1.2) <$> fr)) as Hnd'.
  { rewrite Hfr'. by apply heap_remove_NoDup. }
  destruct (dict_mem v (dist st)) eqn:Hv.
  - apply (IH _ Hrest). split_and!; simpl; [|done|done| |done|done].
    + intros k Hk. destruct (Hkeys' k Hk) as [?|[->|?]]; auto.
    + intros x Hx%Hsub. by apply Hfr.
  - destruct (relax_all _ _ _ _ _ _) as [st1| |] eqn:Hr; simpl in Hrest; try done.
    destruct (relax_all_span (edges Gn) (Some v) _ _ _ _ _ _ _ Hr)
      as (Hst1 & Hd1 & Hues & Hgrow1).
    { split_and!; simpl.
      - intros k Hk. destruct (Hkeys' k Hk) as [?|[->|?]].
        + left. apply dict_mem_set. by right.
        + left. apply dict_mem_set. by left.
        + by right.
      - intros w [->|Hw]%dict_mem_set; [|by apply Hfin].
        by destruct (Hfr _ Hm).
      - done.
      - intros x Hx%Hsub. by apply Hfr.
      - done.
      - intros w [->|Hw]%dict_mem_set Hcur; [done|]. by apply Hcl. }
    destruct (IH _ Hrest) as [Hcl' Hgrow'].
    + apply (dijkstra_span_done _ _ v); [done| |].
      * rewrite Hd1. simpl. apply dict_mem_set. by left.
      * intros w ([u l] & -> & Hin)%list_elem_of_fmap. by apply (Hues (u, l)).
    + split; [done|]. intros k Hk. by apply Hgrow', Hgrow1.
Qed.

Lemma single_source_dijkstra_path_closed Gn h r key ps :
  single_source_dijkstra_path Gn h r key = Ok ps →
  r ∈ ps.*1 ∧ ∀ k, k ∈ ps.*1 → ∀ w, w ∈ adj Gn k → w ∈ ps.*1.
Proof.
  unfold single_source_dijkstra_path. case_decide; [|done]. intros Hd.
  destruct (_dijkstra_multisource_span _ _ _ _ _ _ Hd) as [Hcl Hgrow].
  - split_and!; simpl.
    + intros k ->%list_elem_of_singleton. right.
      eexists. split; [left|done].
    + done.
    + intros u Hu. unfold dict_mem in Hu. simpl in Hu. case_decide; [subst; left|done].
    + intros x ->%list_elem_of_singleton. simpl. split; [left|lia].
    + apply NoDup_singleton.
    + done.
  - split; [|done]. apply Hgrow. simpl. left.
Qed.

Section Spanning.
Context {L : Type} `{EqDecision L}.

Lemma is_edge_adjacent (G : Graph L) base i j :
  is_edge G i j → adjacent (copied_edges G base (edges G)) i j.
Proof.
  intros (u & v & l & Hin & Hor).
  destruct (copied_edges_elem G base u v l Hin) as [l' Hin'].
  exists l'. destruct Hor as [[<- <-]|[<- <-]]; [by left|by right].
Qed.

(** The tree spans what the reference node reaches. *)
Lemma SPT_spans (G : Graph L) r weight h T p b :
  returns (Weighted._SPT G r weight) h T ∨ returns (Unweighted._SPT G r) h T →
  head p = Some r → last p = Some b →
  (∀ a c, consecutive p a c → is_edge G a c) →
  b ≠ r →
  ∃ a, entry T a b = Some 1%Q.
Proof.
  intros Hret Hhead Hlast Hwalk Hne.
  assert (∃ Gn ps, edges Gn = copied_edges G (length h) (edges G) ∧
            tree_paths r ps ∧ r ∈ ps.*1 ∧
            (∀ k, k ∈ ps.*1 → ∀ w, w ∈ adj Gn k → w ∈ ps.*1) ∧
            mark_paths (zeros (order G) (order G)) ps = Ok T)
    as (Gn & ps & Hedges & Htree & Hr & Hcl & Hfill).
  { destruct Hret as [[h' Hrun]|[h' Hrun]].
    - apply SPT_weighted_Ok in Hrun as (Gn & h1 & ps & _ & Hedges & Hd & Hfill).
      exists Gn, ps.
      destruct (single_source_dijkstra_path_closed _ _ _ _ _ Hd).
      split_and!; [done| |done..]. by eapply single_source_dijkstra_path_tree.
    - apply SPT_unweighted_Ok in Hrun as (Gn & ps & _ & Hedges & Hb & Hfill).
      exists Gn, ps.
      destruct (single_source_shortest_path_closed _ _ _ Hb).
      split_and!; [done| |done..]. by eapply single_source_shortest_path_tree. }
  apply (fill_spans _ r ps T b Htree Hfill); [|done].
  apply (closed_walk (edges Gn) ps.*1 r p b Hr Hcl); [|done..].
  intros a c Hc. rewrite Hedges. by apply is_edge_adjacent, Hwalk.
Qed.

(** X16. The tree [_SPT] returns spans what the reference node reaches, in
    both variants: a node [b] other than [r] at the end of a sequence of
    edges of [G] that starts at [r] has a one in its column. *)
Theorem SPT_spans_reachable (G : Graph L) r weight h T p b :
  returns (Weighted._SPT G r weight) h T ∨ returns (Unweighted._SPT G r) h T →
  head p = Some r → last p = Some b →
  (∀ a c, consecutive p a c → is_edge G a c) →
  b ≠ r →
  ∃ a, entry T a b = Some 1%Q.
Proof. exact (SPT_spans G r weight h T p b). Qed.
End Spanning.

Lemma path3_walk_0_2 : ∀ a c, consecutive [0; 1; 2] a c → is_edge path3 a c.
Proof.
  intros a c (p1 & p2 & Heq).
  destruct p1 as [|x1 [|x2 [|x3 p1]]]; simplify_eq/=.
  - exact path3_edge_0_1.
  - exists 1, 2, 1. split; [right; left|]. left. by vm_compute.
  - destruct p1; done.
Qed.

Lemma SPT_spans_reachable_witness :
  (returns (Weighted._SPT path3 0 "weight") unit_weights tree_path3_0 ∨
   returns (Unweighted._SPT path3 0) unit_weights tree_path3_0) ∧
  head [0; 1; 2] = Some 0 ∧ last [0; 1; 2] = Some 2 ∧
  (∀ a c, consecutive [0; 1; 2] a c → is_edge path3 a c) ∧
  2 ≠ 0 ∧
  ∃ a, entry tree_path3_0 a 2 = Some 1%Q.
Proof.
  assert (returns (Weighted._SPT path3 0 "weight") unit_weights tree_path3_0 ∨
          returns (Unweighted._SPT path3 0) unit_weights tree_path3_0) as Hret.
  { left. apply path3_tree_returns. }
  split_and!; [exact Hret|reflexivity|reflexivity|exact path3_walk_0_2|lia|].
  exact (SPT_spans_reachable path3 0 "weight" unit_weights tree_path3_0 [0; 1; 2] 2
           Hret eq_refl eq_refl path3_walk_0_2 ltac:(lia)).
Defined.

(** ** The entries count the trees *)

Lemma Qnat_plus_0 c : (Qnat c + 0)%Q = Qnat c.
Proof. unfold Qnat, Qplus, inject_Z. cbn [Qnum Qden]. f_equal; lia. Qed.

Lemma Qnat_plus_1 c : (Qnat c + 1)%Q = Qnat (S c).
Proof. unfold Qnat, Qplus, inject_Z. cbn [Qnum Qden]. f_equal; lia. Qed.

Lemma marks_cons T trees i j :
  marks (T :: trees) i j =
    (if is_one (entry T i j) then 1 else 0) + marks trees i j.
Proof.
  unfold marks. rewrite filter_cons.
  destruct (is_one (entry T i j)); case_decide; done.
Qed.

Lemma marks_bound trees i j : marks trees i j ≤ length trees.
Proof. unfold marks. apply length_filter. Qed.

(** The sum of matrices of zeros and ones counts the ones. *)
Lemma entry_accumulated N trees :
  ∀ S0 i j c,
  Forall (λ T, shape N T ∧ ∀ a b x, entry T a b = Some x → x = 0%Q ∨ x = 1%Q)
         trees →
  shape N S0 → entry S0 i j = Some (Qnat c) →
  entry (foldl madd S0 trees) i j = Some (Qnat (c + marks trees i j)).
Proof.
  induction trees as [|T trees IH]; intros S0 i j c Hall Hs H0.
  { simpl. unfold marks. simpl. by rewrite Nat.add_0_r. }
  apply Forall_cons in Hall as [[HsT Hbin] Hall]. simpl.
  destruct (entry_shape N S0 i j _ Hs H0) as [Hi Hj].
  destruct (shape_entry N T i j HsT Hi Hj) as [t Ht].
  rewrite marks_cons, Ht.
  destruct (Hbin i j t Ht) as [-> | ->].
  - change (is_one (Some 0%Q)) with false.
    rewrite (IH (madd S0 T) i j c); [done|done|by apply madd_shape|].
    rewrite entry_madd, H0, Ht. by rewrite Qnat_plus_0.
  - change (is_one (Some 1%Q)) with true.
    rewrite (IH (madd S0 T) i j (S c)); [|done|by apply madd_shape|].
    + do 2 f_equal. lia.
    + rewrite entry_madd, H0, Ht. by rewrite Qnat_plus_1.
Qed.

(** The loop [S = S + _SPT(G, n)] adds up one matrix for each node. *)
Lemma accumulate_trees (P : store → Prop) (spt : nat → M matrix) ns :
  ∀ S0 h S h',
  P h →
  (∀ n h1 T h2, P h1 → spt n h1 = (Ok T, h2) → P h2) →
  for_acc ns (λ S n, T <- spt n ;; ret (madd S T)) S0 h = (Ok S, h') →
  ∃ trees,
    Forall2 (λ n T, ∃ h1 h2, P h1 ∧ spt n h1 = (Ok T, h2)) ns trees ∧
    S = foldl madd S0 trees.
Proof.
  induction ns as [|n ns IH]; intros S0 h S h' HP Hstep; simpl.
  { intros [= <- _]. by exists []. }
  intros (S1 & h1 & Hbody & Hrest)%bind_Ok.
  apply bind_Ok in Hbody as (T & h2 & HT & Hret). injection Hret as <- <-.
  destruct (IH _ _ _ _ (Hstep _ _ _ _ HP HT) Hstep Hrest) as (trees & Hall & ->).
  exists (T :: trees). split; [|done].
  apply Forall2_cons. split; [by exists h, h2|done].
Qed.

Lemma averaged_trees N (P : store → Prop) (spt : nat → M matrix) h S1 h' :
  P h →
  (∀ n h1 T h2, P h1 → spt n h1 = (Ok T, h2) →
     P h2 ∧ shape N T ∧ ∀ a b x, entry T a b = Some x → x = 0%Q ∨ x = 1%Q) →
  for_acc (seq 0 N) (λ S n, T <- spt n ;; ret (madd S T)) (zeros N N) h
    = (Ok S1, h') →
  ∃ trees, length trees = N ∧
    (∀ r T, trees !! r = Some T → ∃ h1 h2, P h1 ∧ spt r h1 = (Ok T, h2)) ∧
    ∀ i j, i < N → j < N →
      entry (quotients S1 N) i j =
        Some (1 * Qnat (marks trees i j) / Qnat N)%Q.
Proof.
  intros HP Hstep Hloop.
  destruct (accumulate_trees P spt (seq 0 N) _ _ _ _ HP
              (λ n h1 T h2 H1 HT, proj1 (Hstep n h1 T h2 H1 HT)) Hloop)
    as (trees & Hall & ->).
  exists trees.
  assert (length trees = N) as Hlen.
  { apply Forall2_length in Hall. by rewrite length_seq in Hall. }
  assert (∀ r T, trees !! r = Some T → ∃ h1 h2, P h1 ∧ spt r h1 = (Ok T, h2))
    as Hties.
  { intros r T HT.
    destruct (Forall2_lookup_r _ _ _ _ _ Hall HT) as (n & Hn & Hrun).
    apply lookup_seq in Hn as [-> _]. exact Hrun. }
  split_and!; [done..|].
  intros i j Hi Hj. rewrite entry_quotients.
  rewrite (entry_accumulated N trees (zeros N N) i j 0).
  - done.
  - apply Forall_forall. intros T [r HT]%list_elem_of_lookup.
    destruct (Hties r T HT) as (h1 & h2 & H1 & Hrun).
    by destruct (Hstep _ _ _ _ H1 Hrun) as (_ & Hs & Hbin).
  - apply shape_zeros.
  - destruct (shape_entry N (zeros N N) i j (shape_zeros N) Hi Hj) as [x Hx].
    rewrite Hx. by apply entry_zeros in Hx as ->.
Qed.

(** Counting the pairs of a relation by rows or by columns. *)
Lemma count_swap {A B : Type} (f : A → B → bool) (xs : list A) (ys : list B) :
  sum_list (map (λ y, length (filter (λ x, f x y = true) xs)) ys) =
  sum_list (map (λ x, length (filter (λ y, f x y = true) ys)) xs).
Proof.
  induction xs as [|x xs IH]; simpl.
  { induction ys as [|y ys IHy]; simpl; [done|]. by rewrite IHy. }
  rewrite <- IH. clear IH.
  induction ys as [|y ys IHy]; simpl; [done|].
  rewrite IHy, !filter_cons.
  destruct (f x y); repeat case_decide; try done; simpl; lia.
Qed.

Lemma sum_list_by_index {A : Type} (g : A → nat) (f : nat → nat) (xs : list A) :
  ∀ k, (∀ r x, xs !! r = Some x → g x = f (k + r)) →
  sum_list (map g xs) = sum_list (map f (seq k (length xs))).
Proof.
  induction xs as [|x xs IH]; intros k Hg; simpl; [done|].
  rewrite (Hg 0 x eq_refl), Nat.add_0_r. f_equal.
  apply IH. intros r y Hy. rewrite (Hg (S r) y Hy). f_equal. lia.
Qed.

Lemma sum_all_one (b : nat) ns :
  b ∉ ns → sum_list (map (λ n, if decide (n = b) then 0 else 1) ns) = length ns.
Proof.
  induction ns as [|n ns IH]; simpl; [done|].
  intros [Hne Hnin]%not_elem_of_cons. rewrite (IH Hnin).
  case_decide; [congruence|done].
Qed.

Lemma sum_all_but_one (b : nat) ns :
  NoDup ns → b ∈ ns →
  sum_list (map (λ n, if decide (n = b) then 0 else 1) ns) = length ns - 1.
Proof.
  induction ns as [|n ns IH]; simpl; [by intros _ ?%elem_of_nil|].
  intros [Hn Hnd]%NoDup_cons Hin. case_decide as Heq.
  - subst n. rewrite (sum_all_one b ns Hn). lia.
  - apply elem_of_cons in Hin as [->|Hin]; [done|]. rewrite (IH Hnd Hin).
    destruct ns; [by apply elem_of_nil in Hin|simpl; lia].
Qed.

Section Counts.
Context {L : Type} `{EqDecision L}.
Implicit Types (G : Graph L) (h : store).

Lemma salience_weighted_run G weight h S h' :
  Weighted.salience G weight h = (Ok S, h') →
  ∃ S1 h1, h `prefix_of` h1 ∧
    for_acc (map (relabel G) (nodes G))
            (λ S n, T <- Weighted._SPT G n weight ;; ret (madd S T))
            (zeros (order G) (order G)) h1 = (Ok S1, h') ∧
    S = quotients S1 (order G).
Proof.
  unfold Weighted.salience, Weighted.salience_by.
  destruct (convert_spec G h) as (k & Hc & _).
  rewrite (bind_step _ _ _ _ _ Hc).
  intros (S1 & h2 & Hloop & Hret)%bind_Ok. unfold lift in Hret.
  injection Hret as Hdiv <-. apply scale_div_Ok in Hdiv as ->.
  eexists S1, _. split_and!; [|done..]. by apply prefix_app_r.
Qed.

(** The matrices the weighted [salience] adds up are the trees [_SPT]
    returns to the caller, one for each reference node. *)
Lemma salience_weighted_trees G weight h S :
  NoDup (nodes G) → (∀ x, x ∈ edges G → x.2 < length h) →
  returns (Weighted.salience G weight) h S →
  ∃ trees, length trees = order G ∧
    (∀ r T, trees !! r = Some T → returns (Weighted._SPT G r weight) h T) ∧
    ∀ i j, i < order G → j < order G →
      entry S i j = Some (1 * Qnat (marks trees i j) / Qnat (order G))%Q.
Proof.
  intros Hnd Halloc [h' Hrun].
  apply salience_weighted_run in Hrun as (S1 & h1 & Hpre & Hloop & ->).
  rewrite (relabel_nodes G Hnd) in Hloop.
  destruct (averaged_trees (order G) (λ g, h `prefix_of` g)
              (λ n, Weighted._SPT G n weight) h1 S1 h' Hpre)
    as (trees & Hlen & Hties & Hentries); [|done|].
  { intros n g1 T g2 Hg1 HT. split_and!.
    - etrans; [exact Hg1|].
      pose proof (preserves_SPT_weighted G n weight g1) as Hp.
      by rewrite HT in Hp.
    - by eapply SPT_weighted_shape.
    - intros a b x Hx.
      destruct (SPT_weighted_entry _ _ _ _ _ _ _ _ _ HT Hx) as [->|[-> _]]; auto. }
  exists trees. split_and!; [done| |done].
  intros r T HT. destruct (Hties r T HT) as (g1 & g2 & Hg1 & Hrun).
  apply returns_fst.
  rewrite (SPT_weighted_outcome G r weight h h h g1 Halloc Halloc
             (λ _ _, eq_refl) (reflexivity h) Hg1).
  by rewrite Hrun.
Qed.

Lemma salience_unweighted_trees G h S :
  NoDup (nodes G) →
  returns (Unweighted.salience G) h S →
  ∃ trees, length trees = order G ∧
    (∀ r T, trees !! r = Some T → returns (Unweighted._SPT G r) h T) ∧
    ∀ i j, i < order G → j < order G →
      entry S i j = Some (1 * Qnat (marks trees i j) / Qnat (order G))%Q.
Proof.
  intros Hnd [h' Hrun].
  apply salience_unweighted_loop in Hrun as (S1 & h1 & Hloop & ->).
  rewrite (relabel_nodes G Hnd) in Hloop.
  destruct (averaged_trees (order G) (λ _, True)
              (λ n, Unweighted._SPT G n) h1 S1 h' I)
    as (trees & Hlen & Hties & Hentries); [|done|].
  { intros n g1 T g2 _ HT. split_and!; [done|by eapply SPT_unweighted_shape|].
    intros a b x Hx.
    destruct (SPT_unweighted_entry _ _ _ _ _ _ _ _ HT Hx) as [->|[-> _]]; auto. }
  exists trees. split_and!; [done| |done].
  intros r T HT. destruct (Hties r T HT) as (g1 & g2 & _ & Hrun).
  apply returns_fst. rewrite (SPT_unweighted_outcome G r h g1). by rewrite Hrun.
Qed.

(** X3.  Every entry of the salience is the quotient [1.*c/N] of a count:
    the number [c] of the trees that have a one at that entry, where the
    trees are the matrices [_SPT] returns to the caller for the reference
    nodes [0 .. N-1].  The count is a whole number at most [N]; the sum of
    the trees holds it exactly, in floats as here, and the entry of the
    program is the one float quotient of [c] by [N]. *)
Theorem salience_counts_trees G weight h S :
  NoDup (nodes G) →
  ((∀ x, x ∈ edges G → x.2 < length h) →
   returns (Weighted.salience G weight) h S →
   ∃ trees, length trees = order G ∧
     (∀ r T, trees !! r = Some T → returns (Weighted._SPT G r weight) h T) ∧
     ∀ i j, i < order G → j < order G →
       marks trees i j ≤ order G ∧
       entry S i j = Some (1 * Qnat (marks trees i j) / Qnat (order G))%Q) ∧
  (returns (Unweighted.salience G) h S →
   ∃ trees, length trees = order G ∧
     (∀ r T, trees !! r = Some T → returns (Unweighted._SPT G r) h T) ∧
     ∀ i j, i < order G → j < order G →
       marks trees i j ≤ order G ∧
       entry S i j = Some (1 * Qnat (marks trees i j) / Qnat (order G))%Q).
Proof.
  intros Hnd. split.
  - intros Halloc Hret.
    destruct (salience_weighted_trees G weight h S Hnd Halloc Hret)
      as (trees & Hlen & Hties & Hentries).
    exists trees. split_and!; [done..|]. intros i j Hi Hj.
    split; [|by apply Hentries]. rewrite <- Hlen. apply marks_bound.
  - intros Hret.
    destruct (salience_unweighted_trees G h S Hnd Hret)
      as (trees & Hlen & Hties & Hentries).
    exists trees. split_and!; [done..|]. intros i j Hi Hj.
    split; [|by apply Hentries]. rewrite <- Hlen. apply marks_bound.
Qed.

(** The tree rooted at [r] has one link into [b] when [r] reaches [b ≠ r],
    and none into [r]. *)
Lemma SPT_column_count G r weight h T b :
  returns (Weighted._SPT G r weight) h T ∨ returns (Unweighted._SPT G r) h T →
  (r ≠ b → reaches G r b) →
  length (filter (λ a, is_one (entry T a b) = true) (seq 0 (order G))) =
    if decide (r = b) then 0 else 1.
Proof.
  intros Hret Hreach.
  destruct (SPT_tree G r weight h T Hret) as [Hroot Huniq].
  assert (shape (order G) T) as Hs.
  { destruct Hret as [[h' Hrun]|[h' Hrun]];
      [by eapply SPT_weighted_shape|by eapply SPT_unweighted_shape]. }
  assert (∀ a x, entry T a b = Some x → x = 0%Q ∨ x = 1%Q) as Hbin.
  { intros a x Hx. destruct Hret as [[h' Hrun]|[h' Hrun]].
    - destruct (SPT_weighted_entry _ _ _ _ _ _ _ _ _ Hrun Hx) as [->|[-> _]]; auto.
    - destruct (SPT_unweighted_entry _ _ _ _ _ _ _ _ Hrun Hx) as [->|[-> _]]; auto. }
  set (col := filter (λ a, is_one (entry T a b) = true) (seq 0 (order G))).
  assert (∀ a, a ∈ col → entry T a b = Some 1%Q) as Hcol.
  { intros a [Ha _]%list_elem_of_filter. apply is_one_binary; [apply Hbin|done]. }
  case_decide as Heq.
  - subst b. destruct col as [|a l] eqn:Hf; [done|].
    destruct (Hroot a). apply Hcol. left.
  - assert (length col ≤ 1) as Hle.
    { apply length_le_1; [apply NoDup_filter, NoDup_seq|].
      intros a a' Ha Ha'. apply (Huniq a a' b); by apply Hcol. }
    destruct (Hreach Heq) as (p & Hhead & Hlast & Hwalk).
    destruct (SPT_spans G r weight h T p b Hret Hhead Hlast Hwalk) as [a Ha];
      [congruence|].
    assert (a ∈ col) as Hin.
    { apply list_elem_of_filter. split; [by rewrite Ha|].
      apply elem_of_seq. destruct (entry_shape _ _ _ _ _ Hs Ha). lia. }
    destruct col; [by apply elem_of_nil in Hin|simpl in *; lia].
Qed.

Lemma column_counts G b (trees : list matrix) :
  length trees = order G → b < order G →
  (∀ r T, trees !! r = Some T →
     length (filter (λ a, is_one (entry T a b) = true) (seq 0 (order G))) =
       if decide (r = b) then 0 else 1) →
  sum_list (map (λ a, marks trees a b) (seq 0 (order G))) = order G - 1.
Proof.
  intros Hlen Hb Hcol. unfold marks.
  rewrite (count_swap (λ T a, is_one (entry T a b)) trees (seq 0 (order G))).
  rewrite (sum_list_by_index _ (λ n, if decide (n = b) then 0 else 1) trees 0)
    by (intros r T HT; by apply Hcol).
  rewrite Hlen, sum_all_but_one; [by rewrite length_seq|apply NoDup_seq|].
  apply elem_of_seq. lia.
Qed.

(** X17.  Where every other node reaches node [b], the counts of column
    [b] of the salience add up to [N - 1]: the entries of the column are the
    quotients [1.*c/N] of the numbers [c] of trees with a one there, and each
    tree but the one rooted at [b] gives the column exactly one link. *)
Theorem salience_column_counts G weight h S b :
  NoDup (nodes G) → b < order G →
  (∀ r, r < order G → r ≠ b → reaches G r b) →
  ((∀ x, x ∈ edges G → x.2 < length h) →
   returns (Weighted.salience G weight) h S →
   ∃ trees, length trees = order G ∧
     (∀ r T, trees !! r = Some T → returns (Weighted._SPT G r weight) h T) ∧
     (∀ a, a < order G →
        entry S a b = Some (1 * Qnat (marks trees a b) / Qnat (order G))%Q) ∧
     sum_list (map (λ a, marks trees a b) (seq 0 (order G))) = order G - 1) ∧
  (returns (Unweighted.salience G) h S →
   ∃ trees, length trees = order G ∧
     (∀ r T, trees !! r = Some T → returns (Unweighted._SPT G r) h T) ∧
     (∀ a, a < order G →
        entry S a b = Some (1 * Qnat (marks trees a b) / Qnat (order G))%Q) ∧
     sum_list (map (λ a, marks trees a b) (seq 0 (order G))) = order G - 1).
Proof.
  intros Hnd Hb Hreach. split.
  - intros Halloc Hret.
    destruct (salience_weighted_trees G weight h S Hnd Halloc Hret)
      as (trees & Hlen & Hties & Hentries).
    exists trees. split_and!; [done..|by intros a Ha; apply Hentries|].
    apply column_counts; [done..|]. intros r T HT.
    apply (SPT_column_count G r weight h T b); [left; by apply Hties|].
    apply Hreach. rewrite <- Hlen. by eapply lookup_lt_Some.
  - intros Hret.
    destruct (salience_unweighted_trees G h S Hnd Hret)
      as (trees & Hlen & Hties & Hentries).
    exists trees. split_and!; [done..|by intros a Ha; apply Hentries|].
    apply column_counts; [done..|]. intros r T HT.
    apply (SPT_column_count G r weight h T b); [right; by apply Hties|].
    apply Hreach. rewrite <- Hlen. by eapply lookup_lt_Some.
Qed.
End Counts.

Lemma path3_reaches_1 : ∀ r, r < order path3 → r ≠ 1 → reaches path3 r 1.
Proof.
  intros r Hr Hne. unfold order in Hr. simpl in Hr.
  assert (r = 0 ∨ r = 2) as [-> | ->] by lia.
  - exists [0; 1]. split_and!; [done..|].
    intros a c (p1 & p2 & Heq).
    destruct p1 as [|x1 [|x2 p1]]; simplify_eq/=; [exact path3_edge_0_1|].
    destruct p1; done.
  - exists [2; 1]. split_and!; [done..|].
    intros a c (p1 & p2 & Heq).
    destruct p1 as [|x1 [|x2 p1]]; simplify_eq/=.
    + exists 1, 2, 1. split; [right; left|]. right. by vm_compute.
    + destruct p1; done.
Qed.

Lemma salience_counts_trees_witness :
  NoDup (nodes path3) ∧
  (∀ x, x ∈ edges path3 → x.2 < length unit_weights) ∧
  returns (Weighted.salience path3 "weight") unit_weights salience_path3 ∧
  ∃ trees, length trees = 3 ∧
    (∀ r T, trees !! r = Some T →
       returns (Weighted._SPT path3 r "weight") unit_weights T) ∧
    ∀ i j, i < 3 → j < 3 →
      marks trees i j ≤ 3 ∧
      entry salience_path3 i j = Some (1 * Qnat (marks trees i j) / Qnat 3)%Q.
Proof.
  split_and!; [exact path3_nodes_NoDup
              |exact (path3_edges_allocated unit_weights eq_refl)
              |exact (proj1 path3_returns)|].
  exact (proj1 (salience_counts_trees path3 "weight" unit_weights salience_path3
                  path3_nodes_NoDup)
           (path3_edges_allocated unit_weights eq_refl) (proj1 path3_returns)).
Defined.

Lemma salience_column_counts_witness :
  NoDup (nodes path3) ∧ 1 < order path3 ∧
  (∀ r, r < order path3 → r ≠ 1 → reaches path3 r 1) ∧
  returns (Unweighted.salience path3) unit_weights salience_path3 ∧
  ∃ trees, length trees = 3 ∧
    (∀ r T, trees !! r = Some T →
       returns (Unweighted._SPT path3 r) unit_weights T) ∧
    (∀ a, a < 3 →
       entry salience_path3 a 1 = Some (1 * Qnat (marks trees a 1) / Qnat 3)%Q) ∧
    sum_list (map (λ a, marks trees a 1) (seq 0 3)) = 2.
Proof.
  assert (1 < order path3) as Hb by (unfold order; simpl; lia).
  split_and!; [exact path3_nodes_NoDup|exact Hb|exact path3_reaches_1
              |exact (proj2 path3_returns)|].
  exact (proj2 (salience_column_counts path3 "weight" unit_weights salience_path3 1
                  path3_nodes_NoDup Hb path3_reaches_1) (proj2 path3_returns)).
Defined.

(** ** Breadth-first search reports paths with the fewest nodes *)

Lemma bfs_visit_opt es r n pv ws st :
  length pv + 1 = n → bfs_opt es r n st → bfs_opt es r n (bfs_visit pv ws st).
Proof.
  intros Hpv. revert st. induction ws as [|w ws IH]; intros [ps next]; [done|].
  intros Hopt. simpl. destruct (dict_mem w ps) eqn:Hw; [by apply IH|].
  apply IH. destruct Hopt as (Hnd & Hlen & Hnext & Hfull & Hbest & Hnear).
  simpl in *. rewrite (dict_set_absent _ _ _ Hw).
  assert (w ∉ ps.*1) as Hfresh.
  { intros Hin%dict_mem_keys. congruence. }
  split_and!; simpl.
  - rewrite fmap_app. apply NoDup_app. split_and!; [done| |apply NoDup_singleton].
    intros k Hk ->%list_elem_of_singleton. done.
  - intros k p [Hin|[= -> ->]%list_elem_of_singleton]%elem_of_app; [by eapply Hlen|].
    rewrite length_app. simpl. lia.
  - intros k [Hk| ->%list_elem_of_singleton]%elem_of_app.
    + destruct (Hnext k Hk) as (p & Hin & Hp). exists p.
      split; [apply elem_of_app; by left|done].
    + exists (pv ++ [w]). split; [apply elem_of_app; right; left|].
      rewrite length_app. simpl. lia.
  - intros k p [Hin|[= -> ->]%list_elem_of_singleton]%elem_of_app Hp;
      apply elem_of_app; [left; by eapply Hfull|right; left].
  - intros k p q [Hin|[= -> ->]%list_elem_of_singleton]%elem_of_app Hq;
      [by eapply Hbest|].
    rewrite length_app. simpl.
    destruct (decide (length q < n)) as [Hshort|?]; [|lia].
    destruct Hfresh. by eapply Hnear.
  - intros b q Hq Hshort. rewrite fmap_app. apply elem_of_app. left.
    by eapply Hnear.
Qed.

Lemma bfs_level_opt es r n Gn level st st' :
  (∀ v, v ∈ level → ∃ p, (v, p) ∈ st.1 ∧ length p + 1 = n) →
  bfs_opt es r n st → bfs_level Gn level st = Ok st' → bfs_opt es r n st'.
Proof.
  revert st. induction level as [|v vs IH]; intros st Hlevel Hopt; simpl.
  { by intros [= <-]. }
  destruct (dict_get v st.1) as [pv|] eqn:Hv; [|done].
  apply dict_get_elem in Hv.
  destruct (Hlevel v ltac:(left)) as (p & Hin & Hp).
  assert (pv = p) as -> by (eapply dict_unique; [apply Hopt|done..]).
  apply IH; [|by apply bfs_visit_opt].
  intros u Hu. destruct (Hlevel u ltac:(by right)) as (pu & Hinu & Hpu).
  exists pu. split; [by apply bfs_visit_persists|done].
Qed.

Lemma connects_snoc_inv es r b q :
  connects es r b q → 2 ≤ length q →
  ∃ q' y, q = q' ++ [b] ∧ connects es r y q' ∧ adjacent es y b.
Proof.
  intros (Hw & Hhead & Hlast) Hlen.
  destruct q as [|b' q' _] using rev_ind; [done|].
  rewrite last_snoc in Hlast. injection Hlast as ->.
  destruct q' as [|y q0 _] using rev_ind; [simpl in Hlen; lia|].
  exists (q0 ++ [y]), y. split; [done|]. split; [split_and!|].
  - intros a c (p1 & p2 & Heq). apply Hw.
    exists p1, (p2 ++ [b]). rewrite Heq. by rewrite <- !app_assoc.
  - destruct q0; simpl in *; done.
  - apply last_snoc.
  - apply Hw. exists q0, []. by rewrite <- app_assoc.
Qed.

Lemma _single_shortest_path_opt fuel Gn r :
  ∀ n level ps ps',
  1 ≤ n →
  bfs_opt (edges Gn) r n (ps, level) →
  (∀ b q, connects (edges Gn) r b q → length q ≤ n → b ∈ ps.*1) →
  (∀ k, k ∈ ps.*1 → k ∉ level → ∀ w, w ∈ adj Gn k → w ∈ ps.*1) →
  _single_shortest_path fuel Gn level ps = Ok ps' →
  ∀ k p q, (k, p) ∈ ps' → connects (edges Gn) r k q → length p ≤ length q.
Proof.
  induction fuel as [|fuel IH]; intros n level ps ps' Hn Hopt Hnear Hclosed;
    (destruct level as [|v vs]; cbn [_single_shortest_path];
       [intros [= <-]; apply Hopt|]); [done|].
  set (level := v :: vs) in *.
  destruct (bfs_level Gn level (ps, [])) as [st'| |] eqn:Hlevel;
    cbn [obind]; try done.
  destruct Hopt as (Hnd & Hlen & Hnext & Hfull & Hbest & _). cbn [fst snd] in *.
  assert (bfs_opt (edges Gn) r (n + 1) st') as Hopt'.
  { eapply bfs_level_opt; [| |exact Hlevel].
    { simpl. intros u Hu. destruct (Hnext u Hu) as (p & ? & ?).
      exists p. split; [done|lia]. }
    split_and!; simpl; [done| |by intros k ?%elem_of_nil| |done|].
    - intros k p Hin. specialize (Hlen k p Hin). lia.
    - intros k p Hin Hp. specialize (Hlen k p Hin). lia.
    - intros b q Hq Hshort. apply (Hnear b q Hq). lia. }
  destruct (bfs_level_closed _ _ _ _ Hlevel) as [Hclosed' Hgrow].
  { cbn [fst snd]. intros k Hk Hnl _. by apply Hclosed. }
  destruct st' as [ps1 next1]. cbn [fst snd] in *.
  apply (IH (n + 1)); [lia|done| |done].
  intros b q Hq Hlq.
  destruct (decide (length q < n + 1)) as [Hshort|Hfull'].
  { by apply (proj2 (proj2 (proj2 (proj2 (proj2 Hopt')))) b q). }
  destruct (connects_snoc_inv _ _ _ _ Hq ltac:(lia)) as (q' & y & -> & Hq' & Hadj).
  rewrite length_app in Hlq, Hfull'. cbn [length] in *.
  assert (y ∈ ps1.*1) as Hy.
  { apply Hgrow, (Hnear y q' Hq'). lia. }
  apply (Hclosed' y Hy).
  - intros Hin. destruct Hopt' as (Hnd1 & _ & Hnext1 & _ & Hbest1 & _).
    cbn [fst snd] in *.
    destruct (Hnext1 y Hin) as (py & Hpy & Hlpy).
    specialize (Hbest1 y py q' Hpy Hq'). lia.
  - destruct Hadj as [l [Hin|Hin]]; by apply adj_items_complete in Hin as [? ?].
Qed.

Lemma single_source_shortest_path_opt Gn r ps :
  single_source_shortest_path Gn r = Ok ps →
  ∀ k p q, (k, p) ∈ ps → connects (edges Gn) r k q → length p ≤ length q.
Proof.
  unfold single_source_shortest_path. case_decide; [|done].
  assert (∀ b q, connects (edges Gn) r b q → length q ≤ 1 → b = r) as Hone.
  { intros b [|x [|y q]] (_ & Hhead & Hlast) Hlen; simpl in *; [done| |lia].
    congruence. }
  apply (_single_shortest_path_opt _ Gn r 1); [done| | |].
  - split_and!; simpl.
    + apply NoDup_singleton.
    + by intros k p [= -> ->]%list_elem_of_singleton.
    + intros k ->%list_elem_of_singleton. exists [r]. split; [left|done].
    + intros k p [= -> ->]%list_elem_of_singleton _. left.
    + intros k p q [= -> ->]%list_elem_of_singleton (_ & Hhead & _).
      destruct q; simpl in *; [done|lia].
    + intros b q Hq Hlen. rewrite (Hone b q Hq ltac:(lia)). left.
  - intros b q Hq Hlen. rewrite (Hone b q Hq Hlen). simpl. left.
  - simpl. intros k ->%list_elem_of_singleton Hk. destruct Hk. left.
Qed.

(** ** A chain of ones from the root is the path reported for its end *)

Lemma chain_is_path n r ps T p b :
  tree_paths r ps → mark_paths (zeros n n) ps = Ok T →
  head p = Some r → last p = Some b →
  (∀ a c, consecutive p a c → entry T a c = Some 1%Q) →
  (b, p) ∈ ps.
Proof.
  intros Htree Hfill. pose proof Htree as (Hnd & Hroot & Hpaths).
  revert b. induction p as [|x p IH] using rev_ind; intros b; [done|].
  intros Hhead Hlast Hchain. rewrite last_snoc in Hlast. injection Hlast as ->.
  destruct p as [|y p0 _] using rev_ind.
  { simpl in Hhead. by injection Hhead as ->. }
  assert ((y, p0 ++ [y]) ∈ ps) as Hy.
  { apply IH.
    - destruct p0; simpl in *; done.
    - apply last_snoc.
    - intros a c (p1 & p2 & Heq). apply Hchain.
      exists p1, (p2 ++ [b]). rewrite Heq. by rewrite <- !app_assoc. }
  assert (entry T y b = Some 1%Q) as Hone.
  { apply Hchain. exists p0, []. by rewrite <- app_assoc. }
  destruct (fill_entry _ _ _ _ _ _ Hfill Hone) as [?|[_ (k & pk & Hk & Hc)]]; [done|].
  destruct (tree_paths_parent _ _ _ _ _ _ Htree Hk Hc) as (q & Hb & Hq).
  destruct (Hpaths _ _ Hb) as [_ [Hr|(k' & p' & Hk' & Heq)]].
  { destruct q; [done|]. destruct q; done. }
  apply app_inj_tail in Heq as [<- _].
  destruct (Hpaths _ _ Hk') as [Hlast' _]. rewrite Hq in Hlast'.
  injection Hlast' as <-.
  by rewrite (dict_unique _ _ _ _ Hnd Hy Hk').
Qed.

Section FewestEdges.
Context {L : Type} `{EqDecision L}.

(** X18. The unweighted tree holds paths with the fewest edges: a chain of
    ones of the matrix [_SPT] returns that leads from the reference node to
    [b] is no longer than any sequence of edges of [G] from the reference
    node to [b]. *)
Theorem SPT_unweighted_fewest_edges (G : Graph L) r h T p q b :
  returns (Unweighted._SPT G r) h T →
  head p = Some r → last p = Some b →
  (∀ a c, consecutive p a c → entry T a c = Some 1%Q) →
  head q = Some r → last q = Some b →
  (∀ a c, consecutive q a c → is_edge G a c) →
  length p ≤ length q.
Proof.
  intros [h' Hrun] Hhead Hlast Hchain Hheadq Hlastq Hwalk.
  apply SPT_unweighted_Ok in Hrun as (Gn & ps & _ & Hedges & Hb & Hfill).
  pose proof (single_source_shortest_path_tree _ _ _ Hb) as Htree.
  apply (single_source_shortest_path_opt Gn r ps Hb b p q).
  - by eapply chain_is_path.
  - split_and!; [|done..]. intros a c Hc. rewrite Hedges.
    by apply is_edge_adjacent, Hwalk.
Qed.
End FewestEdges.

Lemma tree_path3_0_chain :
  ∀ a c, consecutive [0; 1; 2] a c → entry tree_path3_0 a c = Some 1%Q.
Proof.
  intros a c (p1 & p2 & Heq).
  destruct p1 as [|x1 [|x2 [|x3 p1]]]; simplify_eq/=; [done..|].
  destruct p1; done.
Qed.

Lemma path3_walk_back :
  ∀ a c, consecutive [0; 1; 0; 1; 2] a c → is_edge path3 a c.
Proof.
  assert (is_edge path3 1 0) as H10.
  { exists 0, 1, 0. split; [left|]. right. by vm_compute. }
  assert (is_edge path3 1 2) as H12.
  { exists 1, 2, 1. split; [right; left|]. left. by vm_compute. }
  intros a c (p1 & p2 & Heq).
  destruct p1 as [|x1 [|x2 [|x3 [|x4 [|x5 p1]]]]]; simplify_eq/=;
    [exact path3_edge_0_1|exact H10|exact path3_edge_0_1|exact H12|].
  destruct p1; done.
Qed.

Lemma SPT_unweighted_fewest_edges_witness :
  returns (Unweighted._SPT path3 0) unit_weights tree_path3_0 ∧
  head [0; 1; 2] = Some 0 ∧ last [0; 1; 2] = Some 2 ∧
  (∀ a c, consecutive [0; 1; 2] a c → entry tree_path3_0 a c = Some 1%Q) ∧
  head [0; 1; 0; 1; 2] = Some 0 ∧ last [0; 1; 0; 1; 2] = Some 2 ∧
  (∀ a c, consecutive [0; 1; 0; 1; 2] a c → is_edge path3 a c) ∧
  length [0; 1; 2] ≤ length [0; 1; 0; 1; 2].
Proof.
  split_and!; [apply path3_tree_returns|reflexivity|reflexivity
              |exact tree_path3_0_chain|reflexivity|reflexivity
              |exact path3_walk_back|].
  exact (SPT_unweighted_fewest_edges path3 0 unit_weights tree_path3_0
           [0; 1; 2] [0; 1; 0; 1; 2] 2 (proj2 path3_tree_returns)
           eq_refl eq_refl tree_path3_0_chain eq_refl eq_refl path3_walk_back).
Defined.
